(** * Mini-React core: reconciler, hook state and render scheduler

    A shallow embedding of the TypeScript sources
    [core/elements.ts], [core/context.ts], [core/hooks.ts], [core/dom.ts],
    [core/reconciler.ts], [core/render.ts], [core/setup.ts],
    [utils/enqueue.ts], [utils/equals.ts] and [utils/validators.ts].

    The JavaScript heap is explicit: Instance objects and DOM nodes live in
    two growing arrays and are referred to by their index, so that "the same
    object" is "the same index".  The module-level [context] object, the
    [scheduled] latch captured by [withEnqueue] and the microtask queue of
    the host are the fields of one record that every operation threads. *)

From Stdlib Require Import QArith.Qcanon.
From stdpp Require Import base list strings pretty gmap.

Open Scope string_scope.
Open Scope nat_scope.
Open Scope list_scope.

(* ===================================================================== *)
(** ** JavaScript values *)
(* ===================================================================== *)

(** Numbers, by their value: NaN, the integers, the two infinities, and
    the finite numbers that are not integers.  The negative zero is not
    kept apart from the positive one, [Int 0] stands for both: [===],
    truthiness, the keys of a [Map] and [String()] treat the two alike,
    and these are all that a key, a child or a prop goes through;
    [Object.is] alone tells them apart, so that -0 as a state or a
    dependency is outside the model. *)
Inductive Num : Type :=
| NaN
| Int (z : Z)
| Infinity (negative : bool)
| Fraction (q : Qc).

(** [key: string | number | null] of a VNode and of an Instance. *)
Inductive Key : Type :=
| KNull
| KStr (s : string)
| KNum (n : Num).

(** Values kept in state slots and dependency arrays.  Objects, arrays and
    functions are known by their address only: two objects with the same
    content at different addresses are different values. *)
Inductive Val : Type :=
| VUndefined
| VNull
| VBool (b : bool)
| VNum (n : Num)
| VStr (s : string)
| VObj (addr : nat).

#[global] Instance Num_eq_dec : EqDecision Num.
Proof. solve_decision. Defined.
#[global] Instance Key_eq_dec : EqDecision Key.
Proof. solve_decision. Defined.
#[global] Instance Val_eq_dec : EqDecision Val.
Proof. solve_decision. Defined.

(** [a === b] on numbers: NaN is not equal to itself. *)
Definition num_strict_eq (a b : Num) : bool :=
  match a, b with
  | NaN, _ | _, NaN => false
  | _, _ => bool_decide (a = b)
  end.

(** [a === b] on keys. *)
Definition key_strict_eq (a b : Key) : bool :=
  match a, b with
  | KNull, KNull => true
  | KStr s, KStr t => bool_decide (s = t)
  | KNum m, KNum n => num_strict_eq m n
  | _, _ => false
  end.

(** Truthiness of a key, as tested by [if (child.key)]: null, the empty
    string, NaN and 0 are falsy. *)
Definition key_truthy (k : Key) : bool :=
  match k with
  | KNull => false
  | KStr s => negb (bool_decide (s = ""))
  | KNum NaN => false
  | KNum (Int z) => negb (bool_decide (z = 0%Z))
  | KNum (Infinity _) => true
  | KNum (Fraction _) => true
  end.

(** [Object.is(a, b)]: same value; NaN is the same value as NaN, and two
    objects are the same value only at the same address. *)
Definition Object_is (a b : Val) : bool := bool_decide (a = b).

(** [a || b] on strings: the empty string is falsy. *)
Definition str_or (a b : string) : string :=
  if bool_decide (a = "") then b else a.

(* ===================================================================== *)
(** ** VNodes ([core/types.ts], [core/elements.ts]) *)
(* ===================================================================== *)

(** [type] of a VNode: the text marker symbol, the fragment marker symbol,
    a host tag, or a component function.  A component function is known by
    its identity [fn]; its name and body are in the [Registry] below. *)
Inductive NodeType : Type :=
| TEXT_ELEMENT
| Fragment
| Host (tag : string)
| Component (fn : nat).

#[global] Instance NodeType_eq_dec : EqDecision NodeType.
Proof. solve_decision. Defined.

(** A VNode [{type, key, props}]; [props] holds [children], the
    [nodeValue] of a text node, and the remaining attributes.  An entry
    [None] of [children] is an empty value (null, undefined or a boolean),
    see [isEmptyValue]. *)
Inductive VNode : Type :=
| mkVNode (type : NodeType) (key : Key) (props : Props)
with Props : Type :=
| mkProps (children : list (option VNode)) (nodeValue : option string)
          (attrs : list (string * Val)).

Definition type (n : VNode) : NodeType := let 'mkVNode t _ _ := n in t.
Definition key (n : VNode) : Key := let 'mkVNode _ k _ := n in k.
Definition props (n : VNode) : Props := let 'mkVNode _ _ p := n in p.
Definition children (p : Props) : list (option VNode) :=
  let 'mkProps c _ _ := p in c.
Definition nodeValue (p : Props) : option string :=
  let 'mkProps _ v _ := p in v.
Definition attrs (p : Props) : list (string * Val) :=
  let 'mkProps _ _ a := p in a.

(** [isEmptyValue(value)]: [value == null || typeof value === "boolean"]. *)
Definition isEmptyValue (n : option VNode) : bool :=
  match n with None => true | Some _ => false end.

(** [a === b] on VNode types: strings by content, symbols and functions by
    identity. *)
Definition type_strict_eq (a b : NodeType) : bool := bool_decide (a = b).

(** Truthiness of a type, as tested by [if (nodeType && siblings)]: only
    the empty tag is falsy. *)
Definition type_truthy (t : NodeType) : bool :=
  match t with
  | Host tag => negb (bool_decide (tag = ""))
  | _ => true
  end.

(* ===================================================================== *)
(** ** Hooks seen from a component *)
(* ===================================================================== *)

(** The setter returned by [useState]: a closure over the path and the
    cursor of the slot it was created for. *)
Record Setter : Type := mkSetter {
  setter_path : string;
  setter_cursor : nat
}.

(** Argument of a setter: a value, or an updater over the previous value
    ([typeof nextValue === "function"]). *)
Inductive SetArg : Type :=
| Literal (v : Val)
| Updater (f : Val → Val).

(** Argument of [useState]: the initial value, or a thunk computing it. *)
Inductive InitArg : Type :=
| InitValue (v : Val)
| InitThunk (f : unit → Val).

(** An effect function, known by its identity; calling it returns the
    cleanup function [effect_returns] (by identity), or nothing. *)
Record EffectFn : Type := mkEffectFn {
  effect_id : nat;
  effect_returns : option nat
}.

(** The body of a component function: the hook calls it makes, in order,
    each continuing with what the hook returned, up to the VNode it
    returns.  A body may also call a setter it got hold of. *)
Inductive Comp : Type :=
| Return (node : option VNode)
| UseState (init : InitArg) (k : Val → Setter → Comp)
| UseEffect (effect : EffectFn) (deps : option (list Val)) (k : Comp)
| CallSetter (s : Setter) (arg : SetArg) (k : Comp).

(** What the engine takes from outside [src/].

    The component functions (name and body by identity) and the
    descriptions of the two marker symbols of [core/constants.ts].

    [String(n)] of a number that is neither NaN, an infinity nor an
    integer of magnitude up to 2^53: the digits that [String] gives
    such a number (exponent form from 10^21 on, for one) are left to the
    host.

    What [setDomProps] and [updateDomProps] ask of a prop value that is
    an object or a function (a [VObj]), and of [Object.prototype], which
    every props object inherits from: whether the value is a function,
    its own enumerable keys, its properties, the [in] test, [String] of
    it (an object whose conversion to a string throws is left out), and
    the properties that [Object.prototype] has.

    Whether [document.createElement] accepts a tag and [setAttribute] a
    name; on another one they throw an InvalidCharacterError. *)
Class Registry : Type := {
  component_name : nat → string;
  component_body : nat → Props → Comp;
  TEXT_ELEMENT_description : option string;
  Fragment_description : option string;
  Number_digits : Num → string;
  is_function : nat → bool;
  object_keys : nat → list string;
  object_get : nat → string → Val;
  object_has : nat → string → bool;
  object_String : nat → string;
  prototype_get : string → option Val;
  valid_tag_name : string → bool;
  valid_attribute_name : string → bool
}.

(** [String(n)] on a number. *)
Definition Number_toString `{Registry} (n : Num) : string :=
  match n with
  | NaN => "NaN"
  | Int z =>
      if decide (Z.abs z ≤ 9007199254740992)%Z then pretty z
      else Number_digits n
  | Infinity false => "Infinity"
  | Infinity true => "-Infinity"
  | Fraction _ => Number_digits n
  end.

(** [String(key)] for a key that is not null. *)
Definition key_to_string `{Registry} (k : Key) : string :=
  match k with
  | KNull => "null"
  | KStr s => s
  | KNum n => Number_toString n
  end.

(* ===================================================================== *)
(** ** Identity paths ([core/elements.ts], createChildPath) *)
(* ===================================================================== *)

(** The type name used in a path: the function name or "Anonymous", the
    symbol description or "Symbol", or the tag itself. *)
Definition typeName `{Registry} (t : NodeType) : string :=
  match t with
  | Component fn => str_or (component_name fn) "Anonymous"
  | TEXT_ELEMENT => str_or (default "" TEXT_ELEMENT_description) "Symbol"
  | Fragment => str_or (default "" Fragment_description) "Symbol"
  | Host tag => tag
  end.

(** [siblings[i]?.type === nodeType]. *)
Definition sibling_has_type (siblings : list (option VNode)) (t : NodeType)
    (i : nat) : bool :=
  match siblings !! i with
  | Some (Some n) => type_strict_eq (type n) t
  | _ => false
  end.

(** The loop [for (let i = 0; i < index; i++)] counting [typeIndex]. *)
Definition typeIndex (siblings : list (option VNode)) (t : NodeType)
    (index : nat) : nat :=
  foldl (λ n i, if sibling_has_type siblings t i then S n else n)
        0 (seq 0 index).

Definition createChildPath `{Registry} (parentPath : string) (k : Key)
    (index : nat) (nodeType : option NodeType)
    (siblings : option (list (option VNode))) : string :=
  if negb (bool_decide (k = KNull)) then
    parentPath +:+ ".k" +:+ key_to_string k
  else
    match nodeType, siblings with
    | Some t, Some sibs =>
        if type_truthy t then
          parentPath +:+ ".c" +:+ typeName t +:+ "_"
                     +:+ pretty (typeIndex sibs t index)
        else parentPath +:+ ".i" +:+ pretty index
    | _, _ => parentPath +:+ ".i" +:+ pretty index
    end.

(** A sibling of type [t], keyed or not. *)
Definition is_of_type (t : NodeType) (s : option VNode) : bool :=
  match s with
  | Some n => bool_decide (type n = t)
  | None => false
  end.

(** A sibling of type [t] that carries no key. *)
Definition is_keyless_of_type (t : NodeType) (s : option VNode) : bool :=
  match s with
  | Some n => bool_decide (type n = t) && bool_decide (key n = KNull)
  | None => false
  end.

(** How many of the first [index] siblings satisfy [f]. *)
Definition count_before (f : option VNode → bool)
    (siblings : list (option VNode)) (index : nat) : nat :=
  length (filter (λ s, f s = true) (take index siblings)).

(** The path as the specification words it: the ordinal counts the
    same-type keyless siblings before [index]. *)
Definition createChildPath_spec `{Registry} (parentPath : string) (k : Key)
    (index : nat) (nodeType : option NodeType)
    (siblings : option (list (option VNode))) : string :=
  if negb (bool_decide (k = KNull)) then
    parentPath +:+ ".k" +:+ key_to_string k
  else
    match nodeType, siblings with
    | Some t, Some sibs =>
        if type_truthy t then
          parentPath +:+ ".c" +:+ typeName t +:+ "_"
                     +:+ pretty (count_before (is_keyless_of_type t) sibs index)
        else parentPath +:+ ".i" +:+ pretty index
    | _, _ => parentPath +:+ ".i" +:+ pretty index
    end.

(* ===================================================================== *)
(** ** Engine state ([core/types.ts], [core/context.ts]) *)
(* ===================================================================== *)

(** An effect hook [{kind: "effect", deps, cleanup, effect}].  [deps] is
    [None] for [null]; [cleanup] is the identity of the cleanup function. *)
Record EffectHook : Type := mkEffectHook {
  deps : option (list Val);
  cleanup : option nat;
  effect : EffectFn
}.

(** One entry of a hook array: the value of a state hook, or an effect
    hook object. *)
Inductive Slot : Type :=
| StateSlot (v : Val)
| EffectSlot (e : EffectHook).

(** [NodeTypes] of [core/constants.ts]. *)
Inductive NodeKind : Type := HOST | TEXT | FRAGMENT | COMPONENT.

#[global] Instance NodeKind_eq_dec : EqDecision NodeKind.
Proof. solve_decision. Defined.

(** An Instance object.  [inst_dom] and [inst_children] hold addresses, of
    the DOM node in [document] and of the child Instances in [heap]. *)
Record Inst : Type := mkInst {
  inst_kind : NodeKind;
  inst_dom : option nat;
  inst_node : VNode;
  inst_children : list nat;
  inst_key : Key;
  inst_path : string
}.

(** A DOM node: an element ([dom_tag] is its tag) or a text node. *)
Record DomNode : Type := mkDomNode {
  dom_tag : option string;
  dom_nodeValue : string;
  dom_parentNode : option nat;
  dom_childNodes : list nat
}.

(** The two closures handed to [enqueue]: the one built by
    [withEnqueue(render)], and the effect flush of one render pass, closed
    over its [effectsToRun]. *)
Inductive Callback : Type :=
| RunScheduledRender
| FlushEffects (effectsToRun : list (string * nat)).

(** Calls that leave the engine: DOM operations, and invocations of the
    effect and cleanup functions of the components. *)
Inductive Event : Type :=
| EvCreateElement (d : nat) (tag : string)
| EvCreateTextNode (d : nat) (text : string)
| EvSetDomProps (d : nat) (p : Props)
| EvUpdateDomProps (d : nat) (prevProps nextProps : Props)
| EvSetNodeValue (d : nat) (text : string)
| EvInsertBefore (parent node anchor : nat)
| EvAppendChild (parent node : nat)
| EvRemoveChild (parent node : nat)
| EvCleanup (fn : nat)
| EvEffect (fn : nat).

(** The module-level [context], together with what the engine shares with
    its host: the [scheduled] latch captured by [withEnqueue(render)], the
    microtask queue (oldest first), the Instance objects and the DOM nodes
    by address, and the calls made so far (oldest first).
    [hooks_state] is a [Map] kept in insertion order, the order in which
    [cleanupUnusedHooks] walks it; the top of [hooks_componentStack] is its
    last element. *)
Record Context : Type := mkContext {
  root_container : option nat;
  root_node : option VNode;
  root_instance : option nat;
  hooks_state : list (string * list Slot);
  hooks_cursor : gmap string nat;
  hooks_visited : gset string;
  hooks_componentStack : list string;
  effects_queue : list (string * nat);
  scheduled : bool;
  microtasks : list Callback;
  heap : list Inst;
  document : list DomNode;
  trace : list Event
}.

Definition with_root_container (v : option nat) (c : Context) : Context :=
  {| root_container := v; root_node := root_node c;
     root_instance := root_instance c; hooks_state := hooks_state c;
     hooks_cursor := hooks_cursor c; hooks_visited := hooks_visited c;
     hooks_componentStack := hooks_componentStack c;
     effects_queue := effects_queue c; scheduled := scheduled c;
     microtasks := microtasks c; heap := heap c; document := document c;
     trace := trace c |}.

Definition with_root_node (v : option VNode) (c : Context) : Context :=
  {| root_container := root_container c; root_node := v;
     root_instance := root_instance c; hooks_state := hooks_state c;
     hooks_cursor := hooks_cursor c; hooks_visited := hooks_visited c;
     hooks_componentStack := hooks_componentStack c;
     effects_queue := effects_queue c; scheduled := scheduled c;
     microtasks := microtasks c; heap := heap c; document := document c;
     trace := trace c |}.

Definition with_root_instance (v : option nat) (c : Context) : Context :=
  {| root_container := root_container c; root_node := root_node c;
     root_instance := v; hooks_state := hooks_state c;
     hooks_cursor := hooks_cursor c; hooks_visited := hooks_visited c;
     hooks_componentStack := hooks_componentStack c;
     effects_queue := effects_queue c; scheduled := scheduled c;
     microtasks := microtasks c; heap := heap c; document := document c;
     trace := trace c |}.

Definition with_hooks_state (v : list (string * list Slot)) (c : Context) : Context :=
  {| root_container := root_container c; root_node := root_node c;
     root_instance := root_instance c; hooks_state := v;
     hooks_cursor := hooks_cursor c; hooks_visited := hooks_visited c;
     hooks_componentStack := hooks_componentStack c;
     effects_queue := effects_queue c; scheduled := scheduled c;
     microtasks := microtasks c; heap := heap c; document := document c;
     trace := trace c |}.

Definition with_hooks_cursor (v : gmap string nat) (c : Context) : Context :=
  {| root_container := root_container c; root_node := root_node c;
     root_instance := root_instance c; hooks_state := hooks_state c;
     hooks_cursor := v; hooks_visited := hooks_visited c;
     hooks_componentStack := hooks_componentStack c;
     effects_queue := effects_queue c; scheduled := scheduled c;
     microtasks := microtasks c; heap := heap c; document := document c;
     trace := trace c |}.

Definition with_hooks_visited (v : gset string) (c : Context) : Context :=
  {| root_container := root_container c; root_node := root_node c;
     root_instance := root_instance c; hooks_state := hooks_state c;
     hooks_cursor := hooks_cursor c; hooks_visited := v;
     hooks_componentStack := hooks_componentStack c;
     effects_queue := effects_queue c; scheduled := scheduled c;
     microtasks := microtasks c; heap := heap c; document := document c;
     trace := trace c |}.

Definition with_hooks_componentStack (v : list string) (c : Context) : Context :=
  {| root_container := root_container c; root_node := root_node c;
     root_instance := root_instance c; hooks_state := hooks_state c;
     hooks_cursor := hooks_cursor c; hooks_visited := hooks_visited c;
     hooks_componentStack := v; effects_queue := effects_queue c;
     scheduled := scheduled c; microtasks := microtasks c; heap := heap c;
     document := document c; trace := trace c |}.

Definition with_effects_queue (v : list (string * nat)) (c : Context) : Context :=
  {| root_container := root_container c; root_node := root_node c;
     root_instance := root_instance c; hooks_state := hooks_state c;
     hooks_cursor := hooks_cursor c; hooks_visited := hooks_visited c;
     hooks_componentStack := hooks_componentStack c; effects_queue := v;
     scheduled := scheduled c; microtasks := microtasks c; heap := heap c;
     document := document c; trace := trace c |}.

Definition with_scheduled (v : bool) (c : Context) : Context :=
  {| root_container := root_container c; root_node := root_node c;
     root_instance := root_instance c; hooks_state := hooks_state c;
     hooks_cursor := hooks_cursor c; hooks_visited := hooks_visited c;
     hooks_componentStack := hooks_componentStack c;
     effects_queue := effects_queue c; scheduled := v;
     microtasks := microtasks c; heap := heap c; document := document c;
     trace := trace c |}.

Definition with_microtasks (v : list Callback) (c : Context) : Context :=
  {| root_container := root_container c; root_node := root_node c;
     root_instance := root_instance c; hooks_state := hooks_state c;
     hooks_cursor := hooks_cursor c; hooks_visited := hooks_visited c;
     hooks_componentStack := hooks_componentStack c;
     effects_queue := effects_queue c; scheduled := scheduled c;
     microtasks := v; heap := heap c; document := document c;
     trace := trace c |}.

Definition with_heap (v : list Inst) (c : Context) : Context :=
  {| root_container := root_container c; root_node := root_node c;
     root_instance := root_instance c; hooks_state := hooks_state c;
     hooks_cursor := hooks_cursor c; hooks_visited := hooks_visited c;
     hooks_componentStack := hooks_componentStack c;
     effects_queue := effects_queue c; scheduled := scheduled c;
     microtasks := microtasks c; heap := v; document := document c;
     trace := trace c |}.

Definition with_document (v : list DomNode) (c : Context) : Context :=
  {| root_container := root_container c; root_node := root_node c;
     root_instance := root_instance c; hooks_state := hooks_state c;
     hooks_cursor := hooks_cursor c; hooks_visited := hooks_visited c;
     hooks_componentStack := hooks_componentStack c;
     effects_queue := effects_queue c; scheduled := scheduled c;
     microtasks := microtasks c; heap := heap c; document := v;
     trace := trace c |}.

Definition with_trace (v : list Event) (c : Context) : Context :=
  {| root_container := root_container c; root_node := root_node c;
     root_instance := root_instance c; hooks_state := hooks_state c;
     hooks_cursor := hooks_cursor c; hooks_visited := hooks_visited c;
     hooks_componentStack := hooks_componentStack c;
     effects_queue := effects_queue c; scheduled := scheduled c;
     microtasks := microtasks c; heap := heap c; document := document c;
     trace := v |}.
(* ===================================================================== *)
(** ** Outcomes *)
(* ===================================================================== *)

(** What the code throws. *)
Inductive Error : Type :=
| TypeError                (* a property read on undefined *)
| HookOutsideComponent     (* "Hooks can only be called inside a component" *)
| NotFoundError            (* insertBefore with an anchor that is no child *)
| InvalidCharacterError.   (* createElement or setAttribute with a bad name *)

(** Where the embedding has no answer: the recursion budget is used up, an
    address points outside the heap or the document, or a slot is not of
    the kind of the hook that reads it (the call order of hooks changed
    between two renders, which the code does not guard against). *)
Inductive Stuck : Type :=
| OutOfFuel
| DanglingAddress
| HookOrderViolated.

Inductive Res (A : Type) : Type :=
| Ok (a : A) (c : Context)
| Throw (e : Error) (c : Context)
| Halt (s : Stuck).
Arguments Ok {A} a c.
Arguments Throw {A} e c.
Arguments Halt {A} s.

(** A computation over the engine state. *)
Definition M (A : Type) : Type := Context → Res A.

Definition ret {A} (a : A) : M A := λ c, Ok a c.
Definition bind {A B} (m : M A) (f : A → M B) : M B := λ c,
  match m c with
  | Ok a c' => f a c'
  | Throw e c' => Throw e c'
  | Halt s => Halt s
  end.

Notation "'let!' x ':=' m 'in' k" := (bind m (λ x, k))
  (at level 10, x name, m at level 100, k at level 200).
Notation "m '>>' k" := (bind m (λ _, k))
  (at level 110, k at level 200, right associativity).

Definition throw {A} (e : Error) : M A := λ c, Throw e c.
Definition halt {A} (s : Stuck) : M A := λ _, Halt s.
Definition gets {A} (f : Context → A) : M A := λ c, Ok (f c) c.
Definition modify (f : Context → Context) : M unit := λ c, Ok tt (f c).
Definition emit (evs : list Event) : M unit :=
  modify (λ c, with_trace (trace c ++ evs) c).

(* ===================================================================== *)
(** ** A [Map] in insertion order *)
(* ===================================================================== *)

Fixpoint Map_get {K V} `{EqDecision K} (k : K) (m : list (K * V))
    : option V :=
  match m with
  | [] => None
  | (k', v) :: m' => if decide (k = k') then Some v else Map_get k m'
  end.

(** [m.set(k, v)]: an existent key keeps its place, a new one goes last. *)
Fixpoint Map_set {K V} `{EqDecision K} (k : K) (v : V) (m : list (K * V))
    : list (K * V) :=
  match m with
  | [] => [(k, v)]
  | (k', v') :: m' =>
      if decide (k = k') then (k, v) :: m' else (k', v') :: Map_set k v m'
  end.

Fixpoint Map_delete {K V} `{EqDecision K} (k : K) (m : list (K * V))
    : list (K * V) :=
  match m with
  | [] => []
  | (k', v') :: m' =>
      if decide (k = k') then Map_delete k m' else (k', v') :: Map_delete k m'
  end.

Definition Map_keys {K V} (m : list (K * V)) : list K := m.*1.

(** [a[i] = x] on a JavaScript array: beyond the end the array grows, and
    the holes read as undefined. *)
Definition array_set (a : list Slot) (i : nat) (x : Slot) : list Slot :=
  if decide (i < length a) then <[i := x]> a
  else a ++ replicate (i - length a) (StateSlot VUndefined) ++ [x].

(* ===================================================================== *)
(** ** Scheduling ([utils/enqueue.ts]) *)
(* ===================================================================== *)

(** [enqueue(callback)]: [queueMicrotask(callback)]. *)
Definition enqueue (callback : Callback) : M unit :=
  modify (λ c, with_microtasks (microtasks c ++ [callback]) c).

(** The function returned by [withEnqueue(fn)]; [callback] is the closure
    [() => { scheduled = false; fn(); }] it hands to [enqueue]. *)
Definition withEnqueue (callback : Callback) : M unit := λ c,
  if scheduled c then Ok tt c
  else (modify (with_scheduled true) >> enqueue callback) c.

(** [enqueueRender = withEnqueue(render)] of [core/render.ts]. *)
Definition enqueueRender : M unit := withEnqueue RunScheduledRender.

(* ===================================================================== *)
(** ** Hooks ([core/context.ts], [core/hooks.ts], [utils/equals.ts]) *)
(* ===================================================================== *)

(** [context.hooks.currentPath]. *)
Definition currentPath : M string := λ c,
  match last (hooks_componentStack c) with
  | Some p => Ok p c
  | None => Throw HookOutsideComponent c
  end.

(** [context.hooks.currentCursor]. *)
Definition currentCursor : M nat :=
  let! path := currentPath in
  gets (λ c, default 0 (hooks_cursor c !! path)).

(** [context.hooks.currentHooks]: a path without an array gets an empty
    one. *)
Definition currentHooks : M (list Slot) :=
  let! path := currentPath in
  λ c, match Map_get path (hooks_state c) with
       | Some hooks => Ok hooks c
       | None => Ok [] (with_hooks_state (Map_set path [] (hooks_state c)) c)
       end.

(** [hooks.push(x)] on the array of [path]. *)
Definition push_hook (path : string) (hooks : list Slot) (x : Slot)
    : M (list Slot) := λ c,
  Ok (hooks ++ [x])
     (with_hooks_state (Map_set path (hooks ++ [x]) (hooks_state c)) c).

(** [context.hooks.cursor.set(path, n)]. *)
Definition set_cursor (path : string) (n : nat) : M unit :=
  modify (λ c, with_hooks_cursor (<[path := n]> (hooks_cursor c)) c).

(** A slot read as a state value: a missing entry is undefined. *)
Definition read_state (hooks : list Slot) (cursor : nat) : M Val :=
  match hooks !! cursor with
  | None => ret VUndefined
  | Some (StateSlot v) => ret v
  | Some (EffectSlot _) => halt HookOrderViolated
  end.

Definition useState (initialValue : InitArg) : M (Val * Setter) :=
  let! currentPath' := currentPath in
  let! currentCursor' := currentCursor in
  let! hooks := currentHooks in
  let! hooks := (if decide (length hooks ≤ currentCursor') then
             let initialState :=
               match initialValue with
               | InitThunk f => f ()
               | InitValue v => v
               end in
             push_hook currentPath' hooks (StateSlot initialState)
           else ret hooks) in
  let! state := read_state hooks currentCursor' in
  set_cursor currentPath' (currentCursor' + 1) >>
  ret (state, mkSetter currentPath' currentCursor').

(** The setter built by [useState], as a function of the path and cursor
    it closes over. *)
Definition setState (s : Setter) (nextValue : SetArg) : M unit := λ c,
  match Map_get (setter_path s) (hooks_state c) with
  | None => Throw TypeError c
  | Some stateArray =>
      (let! prevState := read_state stateArray (setter_cursor s) in
       let newState :=
         match nextValue with
         | Updater f => f prevState
         | Literal v => v
         end in
       if Object_is prevState newState then ret tt
       else
         modify (λ c, with_hooks_state
                        (Map_set (setter_path s)
                           (array_set stateArray (setter_cursor s)
                                      (StateSlot newState))
                           (hooks_state c)) c) >>
         enqueueRender) c
  end.

(** The loop of [shallowEquals] over two arrays of one length. *)
Fixpoint elements_same (a b : list Val) : bool :=
  match a, b with
  | x :: a', y :: b' => if Object_is x y then elements_same a' b' else false
  | _, _ => true
  end.

(** [shallowEquals(a, b)] where each side is [null] or an array. *)
Definition shallowEquals (a b : option (list Val)) : bool :=
  match a, b with
  | None, None => true
  | Some a, Some b =>
      if decide (length a ≠ length b) then false else elements_same a b
  | _, _ => false
  end.

Definition useEffect (effect' : EffectFn) (deps' : option (list Val))
    : M unit :=
  let! currentPath' := currentPath in
  let! currentCursor' := currentCursor in
  let! hooks := currentHooks in
  let normalizedDeps := deps' in
  (if decide (length hooks ≤ currentCursor') then
     push_hook currentPath' hooks
       (EffectSlot {| deps := normalizedDeps; cleanup := None;
                      effect := effect' |}) >>
     modify (λ c, with_effects_queue
                    (effects_queue c ++ [(currentPath', currentCursor')]) c)
   else
     match hooks !! currentCursor' with
     | Some (EffectSlot prevEffectHook) =>
         let depsChanged :=
           match normalizedDeps with
           | None => true
           | Some _ => negb (shallowEquals (deps prevEffectHook)
                                           normalizedDeps)
           end in
         if depsChanged then
           modify (λ c, with_hooks_state
                          (Map_set currentPath'
                             (<[currentCursor' :=
                                  EffectSlot
                                    {| deps := normalizedDeps;
                                       cleanup := cleanup prevEffectHook;
                                       effect := effect' |}]> hooks)
                             (hooks_state c)) c) >>
           modify (λ c, with_effects_queue
                          (effects_queue c
                             ++ [(currentPath', currentCursor')]) c)
         else ret tt
     | _ => halt HookOrderViolated
     end) >>
  set_cursor currentPath' (currentCursor' + 1).

(** The inner loop of [cleanupUnusedHooks] over one hook array: every
    effect hook with a cleanup has it called and set to null. *)
Fixpoint cleanup_hooks (hooks : list Slot) : list Slot * list Event :=
  match hooks with
  | [] => ([], [])
  | EffectSlot e :: rest =>
      let '(rest', evs) := cleanup_hooks rest in
      match cleanup e with
      | Some fn =>
          (EffectSlot {| deps := deps e; cleanup := None;
                         effect := effect e |} :: rest',
           EvCleanup fn :: evs)
      | None => (EffectSlot e :: rest', evs)
      end
  | s :: rest =>
      let '(rest', evs) := cleanup_hooks rest in (s :: rest', evs)
  end.

(** One turn of the outer loop of [cleanupUnusedHooks]. *)
Definition cleanup_path (path : string) (c : Context) : Context :=
  let c1 :=
    match Map_get path (hooks_state c) with
    | Some hooks =>
        let '(hooks', evs) := cleanup_hooks hooks in
        with_trace (trace c ++ evs)
          (with_hooks_state (Map_set path hooks' (hooks_state c)) c)
    | None => c
    end in
  with_hooks_cursor (delete path (hooks_cursor c1))
    (with_hooks_state (Map_delete path (hooks_state c1)) c1).

Definition pathsToDelete (c : Context) : list string :=
  filter (λ path, path ∉ hooks_visited c) (Map_keys (hooks_state c)).

Definition cleanupUnusedHooks (c : Context) : Context :=
  foldl (λ c path, cleanup_path path c) c (pathsToDelete c).

(* ===================================================================== *)
(** ** The properties of a DOM element ([core/dom.ts], setDomProps and
       updateDomProps) *)
(* ===================================================================== *)

(** The calls made on the element. *)
Inductive DomCall : Type :=
| AddEventListener (eventName : string) (listener : nat)
| RemoveEventListener (eventName : string) (listener : nat)
| SetStyle (styleKey : string) (value : Val)
| SetAttribute (name : string) (value : string)
| RemoveAttribute (name : string).

(** [typeof value === "function"]. *)
Definition typeof_function `{Registry} (value : Val) : option nat :=
  match value with
  | VObj addr => if is_function addr then Some addr else None
  | _ => None
  end.

(** [typeof value === "object" && value !== null]. *)
Definition typeof_object `{Registry} (value : Val) : option nat :=
  match value with
  | VObj addr => if is_function addr then None else Some addr
  | _ => None
  end.

(** [value != null]. *)
Definition not_nullish (value : Val) : bool :=
  match value with VUndefined | VNull => false | _ => true end.

(** [String(value)], which is also what [setAttribute] makes of its
    second argument. *)
Definition String_val `{Registry} (value : Val) : string :=
  match value with
  | VUndefined => "undefined"
  | VNull => "null"
  | VBool true => "true"
  | VBool false => "false"
  | VNum n => Number_toString n
  | VStr s => s
  | VObj addr => object_String addr
  end.

(** [a === b]. *)
Definition val_strict_eq (a b : Val) : bool :=
  match a, b with
  | VNum x, VNum y => num_strict_eq x y
  | _, _ => bool_decide (a = b)
  end.

(** [s.toLowerCase()], on the letters A to Z. *)
Fixpoint toLowerCase (s : string) : string :=
  match s with
  | EmptyString => EmptyString
  | String ch rest =>
      let n := Ascii.nat_of_ascii ch in
      String (if decide (65 ≤ n ∧ n ≤ 90) then Ascii.ascii_of_nat (n + 32)
              else ch)
             (toLowerCase rest)
  end.

(** [key.substring(2).toLowerCase()]. *)
Definition event_name (key : string) : string :=
  toLowerCase (String.substring 2 (String.length key - 2) key).

(** [key.startsWith("on")]. *)
Definition starts_with_on (key : string) : bool := String.prefix "on" key.

(** The body of the loop of [setDomProps], for one key. *)
Definition set_prop `{Registry} (key : string) (value : Val)
    : list DomCall :=
  if bool_decide (key = "children") then []
  else
    match (if starts_with_on key then typeof_function value else None) with
    | Some listener => [AddEventListener (event_name key) listener]
    | None =>
        match (if bool_decide (key = "style") then typeof_object value
               else None) with
        | Some style =>
            map (λ styleKey, SetStyle styleKey (object_get style styleKey))
                (object_keys style)
        | None =>
            if bool_decide (key = "className")
            then [SetAttribute "class" (String_val value)]
            else
              match value with
              | VBool true => [SetAttribute key ""]
              | VBool false => [RemoveAttribute key]
              | _ =>
                  if not_nullish value
                  then [SetAttribute key (String_val value)]
                  else []
              end
        end
    end.

(** [setDomProps(dom, props)], by the calls it makes on [dom], in their
    order, as long as none throws; [props] is the list of the own
    properties in the order of [Object.keys]. *)
Definition setDomProps_calls `{Registry} (props : list (string * Val))
    : list DomCall :=
  concat (map (λ kv, set_prop kv.1 kv.2) props).

(** [key in props] and [props[key]] on a props object. *)
Definition props_has `{Registry} (props : list (string * Val))
    (key : string) : bool :=
  match Map_get key props with
  | Some _ => true
  | None => bool_decide (is_Some (prototype_get key))
  end.

Definition props_get `{Registry} (props : list (string * Val))
    (key : string) : Val :=
  match Map_get key props with
  | Some v => v
  | None => default VUndefined (prototype_get key)
  end.

(** The body of the first loop of [updateDomProps], for one key of
    [prevProps]. *)
Definition remove_prop `{Registry} (nextProps : list (string * Val))
    (key : string) (prevValue : Val) : list DomCall :=
  if bool_decide (key = "children") then []
  else if props_has nextProps key then []
  else
    match (if starts_with_on key then typeof_function prevValue
           else None) with
    | Some listener => [RemoveEventListener (event_name key) listener]
    | None =>
        if bool_decide (key = "style") then [RemoveAttribute "style"]
        else if bool_decide (key = "className") then [RemoveAttribute "class"]
        else [RemoveAttribute key]
    end.

(** The body of the second loop, for one key of [nextProps]. *)
Definition update_prop `{Registry} (prevProps : list (string * Val))
    (key : string) (nextValue : Val) : list DomCall :=
  let prevValue := props_get prevProps key in
  if bool_decide (key = "children") then []
  else if val_strict_eq prevValue nextValue then []
  else if starts_with_on key then
    match typeof_function prevValue with
    | Some listener => [RemoveEventListener (event_name key) listener]
    | None => []
    end
    ++ match typeof_function nextValue with
       | Some listener => [AddEventListener (event_name key) listener]
       | None => []
       end
  else
    match (if bool_decide (key = "style") then typeof_object nextValue
           else None) with
    | Some style =>
        let prevStyleKeys :=
          match typeof_object prevValue with
          | Some prevStyle => object_keys prevStyle
          | None => []
          end in
        concat (map (λ styleKey,
                       if object_has style styleKey then []
                       else [SetStyle styleKey (VStr "")])
                    prevStyleKeys)
        ++ map (λ styleKey, SetStyle styleKey (object_get style styleKey))
               (object_keys style)
    | None =>
        if bool_decide (key = "className")
        then [SetAttribute "class" (String_val nextValue)]
        else
          match nextValue with
          | VBool true => [SetAttribute key ""]
          | VBool false => [RemoveAttribute key]
          | _ =>
              if not_nullish nextValue
              then [SetAttribute key (String_val nextValue)]
              else [RemoveAttribute key]
          end
    end.

(** [updateDomProps(dom, prevProps, nextProps)], by the calls it makes on
    [dom], in their order, as long as none throws. *)
Definition updateDomProps_calls `{Registry}
    (prevProps nextProps : list (string * Val)) : list DomCall :=
  concat (map (λ kv, remove_prop nextProps kv.1 kv.2) prevProps)
  ++ concat (map (λ kv, update_prop prevProps kv.1 kv.2) nextProps).

(** The attributes of an HTML element after a call that returns, [None]
    when the call throws: [setAttribute] and [removeAttribute] act on the
    attribute whose name is the given one in lower case, the other calls
    leave the attributes other than [style] as they are. *)
Definition attribute_call `{Registry} (attributes : gmap string string)
    (call : DomCall) : option (gmap string string) :=
  match call with
  | SetAttribute name value =>
      if valid_attribute_name name
      then Some (<[toLowerCase name := value]> attributes)
      else None
  | RemoveAttribute name => Some (delete (toLowerCase name) attributes)
  | _ => Some attributes
  end.

(** The attributes after a sequence of calls, [None] when one throws. *)
Definition attributes_after `{Registry} (calls : list DomCall)
    (attributes : gmap string string) : option (gmap string string) :=
  foldl (λ acc call, acc ≫= λ a, attribute_call a call) (Some attributes)
        calls.

(** Two elements have the same attributes, [style] left aside. *)
Definition same_attributes (a b : gmap string string) : Prop :=
  ∀ name, name ≠ "style" → a !! name = b !! name.

(** The attribute that a prop is written to. *)
Definition attribute_name (key : string) : string :=
  toLowerCase (if bool_decide (key = "className") then "class" else key).

(** What a call writes to the attribute [name]: a value, or its removal. *)
Definition attribute_write (name : string) (call : DomCall)
    : option (option string) :=
  match call with
  | SetAttribute n value =>
      if bool_decide (toLowerCase n = name) then Some (Some value) else None
  | RemoveAttribute n =>
      if bool_decide (toLowerCase n = name) then Some None else None
  | _ => None
  end.

(** The last write of [calls] to the attribute [name], if any. *)
Definition last_write (name : string) (calls : list DomCall)
    : option (option string) :=
  foldl (λ acc call, match attribute_write name call with
                     | Some w => Some w
                     | None => acc
                     end) None calls.

(** The call does not throw. *)
Definition call_accepted `{Registry} (call : DomCall) : bool :=
  match call with
  | SetAttribute name _ => valid_attribute_name name
  | _ => true
  end.

(** No two keys of the props are written to the same attribute. *)
Definition one_key_per_attribute (props : list (string * Val)) : Prop :=
  NoDup (attribute_name <$> props.*1).

(** No key of the props is a property of [Object.prototype]. *)
Definition no_inherited_key `{Registry} (props : list (string * Val))
    : Prop :=
  ∀ key, key ∈ props.*1 → prototype_get key = None.

(** Every prop whose key starts with "on" is a function, null or
    undefined. *)
Definition handlers_are_functions `{Registry} (props : list (string * Val))
    : Prop :=
  ∀ key value, (key, value) ∈ props → starts_with_on key = true →
    is_Some (typeof_function value) ∨ not_nullish value = false.

(** What a prop that is no handler, no style object and not [className]
    writes to its attribute when it is set: a boolean sets the empty
    string or removes, another value that is not null or undefined sets
    its string, null and undefined write nothing. *)
Definition plain_write `{Registry} (value : Val) : option (option string) :=
  match value with
  | VBool true => Some (Some "")
  | VBool false => Some None
  | _ => if not_nullish value then Some (Some (String_val value)) else None
  end.

(* ===================================================================== *)
(** ** The heap of Instances and the DOM *)
(* ===================================================================== *)

(** Loops of the source over an array, threading the engine state. *)
Fixpoint foldM {S X} (f : S → X → M S) (s : S) (l : list X) : M S :=
  match l with
  | [] => ret s
  | x :: l' => let! s' := f s x in foldM f s' l'
  end.

Definition forM_ {X} (f : X → M unit) (l : list X) : M unit :=
  foldM (λ _ x, f x) tt l.

Definition heap_get (i : nat) : M Inst := λ c,
  match heap c !! i with
  | Some inst => Ok inst c
  | None => Halt DanglingAddress
  end.

(** A new Instance object: its address is the next free one. *)
Definition heap_alloc (inst : Inst) : M nat := λ c,
  Ok (length (heap c)) (with_heap (heap c ++ [inst]) c).

Definition heap_alter (f : Inst → Inst) (i : nat) : M unit :=
  modify (λ c, with_heap (alter f i (heap c)) c).

Definition set_node (n : VNode) (i : Inst) : Inst :=
  {| inst_kind := inst_kind i; inst_dom := inst_dom i; inst_node := n;
     inst_children := inst_children i; inst_key := inst_key i;
     inst_path := inst_path i |}.

Definition set_path (p : string) (i : Inst) : Inst :=
  {| inst_kind := inst_kind i; inst_dom := inst_dom i;
     inst_node := inst_node i; inst_children := inst_children i;
     inst_key := inst_key i; inst_path := p |}.

Definition set_children (l : list nat) (i : Inst) : Inst :=
  {| inst_kind := inst_kind i; inst_dom := inst_dom i;
     inst_node := inst_node i; inst_children := l; inst_key := inst_key i;
     inst_path := inst_path i |}.

Definition dom_get (d : nat) : M DomNode := λ c,
  match document c !! d with
  | Some n => Ok n c
  | None => Halt DanglingAddress
  end.

Definition dom_alter (f : DomNode → DomNode) (d : nat) : M unit :=
  modify (λ c, with_document (alter f d (document c)) c).

Definition set_parentNode (p : option nat) (n : DomNode) : DomNode :=
  {| dom_tag := dom_tag n; dom_nodeValue := dom_nodeValue n;
     dom_parentNode := p; dom_childNodes := dom_childNodes n |}.

Definition set_childNodes (l : list nat) (n : DomNode) : DomNode :=
  {| dom_tag := dom_tag n; dom_nodeValue := dom_nodeValue n;
     dom_parentNode := dom_parentNode n; dom_childNodes := l |}.

Definition set_nodeValue (v : string) (n : DomNode) : DomNode :=
  {| dom_tag := dom_tag n; dom_nodeValue := v;
     dom_parentNode := dom_parentNode n;
     dom_childNodes := dom_childNodes n |}.

(** [document.createElement(tag)]: throws on a tag that is no valid
    name. *)
Definition createElement `{Registry} (tag : string) : M nat := λ c,
  if valid_tag_name tag then
    let d := length (document c) in
    Ok d (with_trace (trace c ++ [EvCreateElement d tag])
            (with_document (document c ++ [mkDomNode (Some tag) "" None []])
                           c))
  else Throw InvalidCharacterError c.

(** [document.createTextNode(text)]. *)
Definition createTextNode (text : string) : M nat := λ c,
  let d := length (document c) in
  Ok d (with_trace (trace c ++ [EvCreateTextNode d text])
          (with_document (document c ++ [mkDomNode None text None []]) c)).

(** [setDomProps(dom, props)] and [updateDomProps(dom, prev, next)] in
    the reconciler: the attribute, style and listener writes on one
    element are one call, which throws when one of its [setAttribute]
    calls does (see [setDomProps_calls] and [updateDomProps_calls]; the
    keys [children] and [nodeValue], which are no entries of [attrs],
    write no attribute that could be refused). *)
Definition setDomProps `{Registry} (d : nat) (p : Props) : M unit :=
  emit [EvSetDomProps d p] >>
  if forallb call_accepted (setDomProps_calls (attrs p)) then ret tt
  else throw InvalidCharacterError.

Definition updateDomProps `{Registry} (d : nat) (prevProps nextProps : Props)
    : M unit :=
  emit [EvUpdateDomProps d prevProps nextProps] >>
  if forallb call_accepted
       (updateDomProps_calls (attrs prevProps) (attrs nextProps))
  then ret tt
  else throw InvalidCharacterError.

(** A node leaves the child list of its parent, if it has one. *)
Definition detach (node : nat) : M unit :=
  let! n := dom_get node in
  match dom_parentNode n with
  | Some p =>
      dom_alter (λ pn, set_childNodes
                         (filter (λ x, x ≠ node) (dom_childNodes pn)) pn) p >>
      dom_alter (set_parentNode None) node
  | None => ret tt
  end.

(** [node.parentNode?.removeChild(node)]. *)
Definition removeChild (node : nat) : M unit :=
  let! n := dom_get node in
  match dom_parentNode n with
  | Some p => detach node >> emit [EvRemoveChild p node]
  | None => ret tt
  end.

(** [parentDom.appendChild(node)]: the node moves to the end. *)
Definition appendChild (parentDom node : nat) : M unit :=
  detach node >>
  dom_alter (λ pn, set_childNodes (dom_childNodes pn ++ [node]) pn)
            parentDom >>
  dom_alter (set_parentNode (Some parentDom)) node >>
  emit [EvAppendChild parentDom node].

(** The child list with [node] put before [anchor]. *)
Fixpoint put_before (anchor node : nat) (l : list nat) : list nat :=
  match l with
  | [] => []
  | x :: l' =>
      if decide (x = anchor) then node :: x :: l'
      else x :: put_before anchor node l'
  end.

(** [parentDom.insertBefore(node, anchor)]: throws when [anchor] is not a
    child of [parentDom]; a node inserted before itself stays in place.
    The check that [node] does not contain [parentDom] is left out. *)
Definition insertBefore (parentDom node anchor : nat) : M unit :=
  let! a := dom_get anchor in
  if decide (dom_parentNode a = Some parentDom) then
    (if decide (node = anchor) then ret tt
     else
       detach node >>
       dom_alter (λ pn, set_childNodes
                          (put_before anchor node (dom_childNodes pn)) pn)
                 parentDom >>
       dom_alter (set_parentNode (Some parentDom)) node) >>
    emit [EvInsertBefore parentDom node anchor]
  else throw NotFoundError.

(** Is the kind one that owns a DOM node? *)
Definition owns_dom (k : NodeKind) : bool :=
  match k with HOST | TEXT => true | _ => false end.

(** [getDomNodes(instance)] of [core/dom.ts]. *)
Fixpoint getDomNodes (fuel : nat) (instance : option nat) : M (list nat) :=
  match fuel with
  | 0 => halt OutOfFuel
  | S fuel =>
      match instance with
      | None => ret []
      | Some i =>
          let! inst := heap_get i in
          if owns_dom (inst_kind inst) then
            ret (match inst_dom inst with Some d => [d] | None => [] end)
          else
            foldM (λ nodes child,
                     let! more := getDomNodes fuel (Some child) in
                     ret (nodes ++ more))
                  [] (inst_children inst)
      end
  end.

(** [getFirstDom(instance)]; the loop of [getFirstDomFromChildren] is the
    fold, which keeps the first DOM node it finds. *)
Fixpoint getFirstDom (fuel : nat) (instance : option nat) : M (option nat) :=
  match fuel with
  | 0 => halt OutOfFuel
  | S fuel =>
      match instance with
      | None => ret None
      | Some i =>
          let! inst := heap_get i in
          if owns_dom (inst_kind inst) then ret (inst_dom inst)
          else
            foldM (λ found child,
                     match found with
                     | Some d => ret (Some d)
                     | None => getFirstDom fuel (Some child)
                     end)
                  None (inst_children inst)
      end
  end.

Definition getFirstDomFromChildren (fuel : nat) (children' : list nat)
    : M (option nat) :=
  foldM (λ found child,
           match found with
           | Some d => ret (Some d)
           | None => getFirstDom fuel (Some child)
           end)
        None children'.

(** [insertInstance(parentDom, instance, anchor)]. *)
Definition insertInstance (fuel : nat) (parentDom : nat)
    (instance : option nat) (anchor : option nat) : M unit :=
  match instance with
  | None => ret tt
  | Some _ =>
      let! domNodes := getDomNodes fuel instance in
      forM_ (λ node,
               match anchor with
               | Some a => insertBefore parentDom node a
               | None => appendChild parentDom node
               end)
            domNodes
  end.

(** [removeInstance(instance)]. *)
Definition removeInstance (fuel : nat) (instance : option nat) : M unit :=
  match instance with
  | None => ret tt
  | Some _ =>
      let! domNodes := getDomNodes fuel instance in
      forM_ removeChild domNodes
  end.

(* ===================================================================== *)
(** ** Reconciliation ([core/reconciler.ts]) *)
(* ===================================================================== *)

(** A component function runs: its hook calls act on the engine state. *)
Fixpoint run_component (body : Comp) : M (option VNode) :=
  match body with
  | Return node => ret node
  | UseState init k =>
      let! r := useState init in run_component (k r.1 r.2)
  | UseEffect effect' deps' k =>
      useEffect effect' deps' >> run_component k
  | CallSetter s arg k =>
      setState s arg >> run_component k
  end.

(** [unmount(instance)]: the children first, then the DOM nodes of the
    unmounted Instance itself. *)
Fixpoint unmount (fuel : nat) (instance : nat) : M unit :=
  match fuel with
  | 0 => halt OutOfFuel
  | S fuel =>
      let! inst := heap_get instance in
      forM_ (unmount fuel) (inst_children inst) >>
      removeInstance fuel (Some instance)
  end.

(** The first loop of [reconcileChildren]: the old children that carry a
    key, by key; a later child with the same key replaces an earlier
    one. *)
Definition index_by_key (oldChildren : list nat) : M (list (Key * nat)) :=
  foldM (λ oldChildrenByKey oldChild,
           let! inst := heap_get oldChild in
           if negb (bool_decide (inst_key inst = KNull)) then
             ret (Map_set (inst_key inst) oldChild oldChildrenByKey)
           else ret oldChildrenByKey)
        [] oldChildren.

(** What the second loop of [reconcileChildren] carries from one child to
    the next. *)
Record LoopState : Type := mkLoopState {
  oldChildrenByKey : list (Key * nat);
  usedOldChildren : gset nat;
  newChildren : list nat
}.

(** The choice of the old Instance for the child at index [i]: by key when
    [child.key] is truthy, by index otherwise.  Returns the old Instance
    with the map and the set as they are left. *)
Definition select_oldChild (oldChildren : list nat) (byKey : list (Key * nat))
    (used : gset nat) (childKey : Key) (i : nat)
    : option nat * list (Key * nat) * gset nat :=
  if key_truthy childKey then
    match Map_get childKey byKey with
    | Some oldChild =>
        (Some oldChild, Map_delete childKey byKey, {[oldChild]} ∪ used)
    | None => (None, byKey, used)
    end
  else
    match oldChildren !! i with
    | Some oldChild => (Some oldChild, byKey, {[oldChild]} ∪ used)
    | None => (None, byKey, used)
    end.

(** [a !== b] on an old Instance or null against an array entry or
    undefined, for [oldChild !== oldChildren[i]]. *)
Definition ref_differs (a b : option nat) : bool :=
  negb (bool_decide (a = b)).

(** The body of the second loop of [reconcileChildren], for the child at
    index [i]; [reconcile'] is [reconcile], which the loop calls. *)
Definition reconcile_child `{Registry}
    (reconcile' : nat → option nat → option VNode → string → M (option nat))
    (fuel : nat) (parentDomForChildren : nat) (parentPath : string)
    (children' : list (option VNode)) (oldChildren : list nat)
    (st : LoopState) (ic : nat * option VNode) : M LoopState :=
  let '(i, child) := ic in
  match child with
  | None => ret st
  | Some child =>
      let childPath :=
        createChildPath parentPath (key child) i (Some (type child))
                        (Some children') in
      let '(oldChild, byKey', used') :=
        select_oldChild oldChildren (oldChildrenByKey st)
                        (usedOldChildren st) (key child) i in
      let! newChild :=
        reconcile' parentDomForChildren oldChild (Some child) childPath in
      match newChild with
      | Some nc =>
          (if ref_differs newChild oldChild
              || ref_differs oldChild (oldChildren !! i)
           then
             let! anchor :=
               getFirstDomFromChildren fuel (drop (i + 1) oldChildren) in
             insertInstance fuel parentDomForChildren newChild anchor
           else ret tt) >>
          ret (mkLoopState byKey' used' (newChildren st ++ [nc]))
      | None => ret (mkLoopState byKey' used' (newChildren st))
      end
  end.

Fixpoint reconcile `{Registry} (fuel : nat) (parentDom : nat)
    (instance : option nat) (node : option VNode) (path : string)
    {struct fuel} : M (option nat) :=
  match fuel with
  | 0 => halt OutOfFuel
  | S fuel =>
      match node with
      | None =>
          match instance with
          | Some i => unmount fuel i
          | None => ret tt
          end >>
          ret None
      | Some node =>
          match instance with
          | None =>
              let! m := mount fuel parentDom node path in ret (Some m)
          | Some i =>
              let! inst := heap_get i in
              if negb (type_strict_eq (type (inst_node inst)) (type node))
                 || negb (key_strict_eq (key (inst_node inst)) (key node))
              then
                unmount fuel i >>
                let! m := mount fuel parentDom node path in ret (Some m)
              else
                let! u := update fuel parentDom i node path in ret (Some u)
          end
      end
  end

with mount `{Registry} (fuel : nat) (parentDom : nat) (node : VNode)
    (path : string) {struct fuel} : M nat :=
  match fuel with
  | 0 => halt OutOfFuel
  | S fuel =>
      let! kd :=
        match type node with
        | TEXT_ELEMENT =>
            let! dom := createTextNode
                          (default "" (nodeValue (props node))) in
            ret (TEXT, Some dom)
        | Fragment => ret (FRAGMENT, None)
        | Component _ => ret (COMPONENT, None)
        | Host tag =>
            let! dom := createElement tag in
            setDomProps dom (props node) >>
            ret (HOST, Some dom)
        end in
      let! instance :=
        heap_alloc {| inst_kind := kd.1; inst_dom := kd.2;
                      inst_node := node; inst_children := [];
                      inst_key := key node; inst_path := path |} in
      reconcileChildren fuel parentDom instance (children (props node))
                        path >>
      ret instance
  end

with update `{Registry} (fuel : nat) (parentDom : nat) (instance : nat)
    (node : VNode) (path : string) {struct fuel} : M nat :=
  match fuel with
  | 0 => halt OutOfFuel
  | S fuel =>
      let! inst := heap_get instance in
      let prevProps := props (inst_node inst) in
      heap_alter (set_node node) instance >>
      heap_alter (set_path path) instance >>
      match inst_kind inst, inst_dom inst with
      | TEXT, Some textNode =>
          let newNodeValue := default "" (nodeValue (props node)) in
          let! t := dom_get textNode in
          if bool_decide (dom_nodeValue t = newNodeValue) then ret tt
          else
            dom_alter (set_nodeValue newNodeValue) textNode >>
            emit [EvSetNodeValue textNode newNodeValue]
      | HOST, Some dom => updateDomProps dom prevProps (props node)
      | _, _ => ret tt
      end >>
      reconcileChildren fuel parentDom instance (children (props node))
                        path >>
      ret instance
  end

with reconcileChildren `{Registry} (fuel : nat) (parentDom : nat)
    (instance : nat) (children' : list (option VNode))
    (parentPath : string) {struct fuel} : M unit :=
  match fuel with
  | 0 => halt OutOfFuel
  | S fuel =>
      let! inst := heap_get instance in
      let oldChildren := inst_children inst in
      if bool_decide (inst_kind inst = COMPONENT) then
        modify (λ c, with_hooks_componentStack
                       (hooks_componentStack c ++ [parentPath]) c) >>
        modify (λ c, with_hooks_visited
                       ({[parentPath]} ∪ hooks_visited c) c) >>
        set_cursor parentPath 0 >>
        let! componentNode :=
          match type (inst_node inst) with
          | Component fn =>
              run_component (component_body fn (props (inst_node inst)))
          | _ => throw TypeError
          end in
        let childPath :=
          createChildPath parentPath KNull 0 (type <$> componentNode)
                          (Some [componentNode]) in
        let oldChild := oldChildren !! 0 in
        let! childInstance :=
          reconcile fuel parentDom oldChild componentNode childPath in
        let! newChildren' :=
          match childInstance with
          | Some ci =>
              (if ref_differs childInstance oldChild then
                 insertInstance fuel parentDom childInstance None
               else ret tt) >>
              ret [ci]
          | None => ret []
          end in
        modify (λ c, with_hooks_componentStack
                       (removelast (hooks_componentStack c)) c) >>
        heap_alter (set_children newChildren') instance
      else
        let! parentDomForChildren :=
          if bool_decide (inst_kind inst = HOST) then
            match inst_dom inst with
            | Some d => ret d
            | None => halt DanglingAddress
            end
          else ret parentDom in
        let! byKey := index_by_key oldChildren in
        let! final :=
          foldM (reconcile_child (reconcile fuel) fuel parentDomForChildren
                                 parentPath children' oldChildren)
                (mkLoopState byKey ∅ [])
                (imap (λ i child, (i, child)) children') in
        forM_ (λ oldChild,
                 if bool_decide (oldChild ∈ usedOldChildren final)
                 then ret tt
                 else unmount fuel oldChild)
              oldChildren >>
        heap_alter (set_children (newChildren final)) instance
  end.

(* ===================================================================== *)
(** ** The render pass and the microtask queue ([core/render.ts]) *)
(* ===================================================================== *)

(** The attach step of [render]: the DOM nodes of the root Instance go
    under the container when the first of them has no parent yet. *)
Definition attach_root (fuel : nat) (container : nat) : M unit :=
  let! instance := gets root_instance in
  match instance with
  | Some _ =>
      let! firstDom := getFirstDom fuel instance in
      match firstDom with
      | Some d =>
          let! n := dom_get d in
          match dom_parentNode n with
          | None => insertInstance fuel container instance None
          | Some _ => ret tt
          end
      | None => ret tt
      end
  | None => ret tt
  end.

(** The last step of [render]: the effect queue is copied and emptied, and
    the copy, when it is not empty, is handed to [enqueue]. *)
Definition schedule_effects : M unit :=
  let! effectsToRun := gets effects_queue in
  modify (with_effects_queue []) >>
  match effectsToRun with
  | [] => ret tt
  | _ :: _ => enqueue (FlushEffects effectsToRun)
  end.

Definition render `{Registry} (fuel : nat) : M unit := λ c,
  match root_container c, root_node c with
  | Some container, Some node =>
      (modify (with_hooks_visited ∅) >>
       let! previous := gets root_instance in
       let! instance := reconcile fuel container previous (Some node) "0" in
       modify (with_root_instance instance) >>
       attach_root fuel container >>
       modify cleanupUnusedHooks >>
       schedule_effects) c
  | _, _ => Ok tt c
  end.

(** One turn of the loop inside the callback that [render] enqueues. *)
Definition run_effect (pc : string * nat) : M unit := λ c,
  let '(path, cursor) := pc in
  match Map_get path (hooks_state c) with
  | None => Ok tt c
  | Some hooks =>
      match hooks !! cursor with
      | Some (EffectSlot effectHook) =>
          let before :=
            match cleanup effectHook with
            | Some fn => [EvCleanup fn]
            | None => []
            end in
          let effectHook' :=
            {| deps := deps effectHook;
               cleanup := effect_returns (effect effectHook);
               effect := effect effectHook |} in
          Ok tt
             (with_trace
                (trace c ++ before ++ [EvEffect (effect_id (effect effectHook))])
                (with_hooks_state
                   (Map_set path (<[cursor := EffectSlot effectHook']> hooks)
                            (hooks_state c)) c))
      | _ => Ok tt c
      end
  end.

(** A callback taken from the microtask queue runs. *)
Definition run_callback `{Registry} (fuel : nat) (callback : Callback)
    : M unit :=
  match callback with
  | RunScheduledRender => modify (with_scheduled false) >> render fuel
  | FlushEffects effectsToRun => forM_ run_effect effectsToRun
  end.

(** The host runs the oldest microtask, if there is one. *)
Definition run_microtask `{Registry} (fuel : nat) : M unit := λ c,
  match microtasks c with
  | [] => Ok tt c
  | callback :: rest =>
      run_callback fuel callback (with_microtasks rest c)
  end.

(** A setter is called [n] times in a row, once per argument. *)
Definition call_setter_each (s : Setter) (args : list SetArg) : M unit :=
  forM_ (setState s) args.

(** [enqueueRender] is called [n] times in a row. *)
Definition enqueueRender_times (n : nat) : M unit :=
  forM_ (λ _, enqueueRender) (seq 0 n).

(* ===================================================================== *)
(** ** Sample programs *)
(* ===================================================================== *)

(** An engine with nothing mounted; the container is DOM node 0. *)
Definition empty_context : Context :=
  {| root_container := Some 0; root_node := None; root_instance := None;
     hooks_state := []; hooks_cursor := ∅; hooks_visited := ∅;
     hooks_componentStack := []; effects_queue := []; scheduled := false;
     microtasks := []; heap := [];
     document := [mkDomNode (Some "div") "" None []]; trace := [] |}.

Definition el (tag : string) (k : Key) (cs : list (option VNode)) : VNode :=
  mkVNode (Host tag) k (mkProps cs None []).

Definition text (s : string) : VNode :=
  mkVNode TEXT_ELEMENT KNull (mkProps [] (Some s) []).

(** Component 0, [Counter]: one state hook, one effect with a cleanup;
    renders a [span].  Component 1, [Toggle]: state hook; renders
    [Counter] under a [div] while its state is not [false].  Any other
    component renders nothing. *)
Definition sample_body (fn : nat) (p : Props) : Comp :=
  match fn with
  | 0 =>
      UseState (InitValue (VNum (Int 0))) (λ v _,
        UseEffect (mkEffectFn 7 (Some 8)) (Some [v])
          (Return (Some (el "span" KNull []))))
  | 1 =>
      UseState (InitThunk (λ _, VBool true)) (λ v _,
        Return (Some (el "div" KNull
          (if bool_decide (v = VBool false) then []
           else [Some (mkVNode (Component 0) KNull (mkProps [] None []))]))))
  | _ => Return None
  end.

(** A name of ASCII letters, digits and the characters [- _ . :], that does
    not start with a digit, [-] or [.]. *)
Definition name_start (ch : Ascii.ascii) : bool :=
  let n := Ascii.nat_of_ascii ch in
  (65 <=? n) && (n <=? 90) || (97 <=? n) && (n <=? 122)
  || (n =? 95) || (n =? 58).

Fixpoint name_rest (s : string) : bool :=
  match s with
  | EmptyString => true
  | String ch rest =>
      let n := Ascii.nat_of_ascii ch in
      (name_start ch || (48 <=? n) && (n <=? 57) || (n =? 45) || (n =? 46))
      && name_rest rest
  end.

Definition ascii_name (s : string) : bool :=
  match s with
  | EmptyString => false
  | String ch rest => name_start ch && name_rest rest
  end.

(** The sample host.  Objects 1 and 2 are functions, object 3 is the style
    [{color: "red"}]; [Object.prototype] has [toString]; the DOM accepts
    the ASCII names; no sample prints a number other than NaN and the
    integers up to 2^53. *)
Definition sample_registry : Registry :=
  {| component_name := λ fn,
       match fn with 0 => "Counter" | 1 => "Toggle" | _ => "" end;
     component_body := sample_body;
     TEXT_ELEMENT_description := Some "text";
     Fragment_description := Some "fragment";
     Number_digits := λ _, "";
     is_function := λ addr, bool_decide (addr = 1 ∨ addr = 2);
     object_keys := λ addr, if decide (addr = 3) then ["color"] else [];
     object_get := λ addr key,
       if decide (addr = 3 ∧ key = "color") then VStr "red" else VUndefined;
     object_has := λ addr key, bool_decide (addr = 3 ∧ key = "color");
     object_String := λ _, "[object Object]";
     prototype_get := λ key,
       if decide (key = "toString") then Some (VObj 0) else None;
     valid_tag_name := ascii_name;
     valid_attribute_name := ascii_name |}.

Definition ul_xy : VNode :=
  el "ul" KNull [Some (el "li" (KStr "x") []); Some (el "li" (KStr "y") [])].

Definition ul_yx : VNode :=
  el "ul" KNull [Some (el "li" (KStr "y") []); Some (el "li" (KStr "x") [])].

(** The state a computation ends in, when it ends without a throw. *)
Definition final_context {A} (r : Res A) : option Context :=
  match r with Ok _ c => Some c | _ => None end.

Definition result_of {A} (r : Res A) : option A :=
  match r with Ok a _ => Some a | _ => None end.

(* ===================================================================== *)
(** ** Vocabulary of the properties *)
(* ===================================================================== *)

#[global] Instance Callback_eq_dec : EqDecision Callback.
Proof. solve_decision. Defined.

(** Two dependency arrays are the same under the shallow comparison: both
    null, or of one length with the same value at every index. *)
Definition deps_same (a b : option (list Val)) : Prop :=
  match a, b with
  | None, None => True
  | Some xs, Some ys =>
      length xs = length ys
      ∧ ∀ i x y, xs !! i = Some x → ys !! i = Some y → Object_is x y = true
  | _, _ => False
  end.

(** The cleanup functions held by the effect hooks of one hook array, in
    order, each as often as a hook holds it. *)
Definition cleanups_of (hooks : list Slot) : list nat :=
  omap (λ s, match s with EffectSlot e => cleanup e | StateSlot _ => None end)
       hooks.

(** The same over the hook arrays of all stored paths that were not
    visited. *)
Definition unvisited_cleanups (c : Context) : list nat :=
  concat ((λ ph : string * list Slot,
             if decide (ph.1 ∈ hooks_visited c) then []
             else cleanups_of ph.2) <$> hooks_state c).

(** The value a state hook starts with. *)
Definition initial_state (i : InitArg) : Val :=
  match i with InitThunk f => f () | InitValue v => v end.

(** What a setter stores for an argument, given the previous value. *)
Definition next_state (arg : SetArg) (prevState : Val) : Val :=
  match arg with Updater f => f prevState | Literal v => v end.

(** Every call of the sequence changes the value it finds. *)
Fixpoint all_changing (prevState : Val) (args : list SetArg) : Prop :=
  match args with
  | [] => True
  | arg :: rest =>
      next_state arg prevState ≠ prevState
      ∧ all_changing (next_state arg prevState) rest
  end.

(** The value the last call of the sequence stores. *)
Definition final_state (prevState : Val) (args : list SetArg) : Val :=
  foldl (λ v arg, next_state arg v) prevState args.

(** The render passes waiting in the microtask queue. *)
Definition pending_renders (c : Context) : nat :=
  length (filter (λ cb, cb = RunScheduledRender) (microtasks c)).

(** The latch is set exactly while one render pass waits. *)
Definition latch_agrees (c : Context) : Prop :=
  pending_renders c = if scheduled c then 1 else 0.

(** The engine state after a request for a render. *)
Definition render_requested (c : Context) : Context :=
  if scheduled c then c
  else with_microtasks (microtasks c ++ [RunScheduledRender])
         (with_scheduled true c).

(** The engine state once the effects of a pass are deferred: the queue is
    empty, and its content, if any, waits in one microtask. *)
Definition effects_deferred (c : Context) : Context :=
  with_microtasks
    (microtasks c
       ++ match effects_queue c with
          | [] => []
          | effectsToRun => [FlushEffects effectsToRun]
          end)
    (with_effects_queue [] c).

(** Events by kind.  A patch writes to a DOM node that exists. *)
Definition is_patch (ev : Event) : bool :=
  match ev with
  | EvUpdateDomProps _ _ _ | EvSetNodeValue _ _ => true
  | _ => false
  end.

Definition is_hook_call (ev : Event) : bool :=
  match ev with
  | EvCleanup _ | EvEffect _ => true
  | _ => false
  end.

(** Creating, placing and removing DOM nodes. *)
Definition structural (ev : Event) : bool :=
  negb (is_patch ev) && negb (is_hook_call ev).

(** Any DOM operation. *)
Definition dom_event (ev : Event) : bool := negb (is_hook_call ev).


(** The Instances of [h] are in [h'], each with the kind, DOM node and key
    it had, and with a VNode of the type and key it had. *)
Definition identity_kept (h h' : list Inst) : Prop :=
  ∀ i inst, h !! i = Some inst →
    ∃ inst', h' !! i = Some inst'
      ∧ inst_kind inst' = inst_kind inst
      ∧ inst_dom inst' = inst_dom inst
      ∧ inst_key inst' = inst_key inst
      ∧ type (inst_node inst') = type (inst_node inst)
      ∧ key (inst_node inst') = key (inst_node inst).

(** The Instances of [h] are in [h'], unchanged but for their children. *)
Definition rest_kept (h h' : list Inst) : Prop :=
  ∀ i inst, h !! i = Some inst →
    ∃ inst', h' !! i = Some inst'
      ∧ set_children (inst_children inst) inst' = inst.

(** The trace of [c'] is that of [c] followed by events of kind [p]. *)
Definition trace_grows (p : Event → bool) (c c' : Context) : Prop :=
  ∃ evs, trace c' = trace c ++ evs ∧ Forall (λ ev, p ev = true) evs.

(** From [c] to [c']: the heap changes within [H], and the trace grows by
    events of kind [p]. *)
Definition steps (H : relation (list Inst)) (p : Event → bool)
    : relation Context := λ c c',
  H (heap c) (heap c') ∧ trace_grows p c c'.

(** Every run of [m] that returns is within [R]. *)
Definition keeps {A} (R : relation Context) (m : M A) : Prop :=
  ∀ c a c', m c = Ok a c' → R c c'.

(** What any reconciliation keeps, and what a fresh mount keeps. *)
Definition general : relation Context := steps identity_kept dom_event.

Definition fresh : relation Context := steps rest_kept structural.

(** [update] is called on an Instance of the type and key of the node. *)
Definition update_pre (instance : nat) (node : VNode) (c : Context) : Prop :=
  ∀ inst, heap c !! instance = Some inst →
    type (inst_node inst) = type node ∧ key (inst_node inst) = key node.

(** The Instance has no children. *)
Definition childless (instance : nat) (c : Context) : Prop :=
  ∀ inst, heap c !! instance = Some inst → inst_children inst = [].

(** The kind of Instance that [mount] builds for a type. *)
Definition kind_of (t : NodeType) : NodeKind :=
  match t with
  | TEXT_ELEMENT => TEXT
  | Fragment => FRAGMENT
  | Component _ => COMPONENT
  | Host _ => HOST
  end.

(** [instance.node.type !== node.type || instance.node.key !== node.key] *)
Definition type_or_key_differs (old : VNode) (node : VNode) : bool :=
  negb (type_strict_eq (type old) (type node))
  || negb (key_strict_eq (key old) (key node)).

(** An entry of a child list that is rendered. *)
Definition is_rendered (s : option VNode) : bool := negb (isEmptyValue s).

(** The DOM accepts what the mount of [n] itself asks of it: the tag of a
    host node is a valid name for [document.createElement], and no
    [setAttribute] call of [setDomProps] on its props is refused. *)
Definition host_accepted `{Registry} (n : VNode) : Prop :=
  match type n with
  | Host tag =>
      valid_tag_name tag = true
      ∧ forallb call_accepted (setDomProps_calls (attrs (props n))) = true
  | _ => True
  end.

(** A VNode tree of depth at most [d] without any component, whose tags
    and attribute names the DOM accepts. *)
Fixpoint host_tree `{Registry} (d : nat) (n : VNode) : Prop :=
  match d with
  | 0 => False
  | S d =>
      (∀ fn, type n ≠ Component fn)
      ∧ host_accepted n
      ∧ Forall (λ c, match c with Some ch => host_tree d ch | None => True end)
               (children (props n))
  end.

(** The Instances below address [i], to depth [d], are in the heap [h] at
    addresses from [b] on, and their DOM nodes are among the first [ndoc]
    of the document. *)
Fixpoint subtree_ok (d b : nat) (h : list Inst) (ndoc : nat) (i : nat)
    : Prop :=
  match d with
  | 0 => False
  | S d =>
      b ≤ i
      ∧ ∃ inst, h !! i = Some inst
          ∧ (∀ x, inst_dom inst = Some x → x < ndoc)
          ∧ Forall (subtree_ok d b h ndoc) (inst_children inst)
  end.

(** The run returns, and leaves the heap and the size of the document as
    they are. *)
Definition returns_in_place (m : M unit) (c : Context) : Prop :=
  ∃ c', m c = Ok tt c' ∧ heap c' = heap c
        ∧ length (document c') = length (document c).

(** What a mount from [c] leaves in [c']: the heap of [c] with new
    Instances after it, a document that has not shrunk, and a well-formed
    subtree of new Instances under [m]. *)
Definition mounted_ok (d : nat) (c c' : Context) (m : nat) : Prop :=
  (∃ more, heap c' = heap c ++ more)
  ∧ length (document c) ≤ length (document c')
  ∧ subtree_ok d (length (heap c)) (heap c') (length (document c')) m.

(** [mount] returns on every tree of depth [d] without components, given
    three units of fuel for each level. *)
Definition mount_returns `{Registry} (d : nat) : Prop :=
  ∀ node, host_tree d node →
  ∀ fuel parentDom path c, 3 * d ≤ fuel →
  ∃ m c', mount fuel parentDom node path c = Ok m c' ∧ mounted_ok d c c' m.

(** The state a computation ends in, or the empty engine. *)
Definition context_after {A} (r : Res A) : Context :=
  default empty_context (final_context r).

(** The sample [Toggle] at the root: a first pass mounts [Counter] under
    it; the setter of [Toggle] then stores [false], the effect flush and
    the scheduled pass run, and [Counter] is gone. *)
Definition toggle_root : VNode :=
  mkVNode (Component 1) KNull (mkProps [] None []).

Definition counter_path : string := "0.cdiv_0.cCounter_0".

Definition toggle_context : Context :=
  with_root_node (Some toggle_root) empty_context.

Definition counter_mounted : option Context :=
  final_context (render (H := sample_registry) 20 toggle_context).

Definition counter_unmounted : option Context :=
  c1 ← counter_mounted;
  final_context
    ((setState (mkSetter "0" 0) (Literal (VBool false)) >>
      run_microtask (H := sample_registry) 20 >>
      run_microtask (H := sample_registry) 20) c1).

(** A component at path "0" with one state slot. *)
Definition state_context : Context :=
  with_hooks_state [("0", [StateSlot (VNum (Int 1))])] empty_context.

(** A component at path "0" that is being rendered again, with one effect
    slot. *)
Definition effect_revisit_context : Context :=
  with_hooks_componentStack ["0"]
    (with_hooks_state
       [("0", [EffectSlot {| deps := Some [VNum (Int 1)]; cleanup := Some 8;
                             effect := mkEffectFn 7 (Some 8) |}])]
       empty_context).

(** The hook state of two components, of which only "0" was visited. *)
Definition gc_context : Context :=
  with_hooks_cursor {["0" := 1; "0.cA_0" := 2]}
    (with_hooks_visited {["0"]}
       (with_hooks_state
          [("0", [EffectSlot {| deps := None; cleanup := Some 8;
                                effect := mkEffectFn 7 (Some 8) |}]);
           ("0.cA_0",
            [EffectSlot {| deps := None; cleanup := Some 9;
                           effect := mkEffectFn 5 (Some 9) |};
             StateSlot (VStr "s");
             EffectSlot {| deps := Some []; cleanup := None;
                           effect := mkEffectFn 6 None |}])]
          empty_context)).

(** A [span] with key "a", mounted, and the [div] that replaces it. *)
Definition span_a : VNode := el "span" (KStr "a") [].
Definition div_a : VNode := el "div" (KStr "a") [].

Definition span_mounted : Context :=
  context_after
    (reconcile (H := sample_registry) 10 0 None (Some span_a) "0"
               empty_context).

Definition span_instance : Inst :=
  {| inst_kind := HOST; inst_dom := Some 1; inst_node := span_a;
     inst_children := []; inst_key := KStr "a"; inst_path := "0" |}.

Definition div_mounted : Context :=
  context_after
    (reconcile (H := sample_registry) 10 0 (Some 0) (Some div_a) "0"
               span_mounted).

(** The list [x, y] under a [ul], mounted. *)
Definition xy_mounted : Context :=
  context_after
    (reconcile (H := sample_registry) 10 0 None (Some ul_xy) "0"
               empty_context).

Definition ul_instance : Inst :=
  {| inst_kind := HOST; inst_dom := Some 1; inst_node := ul_xy;
     inst_children := [1; 2]; inst_key := KNull; inst_path := "0" |}.

Definition li_x_instance : Inst :=
  {| inst_kind := HOST; inst_dom := Some 2;
     inst_node := el "li" (KStr "x") []; inst_children := [];
     inst_key := KStr "x"; inst_path := "0.kx" |}.

Definition yx_reconciled : Context :=
  context_after
    (reconcileChildren (H := sample_registry) 10 0 0
                       (children (props ul_yx)) "0" xy_mounted).

(** Two lists under a [ul] in which one child has the key 0. *)
Definition ul_0a : VNode :=
  el "ul" KNull
     [Some (el "li" (KNum (Int 0)) []); Some (el "li" (KStr "a") [])].

Definition ul_a0 : VNode :=
  el "ul" KNull
     [Some (el "li" (KStr "a") []); Some (el "li" (KNum (Int 0)) [])].

Definition falsy_mounted : Context :=
  context_after
    (reconcile (H := sample_registry) 10 0 None (Some ul_0a) "0"
               empty_context).

Definition falsy_reconciled : Context :=
  context_after
    (reconcile (H := sample_registry) 10 0 (Some 0) (Some ul_a0) "0"
               falsy_mounted).

(** The list [y, x] reconciled against the mounted [x, y], through the
    [ul]. *)
Definition yx_swapped : Context :=
  context_after
    (reconcile (H := sample_registry) 10 0 (Some 0) (Some ul_yx) "0"
               xy_mounted).

(* ===================================================================== *)
(** ** The JSX factory ([core/elements.ts], createElement) *)
(* ===================================================================== *)

(** What JSX hands over as a child: null, undefined, a boolean, a string,
    a number, an object with a [type] property (a VNode), an array of
    children, or anything else (an object without [type], a function, a
    symbol). *)
Inductive RawChild : Type :=
| RNull
| RUndefined
| RBool (b : bool)
| RStr (s : string)
| RNum (n : Num)
| RNode (n : VNode)
| RArr (items : list RawChild)
| ROther.

(** The argument of [createTextElement]: a string or a number. *)
Inductive Primitive : Type :=
| PStr (s : string)
| PNum (n : Num).

(** [String(node)] on a string or a number. *)
Definition String_of `{Registry} (node : Primitive) : string :=
  match node with
  | PStr s => s
  | PNum n => Number_toString n
  end.

(** [createTextElement(node)]. *)
Definition createTextElement `{Registry} (node : Primitive) : VNode :=
  mkVNode TEXT_ELEMENT KNull (mkProps [] (Some (String_of node)) []).

(** What [normalizeNode] returns when it is not null: a VNode, or the
    array it was given. *)
Inductive Normalized : Type :=
| NNode (n : VNode)
| NArray (items : list RawChild).

(** [normalizeNode(node)]. *)
Definition normalizeNode `{Registry} (node : RawChild) : option Normalized :=
  match node with
  | RNull | RUndefined | RBool _ => None
  | RArr items => Some (NArray items)
  | RNode n => Some (NNode n)
  | RStr s => Some (NNode (createTextElement (PStr s)))
  | RNum n => Some (NNode (createTextElement (PNum n)))
  | ROther => None
  end.

(** One element of [rawChildren.flat(Infinity)]. *)
Fixpoint flat (r : RawChild) : list RawChild :=
  match r with
  | RArr items => concat (map flat items)
  | _ => [r]
  end.

(** [originProps]: the [key], when it is there and not undefined, and the
    other properties. *)
Record OriginProps : Type := mkOriginProps {
  origin_key : option Key;
  origin_rest : Props
}.

Module Elements.

(** [createElement(type, originProps, ...rawChildren)].  After
    [flat(Infinity)] no child is an array, so that [normalizeNode] does
    not return one here (see [flat_no_array]). *)
Definition createElement `{Registry} (type : NodeType)
    (originProps : option OriginProps)
    (rawChildren : list RawChild) : VNode :=
  let key := match originProps with
             | Some o => default KNull (origin_key o)
             | None => KNull
             end in
  let props := match originProps with
               | Some o => origin_rest o
               | None => mkProps [] None []
               end in
  let flatChildren := concat (map flat rawChildren) in
  let children :=
    omap (λ child, match normalizeNode child with
                   | Some (NNode n) => Some n
                   | _ => None
                   end) flatChildren in
  let normalizedKey := key in
  let nodeProps :=
    if decide (0 < length children)
    then mkProps (Some <$> children) (nodeValue props) (attrs props)
    else props in
  mkVNode type normalizedKey nodeProps.

End Elements.

(** The VNodes that the children of an element stand for, in order: text
    nodes for strings and numbers, the VNodes themselves, those of the
    items of an array; nothing for the other values. *)
Fixpoint leaves `{Registry} (r : RawChild) : list VNode :=
  match r with
  | RArr items => concat (map leaves items)
  | RNode n => [n]
  | RStr s => [createTextElement (PStr s)]
  | RNum n => [createTextElement (PNum n)]
  | RNull | RUndefined | RBool _ | ROther => []
  end.

(** A value that is not rendered and is no array. *)
Definition is_omitted (r : RawChild) : bool :=
  match r with
  | RNull | RUndefined | RBool _ | ROther => true
  | _ => false
  end.

Definition is_array (r : RawChild) : bool :=
  match r with RArr _ => true | _ => false end.

(* ===================================================================== *)
(** ** Equality of values ([utils/equals.ts]) *)
(* ===================================================================== *)

(** A JavaScript value as the two comparisons see it: a primitive, a
    function, an array with its items, or another object with its own
    properties: the enumerable ones in the order of [Object.keys], and
    the ones that are not enumerable (the [message] of an Error, for
    one), which [Object.keys] leaves out and [hasOwnProperty] finds.
    Functions, arrays and objects have an identity, their address; an
    object has no key twice (see [keys_unique]).  Properties with a
    getter are left out. *)
Inductive JsValue : Type :=
| JUndefined
| JNull
| JBool (b : bool)
| JNum (n : Num)
| JStr (s : string)
| JFun (addr : nat)
| JArr (addr : nat) (items : list JsValue)
| JObj (addr : nat) (entries : list (string * JsValue))
       (hidden : list (string * JsValue)).

Module Equals.

(** [Object.is(a, b)]. *)
Definition Object_is (a b : JsValue) : bool :=
  match a, b with
  | JUndefined, JUndefined => true
  | JNull, JNull => true
  | JBool x, JBool y => bool_decide (x = y)
  | JNum x, JNum y => bool_decide (x = y)
  | JStr x, JStr y => bool_decide (x = y)
  | JFun x, JFun y => bool_decide (x = y)
  | JArr x _, JArr y _ => bool_decide (x = y)
  | JObj x _ _, JObj y _ _ => bool_decide (x = y)
  | _, _ => false
  end.

(** [hasOwnProperty.call(obj, key)] with [obj[key]]: the own property
    [key] of the object, enumerable or not. *)
Definition own (key : string) (entries hidden : list (string * JsValue))
    : option JsValue :=
  match Map_get key entries with
  | Some v => Some v
  | None => Map_get key hidden
  end.

(** [shallowEquals(a, b)]. *)
Definition shallowEquals (a b : JsValue) : bool :=
  if Object_is a b then true
  else
    match a, b with
    | JArr _ xs, JArr _ ys =>
        if decide (length xs ≠ length ys) then false
        else
          (fix loop (xs ys : list JsValue) : bool :=
             match xs, ys with
             | x :: xs', y :: ys' =>
                 if Object_is x y then loop xs' ys' else false
             | _, _ => true
             end) xs ys
    | JArr _ _, JObj _ _ _ | JObj _ _ _, JArr _ _ => false
    | JObj _ ea _, JObj _ eb hb =>
        if decide (length ea ≠ length eb) then false
        else
          (fix loop (keysA : list (string * JsValue)) : bool :=
             match keysA with
             | (key, va) :: rest =>
                 match own key eb hb with
                 | Some vb => if Object_is va vb then loop rest else false
                 | None => false
                 end
             | [] => true
             end) ea
    | _, _ => false
    end.

(** [deepEquals(a, b)]. *)
Fixpoint deepEquals (a b : JsValue) {struct a} : bool :=
  if Object_is a b then true
  else
    match a, b with
    | JArr _ xs, JArr _ ys =>
        if decide (length xs ≠ length ys) then false
        else
          (fix loop (xs ys : list JsValue) : bool :=
             match xs, ys with
             | x :: xs', y :: ys' =>
                 if deepEquals x y then loop xs' ys' else false
             | _, _ => true
             end) xs ys
    | JArr _ _, JObj _ _ _ | JObj _ _ _, JArr _ _ => false
    | JObj _ ea _, JObj _ eb hb =>
        if decide (length ea ≠ length eb) then false
        else
          (fix loop (keysA : list (string * JsValue)) : bool :=
             match keysA with
             | (key, va) :: rest =>
                 match own key eb hb with
                 | Some vb => if deepEquals va vb then loop rest else false
                 | None => false
                 end
             | [] => true
             end) ea
    | _, _ => false
    end.

End Equals.

(** No object of the value has a key twice among its enumerable
    properties. *)
Fixpoint keys_unique (v : JsValue) : Prop :=
  match v with
  | JArr _ items =>
      (fix all (l : list JsValue) : Prop :=
         match l with [] => True | x :: l' => keys_unique x ∧ all l' end) items
  | JObj _ entries _ =>
      NoDup entries.*1
      ∧ (fix all (l : list (string * JsValue)) : Prop :=
           match l with
           | [] => True
           | (_, x) :: l' => keys_unique x ∧ all l'
           end) entries
  | _ => True
  end.

(** Every own property of every object of the value is enumerable. *)
Fixpoint no_hidden (v : JsValue) : Prop :=
  match v with
  | JArr _ items =>
      (fix all (l : list JsValue) : Prop :=
         match l with [] => True | x :: l' => no_hidden x ∧ all l' end) items
  | JObj _ entries hidden =>
      hidden = []
      ∧ (fix all (l : list (string * JsValue)) : Prop :=
           match l with
           | [] => True
           | (_, x) :: l' => no_hidden x ∧ all l'
           end) entries
  | _ => True
  end.

(** The value without the addresses of its arrays and objects, and
    without the properties that are not enumerable. *)
Fixpoint shape (v : JsValue) : JsValue :=
  match v with
  | JArr _ items => JArr 0 (map shape items)
  | JObj _ entries _ =>
      JObj 0 ((fix each (l : list (string * JsValue)) :=
                 match l with
                 | [] => []
                 | (key, x) :: l' => (key, shape x) :: each l'
                 end) entries) []
  | _ => v
  end.

(* ===================================================================== *)
(** ** The root ([core/setup.ts]; [context.root.reset] and
       [context.hooks.clear] of [core/context.ts]) *)
(* ===================================================================== *)

(** What [setup] throws before it touches the engine. *)
Inductive SetupError : Type :=
| ContainerRequired     (* "Container element is required" *)
| RootCannotBeNull.     (* "Root element cannot be null" *)

(** [container.removeChild(child)]: throws when [child] is not a child of
    [container]. *)
Definition removeChild_of (container child : nat) : M unit :=
  let! n := dom_get child in
  if decide (dom_parentNode n = Some container) then
    detach child >> emit [EvRemoveChild container child]
  else throw NotFoundError.

(** [while (container.firstChild) container.removeChild(container.firstChild)]. *)
Fixpoint removeChildren (fuel : nat) (container : nat) : M unit :=
  match fuel with
  | 0 => halt OutOfFuel
  | S fuel =>
      let! n := dom_get container in
      match dom_childNodes n with
      | [] => ret tt
      | firstChild :: _ =>
          removeChild_of container firstChild >>
          removeChildren fuel container
      end
  end.

(** [context.root.reset({ container, node })]. *)
Definition root_reset (container : nat) (node : VNode) : M unit :=
  modify (λ c, with_root_instance None
                 (with_root_node (Some node)
                    (with_root_container (Some container) c))).

(** [context.hooks.clear()]. *)
Definition hooks_clear : M unit :=
  modify (λ c, with_hooks_componentStack []
                 (with_hooks_visited ∅
                    (with_hooks_cursor ∅ (with_hooks_state [] c)))).

(** [setup(rootNode, container)].  The assignment to
    [context.scheduleRender] is left out: nothing reads that property, the
    setters call [enqueueRender] itself. *)
Definition setup `{Registry} (fuel : nat) (rootNode : option VNode)
    (container : option nat) (c : Context) : SetupError + Res unit :=
  match container with
  | None => inl ContainerRequired
  | Some container =>
      match rootNode with
      | None => inl RootCannotBeNull
      | Some rootNode =>
          inr ((let! instance := gets root_instance in
                match instance with
                | Some _ => removeInstance fuel instance
                | None => ret tt
                end >>
                removeChildren fuel container >>
                root_reset container rootNode >>
                hooks_clear >>
                modify cleanupUnusedHooks >>
                render fuel) c)
      end
  end.

(* ===================================================================== *)
(** ** Vocabulary of the properties of the DOM operations, the flush and
       the engine *)
(* ===================================================================== *)

(** The DOM node has no parent. *)
Definition detached (doc : list DomNode) (d : nat) : Prop :=
  ∃ n, doc !! d = Some n ∧ dom_parentNode n = None.

(** The DOM node [d] is not among the children of [p]. *)
Definition not_child_of (doc : list DomNode) (p d : nat) : Prop :=
  ∀ pn, doc !! p = Some pn → d ∉ dom_childNodes pn.

(** From [c] to [c'] only the document and the trace have changed. *)
Definition dom_only (c c' : Context) : Prop :=
  ∃ doc tr, c' = with_trace tr (with_document doc c).

(** [removeChild] calls only. *)
Definition is_removal (ev : Event) : bool :=
  match ev with EvRemoveChild _ _ => true | _ => false end.

(** From [c] to [c'] only the document and the trace have changed, and the
    trace by events of kind [p].  *)
Definition dom_steps (p : Event → bool) (c c' : Context) : Prop :=
  ∃ doc evs, c' = with_trace (trace c ++ evs) (with_document doc c)
             ∧ Forall (λ ev, p ev = true) evs.

(** From [doc] to [doc'] nodes have only left their parents: no child list
    has gained a node, and a node has the parent it had or, having left
    it, none. *)
Definition only_removes (doc doc' : list DomNode) : Prop :=
  (∀ p d, not_child_of doc p d → not_child_of doc' p d)
  ∧ (∀ y n, doc !! y = Some n →
       ∃ n', doc' !! y = Some n'
         ∧ (dom_parentNode n' = dom_parentNode n
            ∨ (dom_parentNode n' = None
               ∧ ∀ p, dom_parentNode n = Some p → not_child_of doc' p y))).

(** What an unmount does to the engine. *)
Definition unmounts (c c' : Context) : Prop :=
  dom_steps is_removal c c' ∧ only_removes (document c) (document c').

(** [appendChild] calls only. *)
Definition is_append (ev : Event) : bool :=
  match ev with EvAppendChild _ _ => true | _ => false end.

(** A slot after the flush of [queue]: an effect slot at a queued place
    holds the cleanup its effect returns. *)
Definition flushed (queue : list (string * nat)) (path : string) (i : nat)
    (slot : Slot) : Slot :=
  match slot with
  | EffectSlot e =>
      EffectSlot {| deps := deps e;
                    cleanup := if decide ((path, i) ∈ queue)
                               then effect_returns (effect e)
                               else cleanup e;
                    effect := effect e |}
  | StateSlot v => StateSlot v
  end.

(** From [c] to [c'] only the hook arrays and the trace have changed, the
    trace by calls of cleanup and effect functions. *)
Definition hook_steps (c c' : Context) : Prop :=
  ∃ state evs,
    c' = with_trace (trace c ++ evs) (with_hooks_state state c)
    ∧ Forall (λ ev, is_hook_call ev = true) evs.

(** From [c] to [c'] only the Instances, the document and the trace have
    changed. *)
Definition store_only (c c' : Context) : Prop :=
  ∃ h doc tr, c' = with_trace tr (with_document doc (with_heap h c)).

(** Every path that has hook state, and every component that is being
    rendered, was visited in this pass. *)
Definition hook_paths_visited (c : Context) : Prop :=
  (∀ path, path ∈ Map_keys (hooks_state c) → path ∈ hooks_visited c)
  ∧ (∀ path, path ∈ hooks_componentStack c → path ∈ hooks_visited c).

(** From [c] to [c'] the root is as it was, paths have only been added to
    the visited ones, entries only appended to the effect queue and to the
    microtask queue, and hook state has only been made for visited
    paths. *)
Definition engine_kept (c c' : Context) : Prop :=
  root_container c' = root_container c
  ∧ root_node c' = root_node c
  ∧ root_instance c' = root_instance c
  ∧ hooks_visited c ⊆ hooks_visited c'
  ∧ (∃ more, effects_queue c' = effects_queue c ++ more)
  ∧ (∃ more, microtasks c' = microtasks c ++ more)
  ∧ (hook_paths_visited c → hook_paths_visited c').

(** The same, with the component stack as it was. *)
Definition reconciler_pass (c c' : Context) : Prop :=
  engine_kept c c' ∧ hooks_componentStack c' = hooks_componentStack c.

(* ===================================================================== *)
(** ** The DOM that a tree without components stands for *)
(* ===================================================================== *)


(** The DOM nodes that a list of children stands for, given those that a
    child stands for: the records in document order, the first of them at
    address [lo], and the addresses of the top ones. *)
Definition layout_children
    (layout : option nat → nat → VNode → list DomNode * list nat)
    (parent : option nat) : list (option VNode) → nat →
    list DomNode * list nat :=
  fix go (cs : list (option VNode)) (lo : nat) :=
    match cs with
    | [] => ([], [])
    | None :: cs' => go cs' lo
    | Some ch :: cs' =>
        let first := layout parent lo ch in
        let rest := go cs' (lo + length first.1) in
        (first.1 ++ rest.1, first.2 ++ rest.2)
    end.

(** The DOM nodes that a VNode tree of depth at most [d] without
    components stands for, under [parent]: an element for a host node,
    with the nodes of its children below it, a text node for a text, and
    for a fragment the nodes of its children. *)
Fixpoint layout (d : nat) (parent : option nat) (lo : nat) (n : VNode)
    : list DomNode * list nat :=
  match d with
  | 0 => ([], [])
  | S d =>
      match type n with
      | TEXT_ELEMENT =>
          ([mkDomNode None (default "" (nodeValue (props n))) parent []],
           [lo])
      | Host tag =>
          let below :=
            layout_children (layout d) (Some lo) (children (props n))
                            (S lo) in
          (mkDomNode (Some tag) "" parent below.2 :: below.1, [lo])
      | Fragment =>
          layout_children (layout d) parent (children (props n)) lo
      | Component _ => ([], [])
      end
  end.







(* ===================================================================== *)
(** ** More sample programs *)
(* ===================================================================== *)

(** A fragment of a [span] and a text, mounted under the container, and
    its DOM nodes inserted once more. *)
Definition frag_ab : VNode :=
  mkVNode Fragment KNull
          (mkProps [Some (el "span" KNull []); Some (text "b")] None []).

Definition frag_mounted : Context :=
  context_after
    (reconcile (H := sample_registry) 10 0 None (Some frag_ab) "0"
               empty_context).

Definition frag_inserted : Context :=
  context_after (insertInstance 10 0 (Some 0) None frag_mounted).

Definition container_ab : DomNode :=
  {| dom_tag := Some "div"; dom_nodeValue := ""; dom_parentNode := None;
     dom_childNodes := [1; 2] |}.

(** The list [x, y] rendered at the root, and unmounted. *)
Definition xy_context : Context := with_root_node (Some ul_xy) empty_context.

Definition xy_rendered : Context :=
  context_after (render (H := sample_registry) 20 xy_context).

Definition xy_unmounted : Context :=
  context_after (unmount 10 0 xy_rendered).

(** A component at path "0" with one state slot, rendered again; and the
    same after its setter has stored 2. *)
Definition state_revisit_context : Context :=
  with_hooks_componentStack ["0"] state_context.

Definition state_set_context : Context :=
  context_after
    (setState (mkSetter "0" 0) (Literal (VNum (Int 2))) state_context).

(** A component at path "0" that is rendered for the first time. *)
Definition first_visit_context : Context :=
  with_hooks_componentStack ["0"] empty_context.

(** The sample [Toggle], mounted. *)
Definition toggle_mounted : Context :=
  context_after
    (reconcile (H := sample_registry) 20 0 None (Some toggle_root) "0"
               empty_context).

(** The sample [Toggle] rendered at the root, the effect of [Counter]
    flushed and a render requested by the setter of [Toggle]; and a second
    [setup] of the same container with the list [x, y]. *)
Definition toggle_rendered : Context :=
  context_after
    ((run_microtask (H := sample_registry) 20 >>
      setState (mkSetter "0" 0) (Literal (VBool false)))
       (default empty_context counter_mounted)).

Definition setup_again : Context :=
  match setup (H := sample_registry) 20 (Some ul_xy) (Some 0)
              toggle_rendered with
  | inr r => context_after r
  | inl _ => empty_context
  end.

(** Two objects of the same shape at different addresses, the second with
    a property that is not enumerable; and the first one again, at a
    third address, with its keys in another order. *)
Definition point_a : JsValue :=
  JObj 1 [("x", JNum (Int 1)); ("y", JArr 2 [JStr "s"])] [].

Definition point_b : JsValue :=
  JObj 3 [("x", JNum (Int 1)); ("y", JArr 4 [JStr "s"])]
         [("tag", JStr "t")].

Definition point_c : JsValue :=
  JObj 5 [("y", JArr 6 [JStr "s"]); ("x", JNum (Int 1))] [].

Definition props_before : list (string * Val) :=
  [("id", VStr "a"); ("className", VStr "x"); ("onClick", VObj 1);
   ("readOnly", VBool true); ("style", VObj 3); ("children", VObj 9)].

Definition props_after : list (string * Val) :=
  [("id", VStr "b"); ("class", VStr "y"); ("onClick", VObj 2);
   ("title", VStr "t"); ("children", VObj 9)].

Definition attributes_before : gmap string string :=
  default ∅ (attributes_after (H := sample_registry)
               (setDomProps_calls (H := sample_registry) props_before) ∅).

Definition attributes_expected : gmap string string :=
  default ∅ (attributes_after (H := sample_registry)
               (setDomProps_calls (H := sample_registry) props_after) ∅).

Definition props_nan : list (string * Val) :=
  [("id", VStr "a"); ("width", VNum NaN)].


(** The list [a, b] under a [ul], mounted; and a [ul] in which a [div]
    has the key "b" and comes first. *)
Definition ul_ab : VNode :=
  el "ul" KNull [Some (el "li" (KStr "a") []); Some (el "li" (KStr "b") [])].

Definition ul_div_b_a : VNode :=
  el "ul" KNull [Some (el "div" (KStr "b") []); Some (el "li" (KStr "a") [])].

Definition ab_mounted : Context :=
  context_after
    (reconcile (H := sample_registry) 10 0 None (Some ul_ab) "0"
               empty_context).

(* ===================================================================== *)
(** * Properties *)
(* ===================================================================== *)

(** ** The monad *)

Lemma bind_Ok {A B} (m : M A) (f : A → M B) c b c' :
  bind m f c = Ok b c' ↔ ∃ a c1, m c = Ok a c1 ∧ f a c1 = Ok b c'.
Proof.
  unfold bind. split.
  - destruct (m c) as [a c1| |] eqn:E; try discriminate. eauto.
  - intros (a & c1 & -> & ?). done.
Qed.

(** ** Maps in insertion order *)

Section MapFacts.
Context {K V : Type} `{EqDecision K}.
Implicit Types (m : list (K * V)) (k : K) (v : V).

Lemma Map_get_set_eq m k v : Map_get k (Map_set k v m) = Some v.
Proof.
  induction m as [|[k' v'] m IH]; simpl.
  - by rewrite decide_True.
  - destruct (decide (k = k')) as [->|Hne]; simpl.
    + by rewrite decide_True.
    + by rewrite decide_False.
Qed.

Lemma Map_get_set_ne m k k' v :
  k' ≠ k → Map_get k' (Map_set k v m) = Map_get k' m.
Proof.
  intros Hne. induction m as [|[k0 v0] m IH]; simpl.
  - by rewrite decide_False.
  - destruct (decide (k = k0)) as [->|Hk]; simpl.
    + by rewrite !decide_False.
    + destruct (decide (k' = k0)); [done|apply IH].
Qed.

Lemma Map_get_delete_eq m k : Map_get k (Map_delete k m) = None.
Proof.
  induction m as [|[k0 v0] m IH]; simpl; [done|].
  destruct (decide (k = k0)) as [->|Hk]; simpl; [done|].
  by rewrite decide_False.
Qed.

Lemma Map_get_delete_ne m k k' :
  k' ≠ k → Map_get k' (Map_delete k m) = Map_get k' m.
Proof.
  intros Hne. induction m as [|[k0 v0] m IH]; simpl; [done|].
  destruct (decide (k = k0)) as [->|Hk]; simpl.
  - by rewrite decide_False.
  - destruct (decide (k' = k0)); [done|apply IH].
Qed.

Lemma Map_get_None m k : Map_get k m = None ↔ k ∉ Map_keys m.
Proof.
  unfold Map_keys. induction m as [|[k0 v0] m IH]; simpl.
  - split; [intros _; apply not_elem_of_nil|done].
  - rewrite not_elem_of_cons. destruct (decide (k = k0)); naive_solver.
Qed.

Lemma Map_set_set m k v w : Map_set k v (Map_set k w m) = Map_set k v m.
Proof.
  induction m as [|[k0 v0] m IH]; simpl.
  - by rewrite decide_True.
  - destruct (decide (k = k0)) as [->|Hk]; simpl.
    + by rewrite decide_True.
    + rewrite decide_False by done. by rewrite IH.
Qed.

End MapFacts.

(** ** Identity paths *)

Lemma typeIndex_count siblings t index :
  typeIndex siblings t index = count_before (is_of_type t) siblings index.
Proof.
  unfold typeIndex, count_before.
  induction index as [|n IH].
  - by rewrite take_0.
  - rewrite seq_S, foldl_app. simpl. rewrite IH. clear IH.
    unfold sibling_has_type.
    destruct (siblings !! n) as [s|] eqn:E.
    + rewrite (take_S_r _ _ _ E), filter_app, length_app.
      rewrite filter_cons, filter_nil.
      destruct s as [v|]; unfold is_of_type, type_strict_eq.
      * destruct (bool_decide (type v = t)) eqn:Eb.
        -- rewrite decide_True by done. simpl. lia.
        -- rewrite decide_False by done. simpl. lia.
      * rewrite decide_False by done. simpl. lia.
    + apply lookup_ge_None in E. by rewrite !take_ge by lia.
Qed.

(** C3, as the code has it: a child with a key gets
    [parentPath + ".k" + String(key)]; a child without a key gets
    [parentPath + ".c" + typeName + "_" + ordinal] when its type is truthy
    and the siblings are given, where the ordinal counts every sibling of
    the same type before it, with or without a key; otherwise it gets
    [parentPath + ".i" + index].  The path is a function of the
    arguments. *)
Theorem createChildPath_rule `{Registry} (parentPath : string) (k : Key)
    (index : nat) (nodeType : option NodeType)
    (siblings : option (list (option VNode))) :
  createChildPath parentPath k index nodeType siblings =
    match k with
    | KNull =>
        match nodeType, siblings with
        | Some t, Some sibs =>
            if type_truthy t then
              parentPath +:+ ".c" +:+ typeName t +:+ "_"
                +:+ pretty (count_before (is_of_type t) sibs index)
            else parentPath +:+ ".i" +:+ pretty index
        | _, _ => parentPath +:+ ".i" +:+ pretty index
        end
    | _ => parentPath +:+ ".k" +:+ key_to_string k
    end.
Proof.
  unfold createChildPath.
  destruct k; simpl; try done.
  destruct nodeType as [t|], siblings as [sibs|]; try done.
  by rewrite typeIndex_count.
Qed.

(** C3 as worded fails: the second of two [li], the first of which has
    a key, gets the ordinal 1 from the code and the ordinal 0 from the
    count of keyless siblings. *)
Lemma createChildPath_counts_keyed_siblings :
  let sibs := [Some (el "li" (KStr "a") []); Some (el "li" KNull [])] in
  createChildPath (H := sample_registry) "0" KNull 1 (Some (Host "li"))
                  (Some sibs) = "0.cli_1"
  ∧ createChildPath_spec (H := sample_registry) "0" KNull 1 (Some (Host "li"))
                  (Some sibs) = "0.cli_0"
  ∧ createChildPath (H := sample_registry) "0" KNull 1 (Some (Host "li"))
                  (Some sibs)
    ≠ createChildPath_spec (H := sample_registry) "0" KNull 1
                  (Some (Host "li")) (Some sibs).
Proof. vm_compute. split_and!; [done|done|discriminate]. Qed.

Ltac run :=
  unfold useState, useEffect, setState, enqueueRender, withEnqueue, enqueue,
         currentCursor, currentHooks, currentPath, push_hook, set_cursor,
         read_state, bind, ret, gets, modify, throw, halt, emit in *.

Lemma elements_same_true a b :
  length a = length b →
  elements_same a b = true ↔
  ∀ i x y, a !! i = Some x → b !! i = Some y → Object_is x y = true.
Proof.
  revert b. induction a as [|x a IH]; intros [|y b] Hlen; simpl in *;
    try discriminate.
  - split; [intros _ i x y; by rewrite lookup_nil|done].
  - destruct (Object_is x y) eqn:E.
    + rewrite IH by lia. split.
      * intros Hall [|i] x' y'; simpl; [naive_solver|apply Hall].
      * intros Hall i x' y'. apply (Hall (S i)).
    + split; [done|]. intros Hall. by rewrite (Hall 0 x y) in E.
Qed.

Lemma shallowEquals_deps_same a b :
  shallowEquals a b = true ↔ deps_same a b.
Proof.
  destruct a as [a|], b as [b|]; simpl; try done.
  destruct (decide (length a ≠ length b)) as [Hne|Heq].
  - split; [done|]. intros [? _]. done.
  - assert (length a = length b) as Hlen by lia.
    rewrite (elements_same_true _ _ Hlen). naive_solver.
Qed.

(** C4, at a failing input: [Toggle] renders [Counter], then stops
    rendering it; after the pass that unmounts [Counter] its path has no
    hook array, and the setter of [Counter] throws a TypeError (the state
    is as it was before the call). *)
Theorem setState_after_unmount_throws :
  ∃ c, counter_unmounted = Some c
       ∧ Map_get counter_path (hooks_state c) = None
       ∧ setState (mkSetter counter_path 0) (Literal (VNum (Int 5))) c
         = Throw TypeError c.
Proof. vm_compute. eexists. split_and!; reflexivity. Qed.

(** The setter on a path that has its hook array and a state slot at
    the cursor. *)
Lemma setState_on_slot (s : Setter) (nextValue : SetArg) (c : Context)
    (stateArray : list Slot) (prevState : Val) :
  Map_get (setter_path s) (hooks_state c) = Some stateArray →
  stateArray !! setter_cursor s = Some (StateSlot prevState) →
  setState s nextValue c =
    if Object_is prevState (next_state nextValue prevState) then Ok tt c
    else
      enqueueRender
        (with_hooks_state
           (Map_set (setter_path s)
              (<[setter_cursor s := StateSlot (next_state nextValue prevState)]>
                 stateArray)
              (hooks_state c)) c).
Proof.
  intros Hget Hslot. run. rewrite Hget, Hslot.
  fold (next_state nextValue prevState).
  destruct (Object_is prevState (next_state nextValue prevState)); [done|].
  unfold array_set. rewrite decide_True; [done|].
  by eapply lookup_lt_Some.
Qed.

(** C9: a setter called on a path that still has its hook array, at a
    state slot: the next value is the argument, or the updater applied to
    the previous value; [Object.is] holds of the two exactly when they are
    the same value (an object only at the same address); when they are the
    same, the call changes nothing of the engine state; when they are not,
    the slot takes the next value and [enqueueRender] is called on that
    state. *)
Theorem setState_mounted (s : Setter) (nextValue : SetArg) (c : Context)
    (stateArray : list Slot) (prevState : Val) :
  Map_get (setter_path s) (hooks_state c) = Some stateArray →
  stateArray !! setter_cursor s = Some (StateSlot prevState) →
  let newState := next_state nextValue prevState in
  (Object_is prevState newState = true ↔ prevState = newState)
  ∧ (prevState = newState → setState s nextValue c = Ok tt c)
  ∧ (prevState ≠ newState →
       setState s nextValue c =
         enqueueRender
           (with_hooks_state
              (Map_set (setter_path s)
                 (<[setter_cursor s := StateSlot newState]> stateArray)
                 (hooks_state c)) c)).
Proof.
  intros Hget Hslot newState.
  rewrite (setState_on_slot s nextValue c stateArray prevState Hget Hslot).
  fold newState. unfold Object_is. split_and!.
  - apply bool_decide_eq_true.
  - intros Heq. by rewrite bool_decide_eq_true_2.
  - intros Hne. by rewrite bool_decide_eq_false_2.
Qed.

(** C6: [useEffect] at the current path and cursor.  On the first visit
    of the slot it appends the hook [{deps, cleanup: null, effect}] and
    queues [(path, cursor)].  On a later visit it queues [(path, cursor)]
    and stores the new [deps] and [effect] exactly when [deps] is
    undefined or the stored and the new dependencies are not the same
    under the shallow comparison; exactly when they are the same it leaves
    the hook arrays and the queue as they are. *)
Theorem useEffect_visit (effect' : EffectFn) (deps' : option (list Val))
    (c : Context) (path : string) :
  last (hooks_componentStack c) = Some path →
  let cursor := default 0 (hooks_cursor c !! path) in
  let hooks := default [] (Map_get path (hooks_state c)) in
  (length hooks ≤ cursor →
     ∃ c', useEffect effect' deps' c = Ok tt c'
       ∧ Map_get path (hooks_state c')
         = Some (hooks ++ [EffectSlot {| deps := deps'; cleanup := None;
                                         effect := effect' |}])
       ∧ effects_queue c' = effects_queue c ++ [(path, cursor)])
  ∧ (∀ prev, hooks !! cursor = Some (EffectSlot prev) →
       (deps' = None ∨ ¬ deps_same (deps prev) deps'
        ↔ ∃ c', useEffect effect' deps' c = Ok tt c'
            ∧ Map_get path (hooks_state c')
              = Some (<[cursor := EffectSlot {| deps := deps';
                                                cleanup := cleanup prev;
                                                effect := effect' |}]> hooks)
            ∧ effects_queue c' = effects_queue c ++ [(path, cursor)])
       ∧ (deps' ≠ None ∧ deps_same (deps prev) deps'
          ↔ ∃ c', useEffect effect' deps' c = Ok tt c'
              ∧ hooks_state c' = hooks_state c
              ∧ effects_queue c' = effects_queue c)).
Proof.
  intros Hlast cursor hooks. split.
  - intros Hlen. run. repeat (rewrite Hlast; cbv beta iota).
    fold cursor.
    destruct (Map_get path (hooks_state c)) as [hs|] eqn:Hget; simpl in *;
      try rewrite decide_True by done; cbv beta iota;
      eexists; (split; [reflexivity|]); simpl;
      by rewrite ?Map_set_set, Map_get_set_eq.
  - intros prev Hprev.
    assert (cursor < length hooks) as Hlt by by eapply lookup_lt_Some.
    destruct (Map_get path (hooks_state c)) as [hs|] eqn:Hget;
      [|subst hooks; simpl in *; lia].
    subst hooks. simpl in Hprev, Hlt.
    run. repeat (rewrite Hlast; cbv beta iota). fold cursor.
    rewrite Hget. cbv beta iota.
    rewrite decide_False by lia. rewrite Hprev.
    destruct deps' as [d|].
    + destruct (shallowEquals (deps prev) (Some d)) eqn:Hsh; simpl.
      * apply shallowEquals_deps_same in Hsh. split; split.
        -- intros [?|?]; done.
        -- intros (c' & [= <-] & _ & Hq). simpl in Hq.
           apply (f_equal length) in Hq. rewrite length_app in Hq.
           simpl in Hq. lia.
        -- intros _. eexists. split; [reflexivity|]. done.
        -- done.
      * assert (¬ deps_same (deps prev) (Some d)) as Hns.
        { rewrite <- shallowEquals_deps_same. by rewrite Hsh. }
        split; split.
        -- intros _. eexists. split; [reflexivity|]. simpl.
           by rewrite Map_get_set_eq.
        -- by right.
        -- intros [_ ?]. done.
        -- intros (c' & [= <-] & _ & Hq). simpl in Hq.
           apply (f_equal length) in Hq. rewrite length_app in Hq.
           simpl in Hq. lia.
    + simpl. split; split.
      * intros _. eexists. split; [reflexivity|]. simpl.
        by rewrite Map_get_set_eq.
      * by left.
      * intros [? _]. done.
      * intros (c' & [= <-] & _ & Hq). simpl in Hq.
        apply (f_equal length) in Hq. rewrite length_app in Hq.
        simpl in Hq. lia.
Qed.

(** ** Hook state GC *)

Lemma cleanup_hooks_events hooks :
  (cleanup_hooks hooks).2 = EvCleanup <$> cleanups_of hooks.
Proof.
  unfold cleanups_of.
  induction hooks as [|[v|e] hooks IH]; simpl; [done|..];
    destruct (cleanup_hooks hooks) as [rest evs]; simpl in *; [done|].
  destruct (cleanup e); simpl; by rewrite IH.
Qed.

(** One turn of the outer loop, by what it leaves behind. *)
Lemma cleanup_path_effect path c :
  let c' := cleanup_path path c in
  trace c' = trace c
             ++ (EvCleanup <$> cleanups_of
                   (default [] (Map_get path (hooks_state c))))
  ∧ (∀ q, Map_get q (hooks_state c')
          = if decide (q = path) then None else Map_get q (hooks_state c))
  ∧ (∀ q, hooks_cursor c' !! q
          = if decide (q = path) then None else hooks_cursor c !! q)
  ∧ hooks_visited c' = hooks_visited c
  ∧ hooks_componentStack c' = hooks_componentStack c
  ∧ effects_queue c' = effects_queue c
  ∧ microtasks c' = microtasks c ∧ scheduled c' = scheduled c
  ∧ heap c' = heap c ∧ document c' = document c
  ∧ root_instance c' = root_instance c.
Proof.
  unfold cleanup_path.
  destruct (Map_get path (hooks_state c)) as [hooks|] eqn:Hget; simpl.
  - pose proof (cleanup_hooks_events hooks) as Hev.
    destruct (cleanup_hooks hooks) as [hooks' evs]; simpl in *. subst evs.
    split_and!; try done.
    + intros q. destruct (decide (q = path)) as [->|Hne].
      * apply Map_get_delete_eq.
      * by rewrite Map_get_delete_ne, Map_get_set_ne.
    + intros q. destruct (decide (q = path)) as [->|Hne].
      * apply lookup_delete_eq.
      * by rewrite lookup_delete_ne.
  - split_and!; try done.
    + by rewrite app_nil_r.
    + intros q. destruct (decide (q = path)) as [->|Hne].
      * apply Map_get_delete_eq.
      * by rewrite Map_get_delete_ne.
    + intros q. destruct (decide (q = path)) as [->|Hne].
      * apply lookup_delete_eq.
      * by rewrite lookup_delete_ne.
Qed.

Lemma cleanup_paths_effect paths : ∀ c,
  let c' := foldl (λ c path, cleanup_path path c) c paths in
  (∃ fns, trace c' = trace c ++ (EvCleanup <$> fns))
  ∧ (∀ q, Map_get q (hooks_state c')
          = if decide (q ∈ paths) then None else Map_get q (hooks_state c))
  ∧ (∀ q, hooks_cursor c' !! q
          = if decide (q ∈ paths) then None else hooks_cursor c !! q)
  ∧ hooks_visited c' = hooks_visited c
  ∧ hooks_componentStack c' = hooks_componentStack c
  ∧ effects_queue c' = effects_queue c
  ∧ microtasks c' = microtasks c ∧ scheduled c' = scheduled c
  ∧ heap c' = heap c ∧ document c' = document c
  ∧ root_instance c' = root_instance c.
Proof.
  induction paths as [|p paths IH]; intros c; simpl.
  - split_and!; try done. exists []. by rewrite app_nil_r.
  - destruct (cleanup_path_effect p c)
      as (Ht & Hs & Hc & Hv & Hk & Hq & Hm & Hsch & Hh & Hd & Hr).
    destruct (IH (cleanup_path p c))
      as ((fns & Ht') & Hs' & Hc' & Hv' & Hk' & Hq' & Hm' & Hsch' & Hh' & Hd'
          & Hr').
    split_and!; try congruence.
    + eexists. by rewrite Ht', Ht, <- app_assoc, <- fmap_app.
    + intros q. rewrite Hs', Hs.
      destruct (decide (q ∈ paths)) as [Hin|Hnin].
      * rewrite decide_True; [done|]. by right.
      * destruct (decide (q = p)) as [->|Hne].
        -- rewrite decide_True; [done|]. by left.
        -- rewrite decide_False; [done|]. rewrite elem_of_cons.
           intros [?|?]; done.
    + intros q. rewrite Hc', Hc.
      destruct (decide (q ∈ paths)) as [Hin|Hnin].
      * rewrite decide_True; [done|]. by right.
      * destruct (decide (q = p)) as [->|Hne].
        -- rewrite decide_True; [done|]. by left.
        -- rewrite decide_False; [done|]. rewrite elem_of_cons.
           intros [?|?]; done.
Qed.

Lemma cleanup_paths_trace paths : ∀ c,
  NoDup paths →
  trace (foldl (λ c path, cleanup_path path c) c paths)
  = trace c
    ++ (EvCleanup <$> concat
          ((λ p, cleanups_of (default [] (Map_get p (hooks_state c))))
             <$> paths)).
Proof.
  induction paths as [|p paths IH]; intros c Hnd; simpl.
  - by rewrite app_nil_r.
  - apply NoDup_cons in Hnd as [Hp Hnd].
    destruct (cleanup_path_effect p c) as (Ht & Hs & _).
    rewrite (IH _ Hnd), Ht, <- app_assoc, fmap_app. do 4 f_equal.
    apply list_fmap_ext. intros i q Hq0.
    rewrite Hs. rewrite decide_False; [done|].
    intros ->. apply Hp. by eapply list_elem_of_lookup_2.
Qed.

Lemma Map_get_Some_elem {V} (m : list (string * V)) k v :
  NoDup (Map_keys m) → (k, v) ∈ m → Map_get k m = Some v.
Proof.
  unfold Map_keys. induction m as [|[k0 v0] m IH]; simpl; intros Hnd Hin.
  - by apply elem_of_nil in Hin.
  - apply NoDup_cons in Hnd as [Hk0 Hnd].
    apply elem_of_cons in Hin as [[= -> ->]|Hin].
    + by rewrite decide_True.
    + rewrite decide_False; [by apply IH|].
      intros ->. apply Hk0. apply list_elem_of_fmap. by exists (k0, v).
Qed.

Lemma unvisited_cleanups_paths {V} (m : list (string * V)) (P : string → Prop)
    `{∀ p, Decision (P p)} (g : V → list nat) (d : V) :
  NoDup (Map_keys m) →
  concat ((λ p, g (default d (Map_get p m))) <$> filter P (Map_keys m))
  = concat ((λ ph : string * V, if decide (P ph.1) then g ph.2 else [])
              <$> m).
Proof.
  unfold Map_keys. induction m as [|[k v] m IH]; simpl; intros Hnd; [done|].
  apply NoDup_cons in Hnd as [Hk Hnd].
  assert (concat ((λ p, g (default d (Map_get p ((k, v) :: m))))
                    <$> filter P m.*1)
          = concat ((λ p, g (default d (Map_get p m))) <$> filter P m.*1))
    as Hrest.
  { f_equal. apply list_fmap_ext. intros i p Hp. simpl.
    rewrite decide_False; [done|].
    intros ->. apply Hk.
    apply list_elem_of_lookup_2 in Hp.
    by apply list_elem_of_filter in Hp as [_ ?]. }
  rewrite filter_cons. destruct (decide (P k)) as [HP|HP]; simpl.
  - rewrite decide_True by done. f_equal.
    etrans; [apply Hrest|]. by apply IH.
  - etrans; [apply Hrest|]. by apply IH.
Qed.

(** C8: the hook GC that ends a render pass.  Of every stored path that
    was not visited, the cleanup function of each effect slot that has one
    is called, once per slot and of no other slot; the hook array of the
    path is gone and so is its cursor; a component rendered at that path
    afterwards starts its state from the initial value at cursor 0.
    Visited paths keep their hook array and cursor, and a second GC finds
    no cleanup to call. *)
Theorem cleanupUnusedHooks_unvisited (c : Context) :
  NoDup (Map_keys (hooks_state c)) →
  let c' := cleanupUnusedHooks c in
  trace c' = trace c ++ (EvCleanup <$> unvisited_cleanups c)
  ∧ (∀ path, path ∉ hooks_visited c →
       Map_get path (hooks_state c') = None
       ∧ (path ∈ Map_keys (hooks_state c) →
            hooks_cursor c' !! path = None
            ∧ (∀ init stack,
                 result_of
                   (useState init
                      (with_hooks_componentStack (stack ++ [path]) c'))
                 = Some (initial_state init, mkSetter path 0))))
  ∧ (∀ path, path ∈ hooks_visited c →
       Map_get path (hooks_state c') = Map_get path (hooks_state c)
       ∧ hooks_cursor c' !! path = hooks_cursor c !! path)
  ∧ unvisited_cleanups c' = [].
Proof.
  intros Hnd c'.
  assert (NoDup (pathsToDelete c)) as Hnd'.
  { unfold pathsToDelete. by apply NoDup_filter. }
  pose proof (cleanup_paths_trace (pathsToDelete c) c Hnd') as Ht.
  destruct (cleanup_paths_effect (pathsToDelete c) c)
    as (_ & Hs & Hc & Hv & _).
  fold (cleanupUnusedHooks c) in Ht, Hs, Hc, Hv. fold c' in Ht, Hs, Hc, Hv.
  assert (∀ q, (q ∈ pathsToDelete c)
               ↔ (q ∉ hooks_visited c ∧ q ∈ Map_keys (hooks_state c)))
    as Hin.
  { intros q. unfold pathsToDelete. by rewrite list_elem_of_filter. }
  assert (∀ path, path ∉ hooks_visited c →
                  Map_get path (hooks_state c') = None) as Hgone.
  { intros path Hnv. rewrite Hs.
    destruct (decide (path ∈ pathsToDelete c)) as [|Hnin]; [done|].
    apply Map_get_None. intros Hk. apply Hnin, Hin. done. }
  split_and!.
  - rewrite Ht. do 2 f_equal. unfold pathsToDelete, unvisited_cleanups.
    rewrite (unvisited_cleanups_paths _ (λ p, p ∉ hooks_visited c)
               cleanups_of []) by done.
    f_equal. apply list_fmap_ext. intros i [p hs] _. simpl.
    destruct (decide (p ∈ hooks_visited c)).
    + by rewrite decide_False by tauto.
    + by rewrite decide_True.
  - intros path Hnv. split; [by apply Hgone|].
    intros Hk.
    assert (hooks_cursor c' !! path = None) as Hcur.
    { rewrite Hc. rewrite decide_True; [done|]. by apply Hin. }
    split; [done|].
    intros init stack. run. simpl. rewrite last_snoc. cbv beta iota.
    simpl. rewrite last_snoc. cbv beta iota. simpl.
    rewrite last_snoc. cbv beta iota. simpl.
    rewrite (Hgone path Hnv), Hcur. simpl.
    by destruct init.
  - intros path Hvis.
    rewrite Hs, Hc. rewrite !decide_False; [done|..];
      intros Hp; apply Hin in Hp as [? _]; done.
  - unfold unvisited_cleanups.
    assert (∀ ph, ph ∈ hooks_state c' → ph.1 ∈ hooks_visited c') as Hall.
    { intros [p hs] Hp. simpl. rewrite Hv.
      destruct (decide (p ∈ hooks_visited c)) as [|Hnv]; [done|].
      exfalso. pose proof (Hgone p Hnv) as Hnone.
      apply Map_get_None in Hnone. apply Hnone.
      apply list_elem_of_fmap. by exists (p, hs). }
    revert Hall. generalize (hooks_state c').
    intros m. induction m as [|ph m IH]; intros Hall; simpl; [done|].
    rewrite decide_True by (apply Hall; by left). simpl.
    apply IH. intros ph' Hph'. apply Hall. by right.
Qed.

Lemma enqueueRender_requested c :
  enqueueRender c = Ok tt (render_requested c).
Proof.
  unfold enqueueRender, withEnqueue, render_requested, enqueue, bind, modify.
  by destruct (scheduled c).
Qed.

Lemma render_requested_latch c :
  latch_agrees c →
  latch_agrees (render_requested c)
  ∧ pending_renders (render_requested c) = 1
  ∧ scheduled (render_requested c) = true.
Proof.
  unfold latch_agrees, render_requested, pending_renders.
  destruct (scheduled c) eqn:E; intros Hl; simpl.
  - by rewrite E.
  - rewrite filter_app, length_app, Hl. done.
Qed.

Lemma setState_changing s arg c stateArray prevState :
  Map_get (setter_path s) (hooks_state c) = Some stateArray →
  stateArray !! setter_cursor s = Some (StateSlot prevState) →
  next_state arg prevState ≠ prevState →
  setState s arg c =
    Ok tt (render_requested
             (with_hooks_state
                (Map_set (setter_path s)
                   (<[setter_cursor s := StateSlot (next_state arg prevState)]>
                      stateArray)
                   (hooks_state c)) c)).
Proof.
  intros Hget Hslot Hne.
  rewrite (setState_on_slot s arg c stateArray prevState Hget Hslot).
  unfold Object_is. rewrite bool_decide_eq_false_2 by done.
  by rewrite enqueueRender_requested.
Qed.

Lemma bind_Ok_eq {A B} (m : M A) (f : A → M B) c a c1 :
  m c = Ok a c1 → bind m f c = f a c1.
Proof. unfold bind. by intros ->. Qed.

Lemma render_requested_idem c :
  render_requested (render_requested c) = render_requested c.
Proof.
  unfold render_requested. destruct (scheduled c) eqn:E; simpl; by rewrite ?E.
Qed.

Lemma enqueueRender_times_requested n c :
  n ≠ 0 → enqueueRender_times n c = Ok tt (render_requested c).
Proof.
  unfold enqueueRender_times, forM_.
  intros Hn. destruct n as [|n]; [done|]. clear Hn.
  generalize 0 as k. revert c.
  induction n as [|n IH]; intros c k.
  - cbn [seq foldM].
    rewrite (bind_Ok_eq _ _ _ _ _ (enqueueRender_requested c)). done.
  - change (seq k (S (S n))) with (k :: seq (S k) (S n)).
    cbn [foldM].
    rewrite (bind_Ok_eq _ _ _ _ _ (enqueueRender_requested c)).
    rewrite IH. by rewrite render_requested_idem.
Qed.

(** C5: after one or more setter calls in a row, each changing the value
    it finds, exactly one render pass waits in the microtask queue, the
    latch is set, the queue is what one request makes of it, and the slot
    holds the value of the last call.  Any number (not zero) of
    [enqueueRender] calls is one request.  The callback, when it runs,
    clears the latch and then renders, and a request made while the latch
    is clear puts a new pass in the queue. *)
Theorem batched_setter_calls `{Registry} (s : Setter) (args : list SetArg)
    (c : Context) (stateArray : list Slot) (prevState : Val) :
  latch_agrees c →
  args ≠ [] →
  Map_get (setter_path s) (hooks_state c) = Some stateArray →
  stateArray !! setter_cursor s = Some (StateSlot prevState) →
  all_changing prevState args →
  (∃ c' stateArray',
      call_setter_each s args c = Ok tt c'
      ∧ pending_renders c' = 1
      ∧ scheduled c' = true
      ∧ microtasks c' = microtasks (render_requested c)
      ∧ Map_get (setter_path s) (hooks_state c') = Some stateArray'
      ∧ stateArray' !! setter_cursor s
        = Some (StateSlot (final_state prevState args)))
  ∧ (∀ n, n ≠ 0 →
       enqueueRender_times n c = Ok tt (render_requested c)
       ∧ pending_renders (render_requested c) = 1)
  ∧ (∀ fuel c0,
       run_callback fuel RunScheduledRender c0
       = render fuel (with_scheduled false c0))
  ∧ (∀ c0, scheduled c0 = false →
       enqueueRender c0
       = Ok tt (with_microtasks (microtasks c0 ++ [RunScheduledRender])
                  (with_scheduled true c0))).
Proof.
  intros Hlatch Hargs Hget Hslot Hch. split_and!.
  - destruct args as [|arg args]; [done|]. clear Hargs.
    destruct Hch as [Hne Hch]. unfold call_setter_each, forM_.
    cbn [foldM].
    rewrite (bind_Ok_eq _ _ _ _ _
               (setState_changing s arg c stateArray prevState Hget Hslot Hne)).
    set (c1 := render_requested _).
    assert (Hget1 : Map_get (setter_path s) (hooks_state c1)
                    = Some (<[setter_cursor s :=
                                StateSlot (next_state arg prevState)]>
                              stateArray)).
    { subst c1. unfold render_requested. simpl.
      destruct (scheduled c); simpl; apply Map_get_set_eq. }
    assert (Hslot1 : <[setter_cursor s := StateSlot (next_state arg prevState)]>
                       stateArray !! setter_cursor s
                     = Some (StateSlot (next_state arg prevState))).
    { apply list_lookup_insert_eq. by eapply lookup_lt_Some. }
    assert (Hsch1 : scheduled c1 = true).
    { subst c1. unfold render_requested. simpl.
      destruct (scheduled c) eqn:E; simpl; by rewrite ?E. }
    assert (Hm1 : microtasks c1 = microtasks (render_requested c)).
    { subst c1. unfold render_requested. simpl. by destruct (scheduled c). }
    assert (Hp1 : pending_renders c1 = 1).
    { unfold pending_renders. rewrite Hm1.
      by apply render_requested_latch. }
    clearbody c1. clear Hget Hslot Hne Hlatch.
    simpl final_state.
    revert c1 Hget1 Hslot1 Hsch1 Hm1 Hp1 Hch.
    generalize (<[setter_cursor s := StateSlot (next_state arg prevState)]>
                  stateArray) as arr.
    generalize (next_state arg prevState) as v.
    induction args as [|a args IH]; intros v arr c1 Hget1 Hslot1 Hsch1 Hm1 Hp1 Hch.
    + exists c1, arr. split_and!; try done; reflexivity.
    + destruct Hch as [Hne Hch]. cbn [foldM].
      rewrite (bind_Ok_eq _ _ _ _ _
                 (setState_changing s a c1 arr v Hget1 Hslot1 Hne)).
      unfold render_requested at 1. simpl. rewrite Hsch1.
      apply (IH (next_state a v)
                (<[setter_cursor s := StateSlot (next_state a v)]> arr));
        simpl; try done.
      * apply Map_get_set_eq.
      * apply list_lookup_insert_eq. by eapply lookup_lt_Some.
  - intros n Hn. split; [by apply enqueueRender_times_requested|].
    by apply render_requested_latch.
  - intros fuel c0. reflexivity.
  - intros c0 Hc0. rewrite enqueueRender_requested.
    unfold render_requested. by rewrite Hc0.
Qed.

(** C10: in the child loop of [reconcileChildren], a child whose key is
    not null but falsy (the number 0, the empty string or NaN) gets its
    old Instance as a child without a key does: the one at its index, with
    the key map left as it is. *)
Theorem falsy_key_selects_by_index (oldChildren : list nat)
    (byKey : list (Key * nat)) (used : gset nat) (childKey : Key) (i : nat) :
  childKey ≠ KNull →
  key_truthy childKey = false →
  childKey ∈ [KNum (Int 0); KStr ""; KNum NaN]
  ∧ select_oldChild oldChildren byKey used childKey i
    = select_oldChild oldChildren byKey used KNull i
  ∧ (select_oldChild oldChildren byKey used childKey i).1.1
    = oldChildren !! i
  ∧ (select_oldChild oldChildren byKey used childKey i).1.2 = byKey.
Proof.
  intros Hnn Hf. split_and!.
  - destruct childKey as [|s|[|z|negative|q]]; simpl in Hf; try done.
    + apply negb_false_iff, bool_decide_eq_true in Hf as ->. set_solver.
    + set_solver.
    + apply negb_false_iff, bool_decide_eq_true in Hf as ->. set_solver.
  - unfold select_oldChild. by rewrite Hf.
  - unfold select_oldChild. rewrite Hf. by destruct (oldChildren !! i).
  - unfold select_oldChild. rewrite Hf. by destruct (oldChildren !! i).
Qed.

Lemma truthy_key_selects_by_key (oldChildren : list nat)
    (byKey : list (Key * nat)) (used : gset nat) (childKey : Key) (i : nat) :
  key_truthy childKey = true →
  (select_oldChild oldChildren byKey used childKey i).1.1
  = Map_get childKey byKey.
Proof.
  intros Ht. unfold select_oldChild. rewrite Ht.
  by destruct (Map_get childKey byKey).
Qed.

#[global] Instance identity_kept_preorder : PreOrder identity_kept.
Proof.
  split.
  - intros h i inst Hi. by exists inst.
  - intros h1 h2 h3 H12 H23 i inst Hi.
    destruct (H12 i inst Hi) as (inst2 & Hi2 & ? & ? & ? & ? & ?).
    destruct (H23 i inst2 Hi2) as (inst3 & Hi3 & ? & ? & ? & ? & ?).
    exists inst3. split_and!; congruence.
Qed.

#[global] Instance rest_kept_preorder : PreOrder rest_kept.
Proof.
  split.
  - intros h i inst Hi. exists inst. split; [done|]. by destruct inst.
  - intros h1 h2 h3 H12 H23 i inst Hi.
    destruct (H12 i inst Hi) as (inst2 & Hi2 & E2).
    destruct (H23 i inst2 Hi2) as (inst3 & Hi3 & E3).
    exists inst3. split; [done|]. rewrite <- E2, <- E3. by destruct inst3.
Qed.

Lemma rest_kept_identity h h' : rest_kept h h' → identity_kept h h'.
Proof.
  intros Hr i inst Hi. destruct (Hr i inst Hi) as (inst' & Hi' & E).
  exists inst'. split; [done|]. rewrite <- E. by destruct inst'.
Qed.

#[global] Instance steps_preorder H p : PreOrder H → PreOrder (steps H p).
Proof.
  intros HH. split.
  - intros c. split; [reflexivity|]. exists []. by rewrite app_nil_r.
  - intros c1 c2 c3 [H12 (e12 & T12 & F12)] [H23 (e23 & T23 & F23)].
    split; [by etrans|]. exists (e12 ++ e23). split.
    + by rewrite T23, T12, app_assoc.
    + by apply Forall_app.
Qed.

Lemma steps_weaken (H H' : relation (list Inst)) (p q : Event → bool) c c' :
  (∀ h h', H h h' → H' h h') → (∀ ev, p ev = true → q ev = true) →
  steps H p c c' → steps H' q c c'.
Proof.
  intros HH Hpq [Hh (evs & Ht & Hf)]. split; [by apply HH|].
  exists evs. split; [done|]. eapply Forall_impl; [done|]. apply Hpq.
Qed.

Section Keeps.
Context (R : relation Context) `{!PreOrder R}.

Lemma keeps_ret {A} (a : A) : keeps R (ret a).
Proof. intros c a' c' [= <- <-]. reflexivity. Qed.

Lemma keeps_throw {A} e : keeps R (@throw A e).
Proof. intros c a' c' [=]. Qed.

Lemma keeps_halt {A} s : keeps R (@halt A s).
Proof. intros c a' c' [=]. Qed.

Lemma keeps_gets {A} (f : Context → A) : keeps R (gets f).
Proof. intros c a' c' [= <- <-]. reflexivity. Qed.

Lemma keeps_modify f : (∀ c, R c (f c)) → keeps R (modify f).
Proof. intros Hf c a' c' [= _ <-]. apply Hf. Qed.

Lemma keeps_bind {A B} (m : M A) (f : A → M B) :
  keeps R m → (∀ a, keeps R (f a)) → keeps R (bind m f).
Proof.
  intros Hm Hf c b c' Hb. apply bind_Ok in Hb as (a & c1 & H1 & H2).
  etrans; [by eapply Hm|by eapply Hf].
Qed.

Lemma keeps_foldM {S X} (f : S → X → M S) (l : list X) :
  (∀ s x, keeps R (f s x)) → ∀ s, keeps R (foldM f s l).
Proof.
  intros Hf. induction l as [|x l IH]; intros s; simpl.
  - apply keeps_ret.
  - apply keeps_bind; [apply Hf|apply IH].
Qed.

Lemma keeps_forM_ {X} (f : X → M unit) (l : list X) :
  (∀ x, keeps R (f x)) → keeps R (forM_ f l).
Proof. intros Hf. apply keeps_foldM. intros _ x. apply Hf. Qed.

(** A loop whose state stays within [I]. *)
Lemma keeps_foldM_inv {S X} (I : S → Prop) (f : S → X → M S) (l : list X) :
  (∀ s x c s' c', I s → f s x c = Ok s' c' → R c c' ∧ I s') →
  ∀ s, I s → keeps R (foldM f s l).
Proof.
  intros Hf. induction l as [|x l IH]; intros s Hs; simpl.
  - apply keeps_ret.
  - intros c b c' Hb. apply bind_Ok in Hb as (s1 & c1 & H1 & H2).
    destruct (Hf _ _ _ _ _ Hs H1) as [HR Hs1].
    etrans; [done|]. by eapply IH.
Qed.

End Keeps.

Lemma keeps_weaken {A} (R R' : relation Context) (m : M A) :
  (∀ c c', R c c' → R' c c') → keeps R m → keeps R' m.
Proof. intros HR Hm c a c' E. apply HR. by eapply Hm. Qed.

(** ** What the primitives do to the heap and to the trace *)

Lemma steps_same (H : relation (list Inst)) `{!PreOrder H} p c c' :
  heap c' = heap c → trace c' = trace c → steps H p c c'.
Proof.
  intros Hh Ht. split; [by rewrite Hh|]. exists []. by rewrite app_nil_r.
Qed.

Lemma steps_emit (H : relation (list Inst)) `{!PreOrder H} (p : Event → bool)
    c c' evs :
  heap c' = heap c → trace c' = trace c ++ evs →
  Forall (λ ev, p ev = true) evs → steps H p c c'.
Proof. intros Hh Ht Hf. split; [by rewrite Hh|]. by exists evs. Qed.

Ltac k_bind := apply keeps_bind; [apply _| |].
Ltac k_ret := apply keeps_ret; apply _.
Ltac k_gets := apply keeps_gets; apply _.
Ltac k_fold := apply keeps_foldM; [apply _|].
Ltac k_for := apply keeps_forM_; [apply _|].

Section Primitives.
Context (H : relation (list Inst)) `{!PreOrder H} (p : Event → bool).
Local Abbreviation R := (steps H p).

Lemma keeps_heap_get i : keeps R (heap_get i).
Proof.
  intros c a c'. unfold heap_get. destruct (heap c !! i); [|done].
  intros [= <- <-]. reflexivity.
Qed.

Lemma keeps_dom_get d : keeps R (dom_get d).
Proof.
  intros c a c'. unfold dom_get. destruct (document c !! d); [|done].
  intros [= <- <-]. reflexivity.
Qed.

Lemma keeps_dom_alter f d : keeps R (dom_alter f d).
Proof. apply keeps_modify. intros c. by apply steps_same. Qed.

Lemma keeps_emit evs :
  Forall (λ ev, p ev = true) evs → keeps R (emit evs).
Proof.
  intros Hf. apply keeps_modify. intros c.
  by apply (steps_emit _ _ _ _ evs).
Qed.

Lemma keeps_detach node : keeps R (detach node).
Proof.
  unfold detach. k_bind; [apply keeps_dom_get|].
  intros n. destruct (dom_parentNode n).
  - k_bind; [apply keeps_dom_alter|intros _].
    apply keeps_dom_alter.
  - k_ret.
Qed.

Lemma keeps_set_cursor path n : keeps R (set_cursor path n).
Proof. apply keeps_modify. intros c. by apply steps_same. Qed.

Lemma keeps_enqueueRender : keeps R enqueueRender.
Proof.
  intros c a c'. rewrite enqueueRender_requested. intros E.
  assert (c' = render_requested c) as -> by congruence.
  unfold render_requested. destruct (scheduled c); [reflexivity|].
  by apply steps_same.
Qed.

Lemma keeps_currentPath : keeps R currentPath.
Proof.
  intros c a c'. unfold currentPath.
  destruct (last _); [|done]. intros [= <- <-]. reflexivity.
Qed.

Lemma keeps_currentCursor : keeps R currentCursor.
Proof.
  unfold currentCursor. k_bind; [apply keeps_currentPath|].
  intros path. k_gets.
Qed.

Lemma keeps_currentHooks : keeps R currentHooks.
Proof.
  unfold currentHooks. k_bind; [apply keeps_currentPath|].
  intros path c a c'. destruct (Map_get path (hooks_state c)).
  - intros [= <- <-]. reflexivity.
  - intros [= <- <-]. by apply steps_same.
Qed.

Lemma keeps_push_hook path hooks x : keeps R (push_hook path hooks x).
Proof. intros c a c' [= <- <-]. by apply steps_same. Qed.

Lemma keeps_read_state hooks cursor : keeps R (read_state hooks cursor).
Proof.
  unfold read_state. destruct (hooks !! cursor) as [[v|e]|].
  - k_ret.
  - apply keeps_halt.
  - k_ret.
Qed.

Lemma keeps_useState init : keeps R (useState init).
Proof.
  unfold useState.
  k_bind; [apply keeps_currentPath|intros path].
  k_bind; [apply keeps_currentCursor|intros cursor].
  k_bind; [apply keeps_currentHooks|intros hooks].
  k_bind; [ |intros hooks'].
  { destruct (decide _); [apply keeps_push_hook|k_ret]. }
  k_bind; [apply keeps_read_state|intros state].
  k_bind; [apply keeps_set_cursor|intros _].
  k_ret.
Qed.

Lemma keeps_setState s arg : keeps R (setState s arg).
Proof.
  intros c a c'. unfold setState.
  destruct (Map_get (setter_path s) (hooks_state c)) as [arr|]; [|done].
  revert c a c'.
  k_bind; [apply keeps_read_state|intros prev].
  destruct (Object_is _ _); [k_ret|].
  k_bind; [ |intros _; apply keeps_enqueueRender].
  apply keeps_modify. intros c. by apply steps_same.
Qed.

Lemma keeps_useEffect e d : keeps R (useEffect e d).
Proof.
  unfold useEffect.
  k_bind; [apply keeps_currentPath|intros path].
  k_bind; [apply keeps_currentCursor|intros cursor].
  k_bind; [apply keeps_currentHooks|intros hooks].
  k_bind; [ |intros _; apply keeps_set_cursor].
  destruct (decide _).
  - k_bind; [apply keeps_push_hook|intros _].
    apply keeps_modify. intros c. by apply steps_same.
  - destruct (hooks !! cursor) as [[v|prev]|]; try apply keeps_halt.
    destruct (match d with Some _ => _ | None => _ end);
      [|k_ret].
    k_bind; [ |intros _];
      (apply keeps_modify; intros c; by apply steps_same).
Qed.

Lemma keeps_run_component body : keeps R (run_component body).
Proof.
  induction body as [node|init k IH|e d k IH|s arg k IH]; simpl.
  - k_ret.
  - k_bind; [apply keeps_useState|]. intros r. apply IH.
  - k_bind; [apply keeps_useEffect|]. intros _. apply IH.
  - k_bind; [apply keeps_setState|]. intros _. apply IH.
Qed.

Lemma keeps_getDomNodes fuel : ∀ instance, keeps R (getDomNodes fuel instance).
Proof.
  induction fuel as [|fuel IH]; intros instance; simpl.
  - apply keeps_halt.
  - destruct instance as [i|]; [|k_ret].
    k_bind; [apply keeps_heap_get|intros inst].
    destruct (owns_dom _); [k_ret|].
    k_fold. intros nodes child.
    k_bind; [apply IH|]. intros more. k_ret.
Qed.

Lemma keeps_getFirstDom fuel : ∀ instance, keeps R (getFirstDom fuel instance).
Proof.
  induction fuel as [|fuel IH]; intros instance; simpl.
  - apply keeps_halt.
  - destruct instance as [i|]; [|k_ret].
    k_bind; [apply keeps_heap_get|intros inst].
    destruct (owns_dom _); [k_ret|].
    k_fold. intros [d|] child; [k_ret|].
    apply IH.
Qed.

Lemma keeps_getFirstDomFromChildren fuel l :
  keeps R (getFirstDomFromChildren fuel l).
Proof.
  k_fold. intros [d|] child; [k_ret|].
  apply keeps_getFirstDom.
Qed.

Lemma keeps_index_by_key l : keeps R (index_by_key l).
Proof.
  k_fold. intros m child.
  k_bind; [apply keeps_heap_get|intros inst].
  destruct (negb _); k_ret.
Qed.

End Primitives.

(** ** DOM operations: the heap stays, the events are structural *)

Section DomOps.
Context (H : relation (list Inst)) `{!PreOrder H} (p : Event → bool).
Context (Hp : ∀ ev, structural ev = true → p ev = true).
Context `{Registry}.
Local Abbreviation R := (steps H p).

Lemma keeps_structural_emit evs :
  forallb structural evs = true → keeps R (emit evs).
Proof.
  intros Hf. apply keeps_emit; [done|].
  apply Forall_forall. intros ev Hev. apply Hp.
  rewrite forallb_forall in Hf. apply Hf. by apply list_elem_of_In.
Qed.

Lemma keeps_createElement tag : keeps R (createElement tag).
Proof.
  intros c a c' E. unfold createElement in E.
  destruct (valid_tag_name tag); [|done]. injection E as <- <-.
  apply (steps_emit _ _ _ _ [EvCreateElement (length (document c)) tag]);
    [done..|]. apply Forall_singleton. by apply Hp.
Qed.

Lemma keeps_createTextNode text : keeps R (createTextNode text).
Proof.
  intros c a c' [= <- <-].
  apply (steps_emit _ _ _ _ [EvCreateTextNode (length (document c)) text]);
    [done..|]. apply Forall_singleton. by apply Hp.
Qed.

Lemma keeps_setDomProps d props' : keeps R (setDomProps d props').
Proof.
  unfold setDomProps. k_bind; [by apply keeps_structural_emit|intros _].
  destruct (forallb _ _); [k_ret|apply keeps_throw].
Qed.

Lemma keeps_updateDomProps d prevProps nextProps :
  p (EvUpdateDomProps d prevProps nextProps) = true →
  keeps R (updateDomProps d prevProps nextProps).
Proof.
  intros Hev. unfold updateDomProps. k_bind.
  - apply keeps_emit; [apply _|]. by apply Forall_singleton.
  - intros _. destruct (forallb _ _); [k_ret|apply keeps_throw].
Qed.

Lemma keeps_removeChild node : keeps R (removeChild node).
Proof.
  unfold removeChild. k_bind; [apply keeps_dom_get; apply _|intros n].
  destruct (dom_parentNode n); [|k_ret].
  k_bind; [apply keeps_detach; apply _|intros _].
  by apply keeps_structural_emit.
Qed.

Lemma keeps_appendChild parentDom node : keeps R (appendChild parentDom node).
Proof.
  unfold appendChild.
  k_bind; [apply keeps_detach; apply _|intros _].
  k_bind; [apply keeps_dom_alter; apply _|intros _].
  k_bind; [apply keeps_dom_alter; apply _|intros _].
  by apply keeps_structural_emit.
Qed.

Lemma keeps_insertBefore parentDom node anchor :
  keeps R (insertBefore parentDom node anchor).
Proof.
  unfold insertBefore.
  k_bind; [apply keeps_dom_get; apply _|intros a].
  destruct (decide _); [|apply keeps_throw].
  k_bind; [|intros _; by apply keeps_structural_emit].
  destruct (decide _); [k_ret|].
  k_bind; [apply keeps_detach; apply _|intros _].
  k_bind; [apply keeps_dom_alter; apply _|intros _].
  apply keeps_dom_alter; apply _.
Qed.

Lemma keeps_insertInstance fuel parentDom instance anchor :
  keeps R (insertInstance fuel parentDom instance anchor).
Proof.
  unfold insertInstance. destruct instance; [|k_ret].
  k_bind; [apply keeps_getDomNodes; apply _|intros nodes].
  k_for. intros node. destruct anchor.
  - apply keeps_insertBefore.
  - apply keeps_appendChild.
Qed.

Lemma keeps_removeInstance fuel instance :
  keeps R (removeInstance fuel instance).
Proof.
  unfold removeInstance. destruct instance; [|k_ret].
  k_bind; [apply keeps_getDomNodes; apply _|intros nodes].
  k_for. apply keeps_removeChild.
Qed.

Lemma keeps_unmount fuel : ∀ instance, keeps R (unmount fuel instance).
Proof.
  induction fuel as [|fuel IH]; intros instance; cbn [unmount].
  - apply keeps_halt.
  - k_bind; [apply keeps_heap_get; apply _|intros inst].
    k_bind; [|intros _; apply keeps_removeInstance].
    k_for. apply IH.
Qed.

End DomOps.

(** ** The heap under allocation and update *)

Lemma identity_kept_alloc h inst : identity_kept h (h ++ [inst]).
Proof.
  intros i x Hi. exists x. split; [|done]. by apply lookup_app_l_Some.
Qed.

Lemma rest_kept_alloc h inst : rest_kept h (h ++ [inst]).
Proof.
  intros i x Hi. exists x. split; [by apply lookup_app_l_Some|].
  by destruct x.
Qed.

Lemma rest_kept_set_children h i l : rest_kept h (alter (set_children l) i h).
Proof.
  intros j x Hj. destruct (decide (i = j)) as [->|Hne].
  - exists (set_children l x). split; [|by destruct x].
    by rewrite list_lookup_alter_eq, Hj.
  - exists x. split; [|by destruct x].
    by rewrite list_lookup_alter_ne.
Qed.

Lemma identity_kept_alter h i (f : Inst → Inst) :
  (∀ x, h !! i = Some x →
        inst_kind (f x) = inst_kind x ∧ inst_dom (f x) = inst_dom x
        ∧ inst_key (f x) = inst_key x
        ∧ type (inst_node (f x)) = type (inst_node x)
        ∧ key (inst_node (f x)) = key (inst_node x)) →
  identity_kept h (alter f i h).
Proof.
  intros Hf j x Hj. destruct (decide (i = j)) as [->|Hne].
  - exists (f x). split; [by rewrite list_lookup_alter_eq, Hj|].
    by apply Hf.
  - exists x. split; [by rewrite list_lookup_alter_ne|done].
Qed.

Lemma key_strict_eq_eq a b : key_strict_eq a b = true → a = b.
Proof.
  destruct a as [|s|m], b as [|t|n]; simpl; try done.
  - by intros ->%bool_decide_eq_true.
  - unfold num_strict_eq.
    destruct m, n; try done; by intros ->%bool_decide_eq_true.
Qed.

Lemma key_strict_eq_refl k : key_truthy k = true → key_strict_eq k k = true.
Proof.
  destruct k as [|s|[|x|negative|q]]; simpl; try done; intros _;
    by apply bool_decide_eq_true.
Qed.

(** ** The reconciler keeps the identity of every Instance *)

Lemma structural_dom_event ev : structural ev = true → dom_event ev = true.
Proof. by destruct ev. Qed.

Local Hint Resolve structural_dom_event : core.

Ltac prim :=
  first
    [ apply keeps_heap_get; apply _
    | apply keeps_dom_get; apply _
    | apply keeps_dom_alter; apply _
    | apply keeps_set_cursor; apply _
    | apply keeps_run_component; apply _
    | apply keeps_getFirstDomFromChildren; apply _
    | apply keeps_getFirstDom; apply _
    | apply keeps_index_by_key; apply _
    | apply keeps_insertInstance; [apply _|auto]
    | apply keeps_unmount; [apply _|auto]
    | apply keeps_createElement; [apply _|auto]
    | apply keeps_createTextNode; [apply _|auto]
    | apply keeps_setDomProps; [apply _|auto]
    | apply keeps_throw | apply keeps_halt
    | k_ret | k_gets ].

Lemma general_modify_hooks f :
  (∀ c, heap (f c) = heap c ∧ trace (f c) = trace c) →
  keeps general (modify f).
Proof.
  intros Hf. apply keeps_modify. intros c.
  destruct (Hf c). by apply steps_same; [apply _|..].
Qed.

Lemma general_alloc inst : keeps general (heap_alloc inst).
Proof.
  intros c a c' [= <- <-]. split; [apply identity_kept_alloc|].
  exists []. by rewrite app_nil_r.
Qed.

Lemma general_set_children l i : keeps general (heap_alter (set_children l) i).
Proof.
  apply keeps_modify. intros c. split.
  - apply identity_kept_alter. by intros x _.
  - exists []. by rewrite app_nil_r.
Qed.

Lemma general_set_path path i : keeps general (heap_alter (set_path path) i).
Proof.
  apply keeps_modify. intros c. split.
  - apply identity_kept_alter. by intros x _.
  - exists []. by rewrite app_nil_r.
Qed.

Theorem reconciler_keeps_identity `{Registry} (fuel : nat) :
  (∀ parentDom instance node path,
     keeps general (reconcile fuel parentDom instance node path))
  ∧ (∀ parentDom node path, keeps general (mount fuel parentDom node path))
  ∧ (∀ parentDom instance node path c a c',
       update_pre instance node c →
       update fuel parentDom instance node path c = Ok a c' →
       general c c')
  ∧ (∀ parentDom instance children' parentPath,
       keeps general
         (reconcileChildren fuel parentDom instance children' parentPath)).
Proof.
  induction fuel as [|fuel (IHrec & IHmount & IHupdate & IHchildren)].
  { split_and!; intros; try apply keeps_halt. done. }
  split_and!.
  - (* reconcile *)
    intros parentDom instance node path. cbn [reconcile].
    destruct node as [node|]; cycle 1.
    { k_bind; [|intros _; k_ret]. destruct instance; prim. }
    destruct instance as [i|]; cycle 1.
    { k_bind; [apply IHmount|intros m; k_ret]. }
    intros c a c' E. apply bind_Ok in E as (inst & c1 & Hget & E).
    assert (c1 = c ∧ heap c !! i = Some inst) as [-> Hi].
    { unfold heap_get in Hget. destruct (heap c !! i); naive_solver. }
    destruct (negb _ || negb _) eqn:Hdiff.
    + revert E. generalize c a c'. 
      k_bind; [prim|intros _].
      k_bind; [apply IHmount|intros m; k_ret].
    + apply orb_false_iff in Hdiff as [Ht Hk].
      apply negb_false_iff in Ht, Hk.
      apply bool_decide_eq_true in Ht. apply key_strict_eq_eq in Hk.
      apply bind_Ok in E as (u & c2 & Hu & E).
      assert (c' = c2) as -> by (unfold ret in E; congruence).
      eapply IHupdate; [|done].
      intros inst0 Hi0. by simplify_eq.
  - (* mount *)
    intros parentDom node path. cbn [mount].
    k_bind.
    { destruct (type node).
      - k_bind; [prim|intros dom; k_ret].
      - k_ret.
      - k_bind; [prim|intros dom]. k_bind; [prim|intros _; k_ret].
      - k_ret. }
    intros kd. k_bind; [apply general_alloc|intros instance].
    k_bind; [apply IHchildren|intros _; k_ret].
  - (* update *)
    intros parentDom instance node path c a c' Hpre. cbn [update].
    intros E. apply bind_Ok in E as (inst & c1 & Hget & E).
    assert (c1 = c ∧ heap c !! instance = Some inst) as [-> Hi].
    { unfold heap_get in Hget. destruct (heap c !! instance); naive_solver. }
    destruct (Hpre inst Hi) as [Ht Hk].
    apply bind_Ok in E as ([] & c2 & Hset & E).
    assert (general c c2) as Hstep.
    { unfold heap_alter, modify in Hset. injection Hset as <-. split.
      - apply identity_kept_alter. intros x Hx. simpl.
        assert (x = inst) as -> by congruence. done.
      - exists []. by rewrite app_nil_r. }
    etrans; [exact Hstep|]. clear Hstep Hset Hpre Hi.
    revert E. generalize c2 a c'.
    k_bind; [apply general_set_path|intros _].
    k_bind.
    { destruct (inst_kind inst), (inst_dom inst); try k_ret.
      - apply keeps_updateDomProps; [apply _|done].
      - k_bind; [prim|intros t]. destruct (bool_decide _); [k_ret|].
        k_bind; [prim|intros _].
        apply keeps_emit; [apply _|]. by apply Forall_singleton. }
    intros _. k_bind; [apply IHchildren|intros _; k_ret].
  - (* reconcileChildren *)
    intros parentDom instance children' parentPath. cbn [reconcileChildren].
    k_bind; [prim|intros inst].
    destruct (bool_decide (inst_kind inst = COMPONENT)).
    + k_bind; [by apply general_modify_hooks|intros _].
      k_bind; [by apply general_modify_hooks|intros _].
      k_bind; [prim|intros _].
      k_bind; [destruct (type (inst_node inst)); prim|intros componentNode].
      k_bind; [apply IHrec|intros childInstance].
      k_bind.
      { destruct childInstance; [|k_ret].
        k_bind; [|intros _; k_ret].
        destruct (ref_differs _ _); prim. }
      intros newChildren'.
      k_bind; [by apply general_modify_hooks|intros _].
      apply general_set_children.
    + k_bind.
      { destruct (bool_decide _); [destruct (inst_dom inst)|]; prim. }
      intros parentDomForChildren.
      k_bind; [prim|intros byKey].
      k_bind.
      { k_fold. intros st [i [child|]]; unfold reconcile_child; [|k_ret].
        destruct (select_oldChild _ _ _ _ _) as [[oldChild byKey'] used'].
        k_bind; [apply IHrec|intros newChild].
        destruct newChild as [nc|]; [|k_ret].
        k_bind; [|intros _; k_ret].
        destruct (_ || _); [|k_ret].
        k_bind; [prim|intros anchor]. prim. }
      intros final.
      k_bind; [|intros _; apply general_set_children].
      k_for. intros oldChild. destruct (bool_decide _); prim.
Qed.

(** ** A fresh mount patches nothing *)

Ltac prim_fresh :=
  first
    [ apply keeps_heap_get; apply _
    | apply keeps_dom_get; apply _
    | apply keeps_dom_alter; apply _
    | apply keeps_set_cursor; apply _
    | apply keeps_run_component; apply _
    | apply keeps_getFirstDomFromChildren; apply _
    | apply keeps_getFirstDom; apply _
    | apply keeps_index_by_key; apply _
    | apply keeps_insertInstance; [apply _|auto]
    | apply keeps_unmount; [apply _|auto]
    | apply keeps_createElement; [apply _|auto]
    | apply keeps_createTextNode; [apply _|auto]
    | apply keeps_setDomProps; [apply _|auto]
    | apply keeps_throw | apply keeps_halt
    | k_ret | k_gets ].

Lemma fresh_modify_hooks f :
  (∀ c, heap (f c) = heap c ∧ trace (f c) = trace c) →
  keeps fresh (modify f).
Proof.
  intros Hf. apply keeps_modify. intros c.
  destruct (Hf c). by apply steps_same; [apply _|..].
Qed.

Lemma fresh_alloc inst : keeps fresh (heap_alloc inst).
Proof.
  intros c a c' [= <- <-]. split; [apply rest_kept_alloc|].
  exists []. by rewrite app_nil_r.
Qed.

Lemma fresh_set_children l i : keeps fresh (heap_alter (set_children l) i).
Proof.
  apply keeps_modify. intros c. split; [apply rest_kept_set_children|].
  exists []. by rewrite app_nil_r.
Qed.

Lemma heap_get_Ok i c inst c1 :
  heap_get i c = Ok inst c1 ↔ c1 = c ∧ heap c !! i = Some inst.
Proof. unfold heap_get. destruct (heap c !! i); naive_solver. Qed.

Lemma select_oldChild_none used childKey i :
  select_oldChild [] [] used childKey i = (None, [], used).
Proof. unfold select_oldChild. by destruct (key_truthy childKey). Qed.

Theorem fresh_mount_keeps `{Registry} (fuel : nat) :
  (∀ parentDom node path,
     keeps fresh (reconcile fuel parentDom None node path))
  ∧ (∀ parentDom node path, keeps fresh (mount fuel parentDom node path))
  ∧ (∀ parentDom instance children' parentPath c a c',
       childless instance c →
       reconcileChildren fuel parentDom instance children' parentPath c
       = Ok a c' →
       fresh c c').
Proof.
  induction fuel as [|fuel (IHrec & IHmount & IHchildren)].
  { split_and!; intros; try apply keeps_halt. done. }
  split_and!.
  - intros parentDom node path. cbn [reconcile].
    destruct node as [node|].
    + k_bind; [apply IHmount|intros m; k_ret].
    + k_bind; [k_ret|intros _; k_ret].
  - intros parentDom node path. cbn [mount].
    intros c a c' E. apply bind_Ok in E as (kd & c1 & Hkd & E).
    assert (fresh c c1) as H1.
    { revert Hkd. generalize c kd c1. destruct (type node).
      - k_bind; [prim_fresh|intros dom; k_ret].
      - k_ret.
      - k_bind; [prim_fresh|intros dom].
        k_bind; [prim_fresh|intros _; k_ret].
      - k_ret. }
    etrans; [exact H1|]. clear H1 Hkd.
    apply bind_Ok in E as (instance & c2 & Halloc & E).
    unfold heap_alloc in Halloc. injection Halloc as <- <-.
    etrans; [by eapply (fresh_alloc _ c1)|].
    apply bind_Ok in E as ([] & c3 & Hch & E).
    assert (c' = c3) as -> by (unfold ret in E; congruence).
    eapply IHchildren; [|exact Hch].
    intros inst. simpl. rewrite lookup_app_r by done.
    rewrite Nat.sub_diag. simpl. by intros [= <-].
  - intros parentDom instance children' parentPath c a c' Hpre.
    cbn [reconcileChildren]. intros E.
    apply bind_Ok in E as (inst & c1 & Hget & E).
    apply heap_get_Ok in Hget as [-> Hi].
    rewrite (Hpre inst Hi) in E. clear Hpre Hi.
    revert E. generalize c a c'.
    destruct (bool_decide (inst_kind inst = COMPONENT)).
    + k_bind; [by apply fresh_modify_hooks|intros _].
      k_bind; [by apply fresh_modify_hooks|intros _].
      k_bind; [prim_fresh|intros _].
      k_bind; [destruct (type (inst_node inst)); prim_fresh|].
      intros componentNode. simpl.
      k_bind; [apply IHrec|intros childInstance].
      k_bind.
      { destruct childInstance; [|k_ret].
        k_bind; [|intros _; k_ret].
        destruct (ref_differs _ _); prim_fresh. }
      intros newChildren'.
      k_bind; [by apply fresh_modify_hooks|intros _].
      apply fresh_set_children.
    + k_bind.
      { destruct (bool_decide _); [destruct (inst_dom inst)|]; prim_fresh. }
      intros parentDomForChildren. unfold index_by_key. cbn [foldM].
      change (bind (ret []) ?f) with (f []). cbv beta.
      k_bind; [|intros final].
      * apply (keeps_foldM_inv _ (λ st, oldChildrenByKey st = []));
          [|done].
        intros st [i [child|]] c0 st' c0' Hst E; unfold reconcile_child in E;
          cycle 1.
        { injection E as <- <-. split; [reflexivity|done]. }
        rewrite Hst, select_oldChild_none in E.
        apply bind_Ok in E as (newChild & c1 & Hrec & E).
        apply IHrec in Hrec.
        destruct newChild as [nc|]; cycle 1.
        { injection E as <- <-. split; done. }
        apply bind_Ok in E as (u & c2 & Hins & E).
        injection E as <- <-. split; [|done].
        etrans; [exact Hrec|]. revert Hins. generalize c1 u c2.
        destruct (_ || _); [|k_ret].
        k_bind; [prim_fresh|intros anchor]. prim_fresh.
      * k_bind; [k_ret|intros _; apply fresh_set_children].
Qed.

Lemma mount_result `{Registry} fuel parentDom node path c m c' :
  mount fuel parentDom node path c = Ok m c' →
  m = length (heap c)
  ∧ ∃ inst', heap c' !! m = Some inst'
      ∧ inst_kind inst' = kind_of (type node)
      ∧ inst_node inst' = node
      ∧ inst_key inst' = key node
      ∧ inst_path inst' = path.
Proof.
  destruct fuel as [|fuel]; [done|]. cbn [mount]. intros E.
  apply bind_Ok in E as (kd & c1 & Hkd & E).
  assert (heap c1 = heap c ∧ kd.1 = kind_of (type node)) as [Hh Hk].
  { destruct (type node).
    - apply bind_Ok in Hkd as (d & c2 & Hd & Hkd).
      unfold createTextNode in Hd. unfold ret in Hkd. by simplify_eq.
    - unfold ret in Hkd. by simplify_eq.
    - apply bind_Ok in Hkd as (d & c2 & Hd & Hkd).
      apply bind_Ok in Hkd as (u & c3 & Hs & Hkd).
      unfold createElement in Hd. destruct (valid_tag_name _); [|done].
      unfold setDomProps in Hs. apply bind_Ok in Hs as (u' & c4 & He & Hs).
      unfold emit, modify in He. destruct (forallb _ _); [|done].
      unfold ret in Hkd, Hs. by simplify_eq.
    - unfold ret in Hkd. by simplify_eq. }
  apply bind_Ok in E as (instance & c2 & Halloc & E).
  unfold heap_alloc in Halloc. injection Halloc as <- <-.
  apply bind_Ok in E as (u & c3 & Hch & E).
  injection E as <- <-. split; [by rewrite Hh|].
  destruct (fresh_mount_keeps fuel) as (_ & _ & Hfresh).
  eapply Hfresh in Hch as [Hrest _].
  - simpl in Hrest.
    destruct (Hrest (length (heap c1))
                {| inst_kind := kd.1; inst_dom := kd.2; inst_node := node;
                   inst_children := []; inst_key := key node;
                   inst_path := path |}) as (inst' & Hi' & Heq).
    { rewrite lookup_app_r by done. by rewrite Nat.sub_diag. }
    exists inst'. split; [done|].
    apply (f_equal inst_kind) in Heq as Hkind.
    apply (f_equal inst_node) in Heq as Hnode.
    apply (f_equal inst_key) in Heq as Hkey.
    apply (f_equal inst_path) in Heq as Hpath.
    simpl in *. split_and!; congruence.
  - intros inst. simpl. rewrite lookup_app_r by done.
    rewrite Nat.sub_diag. simpl. by intros [= <-].
Qed.

Lemma structural_no_patch ev : structural ev = true → negb (is_patch ev) = true.
Proof. by destruct ev. Qed.

Lemma schedule_effects_deferred c :
  schedule_effects c = Ok tt (effects_deferred c).
Proof.
  unfold schedule_effects, effects_deferred, bind, gets, modify, enqueue, ret.
  destruct (effects_queue c) eqn:E; simpl.
  - rewrite app_nil_r. by destruct c.
  - done.
Qed.

#[global] Instance trace_grows_preorder p : PreOrder (trace_grows p).
Proof.
  split.
  - intros c. exists []. by rewrite app_nil_r.
  - intros c1 c2 c3 (e12 & T12 & F12) (e23 & T23 & F23).
    exists (e12 ++ e23). split.
    + by rewrite T23, T12, app_assoc.
    + by apply Forall_app.
Qed.


Lemma attach_root_keeps fuel container :
  keeps (steps eq structural) (attach_root fuel container).
Proof.
  unfold attach_root. k_bind; [k_gets|intros instance].
  destruct instance; [|k_ret].
  k_bind; [apply keeps_getFirstDom; apply _|intros firstDom].
  destruct firstDom; [|k_ret].
  k_bind; [apply keeps_dom_get; apply _|intros dn].
  destruct (dom_parentNode dn); [k_ret|].
  apply keeps_insertInstance; [apply _|done].
Qed.



Lemma foldM_app {S X} (f : S → X → M S) (l1 l2 : list X) : ∀ s c,
  foldM f s (l1 ++ l2) c = bind (foldM f s l1) (λ s1, foldM f s1 l2) c.
Proof.
  induction l1 as [|x l1 IH]; intros s c; [done|].
  cbn [app foldM]. unfold bind.
  destruct (f s x c) as [s' c1| |]; [|done..].
  apply IH.
Qed.

Lemma reconcile_Some `{Registry} fuel parentDom instance node path c r c' :
  reconcile fuel parentDom instance (Some node) path c = Ok r c' →
  ∃ m, r = Some m.
Proof.
  destruct fuel as [|fuel]; [done|]. cbn [reconcile].
  destruct instance as [i|].
  - intros E. apply bind_Ok in E as (inst & c1 & _ & E).
    destruct (_ || _).
    + apply bind_Ok in E as (u & c2 & _ & E).
      apply bind_Ok in E as (m & c3 & _ & E). unfold ret in E.
      exists m. congruence.
    + apply bind_Ok in E as (m & c3 & _ & E). unfold ret in E.
      exists m. congruence.
  - intros E. apply bind_Ok in E as (m & c3 & _ & E). unfold ret in E.
    exists m. congruence.
Qed.

Lemma update_returns `{Registry} fuel parentDom instance node path c u c' :
  update fuel parentDom instance node path c = Ok u c' → u = instance.
Proof.
  destruct fuel as [|fuel]; [done|]. cbn [update]. intros Hu.
  repeat (apply bind_Ok in Hu as (? & ? & _ & Hu)).
  unfold ret in Hu. congruence.
Qed.

(** An old Instance of the same type and key is the one returned. *)
Lemma reconcile_same `{Registry} fuel parentDom i node path c inst r c' :
  heap c !! i = Some inst →
  type_or_key_differs (inst_node inst) node = false →
  reconcile fuel parentDom (Some i) (Some node) path c = Ok r c' →
  r = Some i.
Proof.
  intros Hi Hd. destruct fuel as [|fuel]; [done|]. cbn [reconcile].
  intros E. apply bind_Ok in E as (inst0 & c0 & Hget & E).
  apply heap_get_Ok in Hget as [-> Hi0].
  assert (inst0 = inst) as -> by congruence.
  fold (type_or_key_differs (inst_node inst) node) in E. rewrite Hd in E.
  apply bind_Ok in E as (u & c2 & Hu & E).
  apply update_returns in Hu as ->. unfold ret in E. congruence.
Qed.

(** The first loop of [reconcileChildren]: the map holds, for a key, the
    old child that carries it, when only one does. *)
Lemma index_by_key_unique oldChildren c byKey c1 k old oldInst :
  index_by_key oldChildren c = Ok byKey c1 →
  k ≠ KNull →
  old ∈ oldChildren →
  heap c !! old = Some oldInst →
  inst_key oldInst = k →
  (∀ o io, o ∈ oldChildren → heap c !! o = Some io → inst_key io = k →
           o = old) →
  c1 = c ∧ Map_get k byKey = Some old.
Proof.
  unfold index_by_key. intros E Hk Hin Hold Hkey Huniq.
  assert (∀ l acc byKey c1,
            (∀ o, o ∈ l → o ∈ oldChildren) →
            foldM (λ oldChildrenByKey oldChild,
                     let! inst := heap_get oldChild in
                     if negb (bool_decide (inst_key inst = KNull)) then
                       ret (Map_set (inst_key inst) oldChild oldChildrenByKey)
                     else ret oldChildrenByKey) acc l c = Ok byKey c1 →
            c1 = c
            ∧ (Map_get k acc = Some old ∨ old ∈ l → Map_get k byKey = Some old)
            ∧ (Map_get k acc = None → old ∉ l → Map_get k byKey = None))
    as Hgen.
  { clear E byKey c1. induction l as [|o l IH]; intros acc byKey c1 Hsub E.
    - simpl in E. unfold ret in E. injection E as <- <-.
      split_and!; [done| |done]. intros [?|Hnil]; [done|].
      by apply elem_of_nil in Hnil.
    - simpl in E. apply bind_Ok in E as (acc' & c2 & Hstep & E).
      apply bind_Ok in Hstep as (io & c3 & Hget & Hstep).
      apply heap_get_Ok in Hget as [-> Hio].
      assert (c2 = c ∧ acc' = if negb (bool_decide (inst_key io = KNull))
                              then Map_set (inst_key io) o acc else acc)
        as [-> ->].
      { destruct (negb _); unfold ret in Hstep; by simplify_eq. }
      apply IH in E as (-> & Hsome & Hnone);
        [|intros o' Ho'; apply Hsub; by right].
      split; [done|].
      assert (o ∈ oldChildren) as Ho by (apply Hsub; by left).
      destruct (decide (inst_key io = k)) as [Hik|Hik].
      + assert (o = old) as -> by (by eapply Huniq).
        rewrite bool_decide_eq_false_2 in Hsome, Hnone by congruence.
        simpl in *. rewrite Hik in *. rewrite Map_get_set_eq in *.
        split; [intros _; by apply Hsome; left|].
        intros _ Hnot. exfalso. apply Hnot. by left.
      + assert (o ≠ old) as Hne.
        { intros ->. apply Hik. congruence. }
        assert (Map_get k (if negb (bool_decide (inst_key io = KNull))
                           then Map_set (inst_key io) o acc else acc)
                = Map_get k acc) as Hsame.
        { destruct (negb _); [|done]. by rewrite Map_get_set_ne. }
        rewrite Hsame in *. split.
        * intros [?|Hin']; apply Hsome; [by left|right].
          apply elem_of_cons in Hin' as [?|?]; [congruence|done].
        * intros Hacc Hnot. apply Hnone; [done|].
          intros ?. apply Hnot. by right. }
  destruct (Hgen _ _ _ _ (λ o Ho, Ho) E) as (-> & Hsome & _).
  split; [done|]. apply Hsome. by right.
Qed.

Section ChildLoop.
Context `{Registry}.
Context (fuel parentDom : nat) (parentPath : string)
        (children' : list (option VNode)) (oldChildren : list nat).

Local Abbreviation step :=
  (reconcile_child (reconcile fuel) fuel parentDom parentPath children'
                   oldChildren).

Lemma reconcile_child_general st ic : keeps general (step st ic).
Proof.
  destruct (reconciler_keeps_identity fuel) as (IHrec & _).
  destruct ic as [i [child|]]; unfold reconcile_child; [|k_ret].
  destruct (select_oldChild _ _ _ _ _) as [[oldChild byKey'] used'].
  k_bind; [apply IHrec|intros newChild].
  destruct newChild as [nc|]; [|k_ret].
  k_bind; [|intros _; k_ret].
  destruct (_ || _); [|k_ret].
  k_bind; [apply keeps_getFirstDomFromChildren; apply _|intros anchor].
  apply keeps_insertInstance; [apply _|]. apply structural_dom_event.
Qed.

(** One turn of the loop appends the Instance of a rendered child, and
    takes from the map at most the key of that child. *)
Lemma reconcile_child_appends st i child c st' c' :
  step st (i, child) c = Ok st' c' →
  (∃ more, newChildren st' = newChildren st ++ more
           ∧ length more = if is_rendered child then 1 else 0)
  ∧ ∀ k, (∀ ch, child = Some ch → key ch ≠ k) →
         Map_get k (oldChildrenByKey st') = Map_get k (oldChildrenByKey st).
Proof.
  unfold reconcile_child. destruct child as [child|]; cycle 1.
  { intros [= <- <-]. split; [|done]. exists []. by rewrite app_nil_r. }
  destruct (select_oldChild _ _ _ _ _) as [[oldChild byKey'] used'] eqn:Hsel.
  intros E. apply bind_Ok in E as (newChild & c1 & Hrec & E).
  apply reconcile_Some in Hrec as (nc & ->).
  apply bind_Ok in E as (u & c2 & _ & E). unfold ret in E.
  injection E as <- <-. simpl. split; [by exists [nc]|].
  intros k Hk. unfold select_oldChild in Hsel.
  destruct (key_truthy (key child)).
  - destruct (Map_get (key child) (oldChildrenByKey st)); simplify_eq; [|done].
    apply Map_get_delete_ne. intros ->. by eapply Hk.
  - destruct (oldChildren !! i); by simplify_eq.
Qed.

(** The loop over a stretch of children none of which carries [k]. *)
Lemma loop_before (k : Key) (l : list (nat * option VNode)) : ∀ st c st' c',
  foldM step st l c = Ok st' c' →
  general c c'
  ∧ ((∀ i ch, (i, Some ch) ∈ l → key ch ≠ k) →
     Map_get k (oldChildrenByKey st') = Map_get k (oldChildrenByKey st))
  ∧ ∃ more, newChildren st' = newChildren st ++ more
            ∧ length more = length (filter (λ ic, is_rendered ic.2 = true) l).
Proof.
  induction l as [|[i child] l IH]; intros st c st' c' E.
  - injection E as <- <-. split_and!; [reflexivity|done|].
    exists []. by rewrite app_nil_r.
  - cbn [foldM] in E. apply bind_Ok in E as (st1 & c1 & Hstep & E).
    pose proof (reconcile_child_general _ _ _ _ _ Hstep) as Hg1.
    apply reconcile_child_appends in Hstep as [(m1 & Hm1 & Hlen1) Hmap1].
    apply IH in E as (Hg2 & Hmap2 & m2 & Hm2 & Hlen2).
    split_and!.
    + by etrans.
    + intros Hl. rewrite Hmap2 by (intros i' ch' Hin; eapply Hl; by right).
      apply Hmap1. intros ch ->. eapply Hl. by left.
    + exists (m1 ++ m2). split; [by rewrite Hm2, Hm1, app_assoc|].
      rewrite length_app, Hlen1, Hlen2, filter_cons. simpl.
      by destruct (is_rendered child).
Qed.

End ChildLoop.

Lemma imap_pairs_elem (l : list (option VNode)) i ch :
  (i, ch) ∈ imap (λ i child, (i, child)) l → l !! i = Some ch.
Proof.
  intros Hin. apply list_elem_of_lookup in Hin as [n Hn].
  rewrite list_lookup_imap in Hn.
  destruct (l !! n) eqn:E; simpl in Hn; by simplify_eq.
Qed.

Lemma imap_pairs_rendered (l : list (option VNode)) :
  length (filter (λ ic : nat * option VNode, is_rendered ic.2 = true)
                 (imap (λ i child, (i, child)) l))
  = length (filter (λ s, is_rendered s = true) l).
Proof.
  generalize 0 as n. 
  assert (∀ n, length (filter (λ ic : nat * option VNode,
                                 is_rendered ic.2 = true)
                         (imap (λ i child, (n + i, child)) l))
               = length (filter (λ s, is_rendered s = true) l)) as Hgen.
  { induction l as [|x l IH]; intros n; [done|].
    rewrite imap_cons.
    rewrite (imap_ext _ (λ i child, (S n + i, child)))
      by (intros; simpl; f_equal; lia).
    rewrite !filter_cons. cbn [snd].
    destruct (decide (is_rendered x = true)); cbn [length]; by rewrite IH. }
  intros _. apply (Hgen 0).
Qed.

(** A keyed child is reused whatever its index: when [reconcileChildren]
    on a parent that is no component returns, a child of the new list with
    a truthy key, the first with that key, of the type and key of the one
    old child with that key, has that old Instance as its Instance, at the
    position of the child among the rendered children, with the kind, DOM
    node and key it had; its identity path depends on the key only. *)
Theorem keyed_child_reused `{Registry} (fuel : nat) (parentDom : nat)
    (parent : nat) (children' : list (option VNode)) (parentPath : string)
    (c c' : Context) (inst : Inst) (j : nat) (child : VNode) (old : nat)
    (oldInst : Inst) :
  heap c !! parent = Some inst →
  inst_kind inst ≠ COMPONENT →
  children' !! j = Some (Some child) →
  key_truthy (key child) = true →
  (∀ j' child', j' < j → children' !! j' = Some (Some child') →
                key child' ≠ key child) →
  old ∈ inst_children inst →
  heap c !! old = Some oldInst →
  inst_key oldInst = key child →
  key (inst_node oldInst) = key child →
  type (inst_node oldInst) = type child →
  (∀ o io, o ∈ inst_children inst → heap c !! o = Some io →
           inst_key io = key child → o = old) →
  reconcileChildren fuel parentDom parent children' parentPath c = Ok tt c' →
  ∃ inst' oldInst',
    heap c' !! parent = Some inst'
    ∧ inst_children inst'
        !! count_before is_rendered children' j = Some old
    ∧ heap c' !! old = Some oldInst'
    ∧ inst_kind oldInst' = inst_kind oldInst
    ∧ inst_dom oldInst' = inst_dom oldInst
    ∧ inst_key oldInst' = inst_key oldInst
    ∧ createChildPath parentPath (key child) j (Some (type child))
                      (Some children')
      = parentPath +:+ ".k" +:+ key_to_string (key child).
Proof.
  intros Hparent Hkind Hj Htruthy Hfirst Hold Hoi Hkey Hnkey Htype Huniq E.
  assert (key child ≠ KNull) as Hnn by (by destruct (key child)).
  destruct fuel as [|fuel]; [done|]. cbn [reconcileChildren] in E.
  apply bind_Ok in E as (inst0 & c0 & Hget & E).
  apply heap_get_Ok in Hget as [-> Hi0].
  assert (inst0 = inst) as -> by congruence.
  rewrite bool_decide_eq_false_2 in E by done.
  apply bind_Ok in E as (pd' & c0 & Hpd & E).
  assert (c0 = c) as ->.
  { destruct (bool_decide _); [destruct (inst_dom inst)|];
      unfold ret, halt in Hpd; by simplify_eq. }
  apply bind_Ok in E as (byKey & c0 & Hidx & E).
  destruct (index_by_key_unique _ _ _ _ _ _ _ Hidx Hnn Hold Hoi Hkey Huniq)
    as [-> Hmap].
  apply bind_Ok in E as (final & c1 & Hloop & E).
  apply bind_Ok in E as (u & c2 & Hun & E).
  unfold heap_alter, modify in E. injection E as <-.
  (* the loop, split at [j] *)
  rewrite <- (take_drop_middle _ _ _ Hj) in Hloop at 2.
  rewrite imap_app, foldM_app in Hloop.
  apply bind_Ok in Hloop as (st1 & ca & Hbefore & Hloop).
  rewrite imap_cons in Hloop. cbn [foldM] in Hloop.
  apply bind_Ok in Hloop as (st2 & cb & Hat & Hafter).
  assert (length (take j children') = j) as Hlenj.
  { apply length_take_le. apply lookup_lt_Some in Hj. lia. }
  rewrite Hlenj, Nat.add_0_r in Hat.
  apply (loop_before _ _ _ _ _ (key child)) in Hbefore
    as (Hga & Hmapa & ma & Hma & Hlena).
  assert (Map_get (key child) (oldChildrenByKey st1) = Some old) as Hmap1.
  { rewrite Hmapa; [exact Hmap|].
    intros i ch Hin. apply imap_pairs_elem in Hin.
    apply lookup_take_Some in Hin as [Hin Hlt]. by eapply Hfirst. }
  clear Hmapa. simpl in Hma.
  rewrite imap_pairs_rendered in Hlena.
  (* the turn of the child *)
  assert (newChildren st2 = newChildren st1 ++ [old] ∧ general ca cb)
    as [Hst2 Hgb].
  { pose proof (reconcile_child_general _ _ _ _ _ _ _ _ _ _ Hat) as Hg.
    split; [|done].
    unfold reconcile_child in Hat.
    unfold select_oldChild in Hat. rewrite Htruthy, Hmap1 in Hat.
    apply bind_Ok in Hat as (newChild & cr & Hrec & Hat).
    destruct Hga as [Hkept _].
    destruct (Hkept _ _ Hoi) as (oi' & Hoi' & _ & _ & _ & Ht' & Hk').
    eapply reconcile_same in Hrec as ->; [|exact Hoi'|].
    - apply bind_Ok in Hat as (u' & cr' & _ & Hat). unfold ret in Hat.
      by injection Hat as <- <-.
    - unfold type_or_key_differs. rewrite Ht', Hk', Htype, Hnkey.
      unfold type_strict_eq. rewrite bool_decide_eq_true_2 by done.
      by rewrite key_strict_eq_refl. }
  (* the rest of the loop *)
  apply (loop_before _ _ _ _ _ KNull) in Hafter
    as (Hgc & _ & mc & Hmc & _).
  (* the old children that were not used *)
  assert (general c1 c2) as Hgd.
  { revert Hun. generalize c1 u c2. k_for. intros oldChild.
    destruct (bool_decide (oldChild ∈ usedOldChildren final)); [k_ret|].
    apply keeps_unmount; [apply _|]. apply structural_dom_event. }
  assert (general c c2) as [Hkept _].
  { etrans; [exact Hga|]. etrans; [exact Hgb|]. by etrans. }
  destruct (Hkept _ _ Hparent) as (inst2 & Hi2 & _).
  destruct (Hkept _ _ Hoi) as (oi2 & Hoi2 & Hk2 & Hd2 & Hkey2 & _).
  exists (set_children (newChildren final) inst2).
  destruct (decide (parent = old)) as [->|Hne].
  - exists (set_children (newChildren final) oi2). simpl.
    rewrite list_lookup_alter_eq, Hoi2. simpl.
    assert (inst2 = oi2) as -> by congruence.
    split_and!; try done.
    + rewrite Hmc, Hst2, Hma. unfold count_before. rewrite <- Hlena.
      rewrite <- !app_assoc. rewrite lookup_app_r by done.
      by rewrite Nat.sub_diag.
    + unfold createChildPath. by rewrite bool_decide_eq_false_2.
  - exists oi2. simpl.
    rewrite list_lookup_alter_eq, Hi2, list_lookup_alter_ne by done. simpl.
    split_and!; try done.
    + rewrite Hmc, Hst2, Hma. unfold count_before. rewrite <- Hlena.
      rewrite <- !app_assoc. rewrite lookup_app_r by done.
      by rewrite Nat.sub_diag.
    + unfold createChildPath. by rewrite bool_decide_eq_false_2.
Qed.

Lemma subtree_ok_mono d d' b b' h n n' i :
  d ≤ d' → b' ≤ b → n ≤ n' →
  subtree_ok d b h n i → subtree_ok d' b' h n' i.
Proof.
  revert d' i. induction d as [|d IH]; intros d' i Hd Hb Hn; [done|].
  destruct d' as [|d']; [lia|]. simpl.
  intros (Hbi & inst & Hi & Hdom & Hch). split; [lia|].
  exists inst. split_and!; [done| |].
  - intros x Hx. specialize (Hdom x Hx). lia.
  - eapply Forall_impl; [exact Hch|]. intros j. apply IH; lia.
Qed.

Lemma subtree_ok_app d b h more n i :
  subtree_ok d b h n i → subtree_ok d b (h ++ more) n i.
Proof.
  revert i. induction d as [|d IH]; intros i; [done|]. simpl.
  intros (Hbi & inst & Hi & Hdom & Hch). split; [done|].
  exists inst. split_and!; [by apply lookup_app_l_Some|done|].
  eapply Forall_impl; [exact Hch|]. intros j. apply IH.
Qed.

Lemma subtree_ok_alter d b h f j n i :
  j < b → subtree_ok d b h n i → subtree_ok d b (alter f j h) n i.
Proof.
  intros Hj. revert i. induction d as [|d IH]; intros i; [done|]. simpl.
  intros (Hbi & inst & Hi & Hdom & Hch). split; [done|].
  exists inst. split_and!; [|done|].
  - rewrite list_lookup_alter_ne by lia. done.
  - eapply Forall_impl; [exact Hch|]. intros k. apply IH.
Qed.

Lemma foldM_ret_Ok {S X} (f : S → X → M S) (l : list X) (P : S → Prop) c :
  (∀ s x, x ∈ l → P s → ∃ s', f s x c = Ok s' c ∧ P s') →
  ∀ s, P s → ∃ s', foldM f s l c = Ok s' c ∧ P s'.
Proof.
  induction l as [|x l IH]; intros Hf s Hs.
  - by exists s.
  - destruct (Hf s x) as (s1 & H1 & Hs1); [by left|done|].
    cbn [foldM]. rewrite (bind_Ok_eq _ _ _ _ _ H1).
    apply IH; [|done]. intros s' y Hy. apply Hf. by right.
Qed.

Lemma getDomNodes_ok d b c i fuel :
  subtree_ok d b (heap c) (length (document c)) i → d ≤ fuel →
  ∃ nodes, getDomNodes fuel (Some i) c = Ok nodes c
           ∧ Forall (λ x, x < length (document c)) nodes.
Proof.
  revert i fuel. induction d as [|d IH]; intros i fuel; [done|].
  intros (_ & inst & Hi & Hdom & Hch) Hfuel.
  destruct fuel as [|fuel]; [lia|]. cbn [getDomNodes].
  assert (heap_get i c = Ok inst c) as Hget by (by apply heap_get_Ok).
  rewrite (bind_Ok_eq _ _ _ _ _ Hget).
  destruct (owns_dom (inst_kind inst)).
  - eexists. split; [reflexivity|].
    destruct (inst_dom inst) as [x|]; [|done].
    apply Forall_singleton. by apply Hdom.
  - apply (foldM_ret_Ok _ _ (Forall (λ x, x < length (document c))));
      [|done].
    intros nodes child Hchild Hnodes.
    rewrite Forall_forall in Hch.
    destruct (IH child fuel (Hch _ Hchild)) as (more & Hmore & Hvalid);
      [lia|].
    rewrite (bind_Ok_eq _ _ _ _ _ Hmore). eexists. split; [reflexivity|].
    by apply Forall_app.
Qed.

Lemma forM_in_place {X} (f : X → M unit) (l : list X) (h : list Inst)
    (n : nat) :
  (∀ x c, x ∈ l → heap c = h → length (document c) = n →
          ∃ c', f x c = Ok tt c' ∧ heap c' = h ∧ length (document c') = n) →
  ∀ c, heap c = h → length (document c) = n →
       ∃ c', forM_ f l c = Ok tt c' ∧ heap c' = h
             ∧ length (document c') = n.
Proof.
  unfold forM_. induction l as [|x l IH]; intros Hf c Hh Hn.
  - by exists c.
  - destruct (Hf x c) as (c1 & H1 & Hh1 & Hn1); [by left|done..|].
    cbn [foldM]. rewrite (bind_Ok_eq _ _ _ _ _ H1).
    apply IH; [|done..]. intros y c0 Hy. apply Hf. by right.
Qed.

Lemma detach_in_place node c :
  node < length (document c) → returns_in_place (detach node) c.
Proof.
  intros Hn. unfold returns_in_place, detach.
  destruct (lookup_lt_is_Some_2 _ _ Hn) as [dn Hdn].
  assert (dom_get node c = Ok dn c) as Hget.
  { unfold dom_get. by rewrite Hdn. }
  rewrite (bind_Ok_eq _ _ _ _ _ Hget).
  destruct (dom_parentNode dn).
  - eexists. split; [reflexivity|]. simpl. by rewrite !length_alter.
  - by exists c.
Qed.

Lemma removeChild_in_place node c :
  node < length (document c) → returns_in_place (removeChild node) c.
Proof.
  intros Hn. unfold returns_in_place, removeChild.
  destruct (lookup_lt_is_Some_2 _ _ Hn) as [dn Hdn].
  assert (dom_get node c = Ok dn c) as Hget.
  { unfold dom_get. by rewrite Hdn. }
  rewrite (bind_Ok_eq _ _ _ _ _ Hget).
  destruct (dom_parentNode dn); [|by exists c].
  destruct (detach_in_place node c Hn) as (c1 & H1 & Hh1 & Hn1).
  rewrite (bind_Ok_eq _ _ _ _ _ H1).
  eexists. split; [reflexivity|]. done.
Qed.

Lemma appendChild_in_place parentDom node c :
  node < length (document c) →
  returns_in_place (appendChild parentDom node) c.
Proof.
  intros Hn. unfold returns_in_place, appendChild.
  destruct (detach_in_place node c Hn) as (c1 & H1 & Hh1 & Hn1).
  rewrite (bind_Ok_eq _ _ _ _ _ H1).
  eexists. split; [reflexivity|]. simpl. by rewrite !length_alter.
Qed.

Lemma insertInstance_in_place d b c i fuel parentDom :
  subtree_ok d b (heap c) (length (document c)) i → d ≤ fuel →
  returns_in_place (insertInstance fuel parentDom (Some i) None) c.
Proof.
  intros Hok Hfuel. unfold returns_in_place, insertInstance.
  destruct (getDomNodes_ok _ _ _ _ _ Hok Hfuel) as (nodes & Hnodes & Hvalid).
  rewrite (bind_Ok_eq _ _ _ _ _ Hnodes).
  apply forM_in_place; [|done..].
  intros x c0 Hx Hh Hn. rewrite Forall_forall in Hvalid.
  destruct (appendChild_in_place parentDom x c0) as (c1 & ? & ? & ?);
    [rewrite Hn; by apply Hvalid|].
  exists c1. split_and!; congruence.
Qed.

Lemma removeInstance_in_place d b c i fuel :
  subtree_ok d b (heap c) (length (document c)) i → d ≤ fuel →
  returns_in_place (removeInstance fuel (Some i)) c.
Proof.
  intros Hok Hfuel. unfold returns_in_place, removeInstance.
  destruct (getDomNodes_ok _ _ _ _ _ Hok Hfuel) as (nodes & Hnodes & Hvalid).
  rewrite (bind_Ok_eq _ _ _ _ _ Hnodes).
  apply forM_in_place; [|done..].
  intros x c0 Hx Hh Hn. rewrite Forall_forall in Hvalid.
  destruct (removeChild_in_place x c0) as (c1 & ? & ? & ?);
    [rewrite Hn; by apply Hvalid|].
  exists c1. split_and!; congruence.
Qed.

(** [unmount] returns on a well-formed subtree. *)
Lemma unmount_in_place d b c i fuel :
  subtree_ok d b (heap c) (length (document c)) i → d < fuel →
  returns_in_place (unmount fuel i) c.
Proof.
  revert i fuel c. induction d as [|d IH]; intros i fuel c; [done|].
  intros Hok Hfuel. pose proof Hok as (_ & inst & Hi & Hdom & Hch).
  destruct fuel as [|fuel]; [lia|]. unfold returns_in_place.
  cbn [unmount].
  assert (heap_get i c = Ok inst c) as Hget by (by apply heap_get_Ok).
  rewrite (bind_Ok_eq _ _ _ _ _ Hget).
  destruct (forM_in_place (unmount fuel) (inst_children inst) (heap c)
              (length (document c))) with (c := c)
    as (c1 & H1 & Hh1 & Hn1); [|done..|].
  { intros x c0 Hx Hh Hn. rewrite Forall_forall in Hch.
    destruct (IH x fuel c0) as (c1 & ? & ? & ?); [|lia|].
    - rewrite Hh, Hn. by apply Hch.
    - exists c1. split_and!; congruence. }
  rewrite (bind_Ok_eq _ _ _ _ _ H1).
  destruct (removeInstance_in_place (S d) b c1 i fuel) as (c2 & ? & ? & ?).
  - by rewrite Hh1, Hn1.
  - lia.
  - exists c2. split_and!; congruence.
Qed.

Lemma host_children_loop `{Registry} d f3 parentDom path children' b :
  mount_returns d → 3 * d ≤ f3 →
  ∀ l : list (nat * option VNode),
    Forall (λ ic, match ic.2 with
                  | Some ch => host_tree d ch
                  | None => True
                  end) l →
  ∀ st c,
    oldChildrenByKey st = [] →
    b ≤ length (heap c) →
    Forall (subtree_ok d b (heap c) (length (document c))) (newChildren st) →
    ∃ st' c',
      foldM (reconcile_child (reconcile (S f3)) (S f3) parentDom path
                             children' [])
            st l c = Ok st' c'
      ∧ (∃ more, heap c' = heap c ++ more)
      ∧ length (document c) ≤ length (document c')
      ∧ Forall (subtree_ok d b (heap c') (length (document c')))
               (newChildren st').
Proof.
  intros IHd Hfuel l. induction l as [|[j child] l IHl];
    intros Hl st c Hst Hb Hnew.
  { exists st, c. split_and!; [done|by exists []; rewrite app_nil_r|done..]. }
  apply Forall_cons in Hl as [Hchild Hl]. cbn [foldM].
  destruct child as [child|]; cycle 1.
  { unfold reconcile_child at 1. rewrite (bind_Ok_eq _ _ c st c) by done.
    by apply IHl. }
  simpl in Hchild.
  destruct (IHd child Hchild f3 parentDom
              (createChildPath path (key child) j (Some (type child))
                               (Some children')) c Hfuel)
    as (m & c1 & Hm & (more1 & Hh1) & Hn1 & Hok1).
  destruct (insertInstance_in_place d (length (heap c)) c1 m (S f3) parentDom)
    as (c2 & Hins & Hh2 & Hn2); [done|lia|].
  set (st1 := mkLoopState [] (usedOldChildren st) (newChildren st ++ [m])).
  assert (reconcile_child (reconcile (S f3)) (S f3) parentDom path
                          children' [] st (j, Some child) c = Ok st1 c2)
    as Hstep.
  { unfold reconcile_child. rewrite Hst, select_oldChild_none.
    assert (reconcile (S f3) parentDom None (Some child)
              (createChildPath path (key child) j (Some (type child))
                               (Some children')) c = Ok (Some m) c1) as Hrec.
    { cbn [reconcile]. by rewrite (bind_Ok_eq _ _ _ _ _ Hm). }
    rewrite (bind_Ok_eq _ _ _ _ _ Hrec).
    replace (ref_differs (Some m) None) with true by done.
    cbn [orb]. rewrite drop_nil.
    assert ((let! anchor := getFirstDomFromChildren (S f3) [] in
             insertInstance (S f3) parentDom (Some m) anchor) c1
            = Ok tt c2) as Hin.
    { unfold getFirstDomFromChildren. cbn [foldM].
      by rewrite (bind_Ok_eq _ _ c1 None c1). }
    by rewrite (bind_Ok_eq _ _ _ _ _ Hin). }
  rewrite (bind_Ok_eq _ _ _ _ _ Hstep).
  destruct (IHl Hl st1 c2) as (st' & c' & Hloop & (more & Hh) & Hn & Hnew');
    [done| | |].
  { rewrite Hh2, Hh1, length_app. lia. }
  { rewrite Hh2, Hn2. subst st1. cbn [newChildren].
    apply Forall_app. split.
    - eapply Forall_impl; [exact Hnew|]. intros k Hk. rewrite Hh1.
      apply subtree_ok_app. by eapply subtree_ok_mono; [..|exact Hk].
    - apply Forall_singleton. by eapply subtree_ok_mono; [..|exact Hok1]. }
  exists st', c'. split_and!; [done| |lia|done].
  exists (more1 ++ more). by rewrite Hh, Hh2, Hh1, <-(assoc_L (++)).
Qed.

Lemma imap_pairs_host `{Registry} d (children' : list (option VNode)) :
  Forall (λ c, match c with Some ch => host_tree d ch | None => True end)
         children' →
  Forall (λ ic : nat * option VNode,
            match ic.2 with Some ch => host_tree d ch | None => True end)
         (imap (λ i child, (i, child)) children').
Proof.
  intros Hch. apply Forall_forall. intros [i child] Hin.
  apply elem_of_lookup_imap in Hin as (j & x & [= -> ->] & Hj).
  rewrite Forall_forall in Hch. apply Hch. by eapply list_elem_of_lookup_2.
Qed.

(** The children of a node without components, reconciled under an
    Instance that has no child yet and is not a component. *)
Lemma reconcileChildren_leaf `{Registry} d f3 parentDom i children' path c
    inst :
  mount_returns d → 3 * d ≤ f3 →
  heap c !! i = Some inst →
  inst_children inst = [] →
  inst_kind inst ≠ COMPONENT →
  (inst_kind inst = HOST → is_Some (inst_dom inst)) →
  Forall (λ c, match c with Some ch => host_tree d ch | None => True end)
         children' →
  ∃ l more c',
    reconcileChildren (S (S f3)) parentDom i children' path c = Ok tt c'
    ∧ heap c' = alter (set_children l) i (heap c) ++ more
    ∧ length (document c) ≤ length (document c')
    ∧ Forall (subtree_ok d (length (heap c)) (heap c')
                         (length (document c'))) l.
Proof.
  intros IHd Hfuel Hi Hleaf Hk Hhost Hch.
  cbn [reconcileChildren].
  rewrite (bind_Ok_eq _ _ c inst c) by (by apply heap_get_Ok).
  rewrite bool_decide_eq_false_2 by done.
  set (pd := if bool_decide (inst_kind inst = HOST)
             then default parentDom (inst_dom inst) else parentDom).
  rewrite (bind_Ok_eq _ _ c pd c); cycle 1.
  { subst pd. destruct (bool_decide (inst_kind inst = HOST)) eqn:E; [|done].
    apply bool_decide_eq_true in E. by destruct (Hhost E) as [x ->]. }
  rewrite Hleaf. unfold index_by_key. cbn [foldM].
  rewrite (bind_Ok_eq _ _ c [] c) by done.
  destruct (host_children_loop d f3 pd path children' (length (heap c))
              IHd Hfuel _ (imap_pairs_host _ _ Hch)
              (mkLoopState [] ∅ []) c)
    as (final & c3 & Hloop & (more & Hh3) & Hn3 & Hnew); [done..|].
  rewrite (bind_Ok_eq _ _ _ _ _ Hloop).
  unfold forM_ at 1. cbn [foldM].
  rewrite (bind_Ok_eq _ _ c3 tt c3) by done.
  unfold heap_alter, modify.
  pose proof (lookup_lt_Some _ _ _ Hi) as Hlt.
  eexists (newChildren final), more, _. split; [reflexivity|]. simpl.
  split_and!.
  - rewrite Hh3. by apply alter_app_l.
  - done.
  - eapply Forall_impl; [exact Hnew|]. intros k Hsub.
    by apply subtree_ok_alter.
Qed.

(** Mounting a tree without components returns, given three units of fuel
    for each level of the tree. *)
Theorem mount_host_tree `{Registry} d : mount_returns d.
Proof.
  induction d as [|d IHd]; [by intros node []|].
  intros node (Hty & Hacc & Hch) fuel parentDom path c Hfuel.
  destruct fuel as [|[|[|f3]]]; try lia. cbn [mount].
  assert (∃ kd c1,
    match type node with
    | TEXT_ELEMENT =>
        let! dom := createTextNode (default "" (nodeValue (props node))) in
        ret (TEXT, Some dom)
    | Fragment => ret (FRAGMENT, None)
    | Component _ => ret (COMPONENT, None)
    | Host tag =>
        let! dom := createElement tag in
        setDomProps dom (props node) >> ret (HOST, Some dom)
    end c = Ok kd c1
    ∧ heap c1 = heap c
    ∧ length (document c) ≤ length (document c1)
    ∧ (∀ x, kd.2 = Some x → x < length (document c1))
    ∧ kd.1 ≠ COMPONENT
    ∧ (kd.1 = HOST → is_Some kd.2))
    as (kd & c1 & Hkd & Hh1 & Hn1 & Hdom & Hk & Hhost).
  { revert Hty Hacc. unfold host_accepted.
    destruct (type node) as [| |tag|fn]; intros Hty Hacc.
    - eexists _, _. split; [reflexivity|]. simpl. rewrite length_app.
      split_and!; [done|lia| |done|done].
      intros x [= <-]. simpl. lia.
    - exists (FRAGMENT, None), c. by split_and!.
    - destruct Hacc as [Htag Hprops]. eexists _, _. split.
      { unfold createElement, setDomProps, emit, modify, bind.
        rewrite Htag, Hprops. reflexivity. }
      simpl. rewrite length_app.
      split_and!; [done|lia| |done|by eexists].
      intros x [= <-]. simpl. lia.
    - by destruct (Hty fn). }
  rewrite (bind_Ok_eq _ _ _ _ _ Hkd).
  set (new := {| inst_kind := kd.1; inst_dom := kd.2; inst_node := node;
                 inst_children := []; inst_key := key node;
                 inst_path := path |}).
  set (c2 := with_heap (heap c1 ++ [new]) c1).
  rewrite (bind_Ok_eq _ _ c1 (length (heap c1)) c2) by done.
  rewrite Hh1.
  assert (heap c2 = heap c ++ [new]) as Hh2
    by (by subst c2; simpl; rewrite Hh1).
  assert (heap c2 !! length (heap c) = Some new) as Hi.
  { by rewrite Hh2, lookup_app_r, Nat.sub_diag. }
  destruct (reconcileChildren_leaf d f3 parentDom (length (heap c))
              (children (props node)) path c2 new)
    as (l & more & c4 & Hrc & Hh4 & Hn4 & Hl); [done|lia|done..|].
  rewrite (bind_Ok_eq _ _ _ _ _ Hrc). exists (length (heap c)), c4.
  split; [done|].
  rewrite Hh2 in Hh4, Hl.
  rewrite <-(Nat.add_0_r (length (heap c))) in Hh4 at 1.
  rewrite alter_app_r, <-(assoc_L (++)) in Hh4. simpl in Hh4.
  rewrite length_app in Hl. simpl in Hl.
  change (document c2) with (document c1) in Hn4.
  split_and!.
  - by eexists.
  - lia.
  - cbn [subtree_ok]. split; [done|].
    exists (set_children l new). split_and!.
    + by rewrite Hh4, lookup_app_r, Nat.sub_diag.
    + intros x Hx. specialize (Hdom x Hx). lia.
    + simpl. eapply Forall_impl; [exact Hl|]. intros k Hsub.
      eapply subtree_ok_mono; [..|exact Hsub]; lia.
Qed.

(** [update] returns on an Instance that has no child yet and is not a
    component, for a node without components, when the DOM accepts the
    attribute writes of [updateDomProps]. *)
Lemma update_leaf_returns `{Registry} d fuel parentDom i node path c inst :
  heap c !! i = Some inst →
  inst_children inst = [] →
  inst_kind inst ≠ COMPONENT →
  (inst_kind inst = HOST → is_Some (inst_dom inst)) →
  (∀ x, inst_dom inst = Some x → x < length (document c)) →
  (inst_kind inst = HOST →
   forallb call_accepted
     (updateDomProps_calls (attrs (props (inst_node inst)))
                           (attrs (props node))) = true) →
  host_tree d node → 3 * d ≤ fuel →
  ∃ c', update fuel parentDom i node path c = Ok i c'.
Proof.
  intros Hi Hleaf Hk Hhost Hdom Hupd Hnode Hfuel.
  destruct d as [|d]; [done|]. destruct Hnode as (_ & _ & Hch).
  destruct fuel as [|[|[|f3]]]; try lia. cbn [update].
  rewrite (bind_Ok_eq _ _ c inst c) by (by apply heap_get_Ok).
  unfold heap_alter at 1 2, modify at 1 2.
  set (c1 := with_heap (alter (set_node node) i (heap c)) c).
  rewrite (bind_Ok_eq _ _ c tt c1) by done.
  set (c2 := with_heap (alter (set_path path) i (heap c1)) c1).
  rewrite (bind_Ok_eq _ _ c1 tt c2) by done.
  assert (heap c2 !! i = Some (set_path path (set_node node inst))) as Hi2.
  { subst c2 c1. simpl. rewrite !list_lookup_alter_eq, Hi. done. }
  assert (∃ c3,
    match inst_kind inst, inst_dom inst with
    | TEXT, Some textNode =>
        let newNodeValue := default "" (nodeValue (props node)) in
        let! t := dom_get textNode in
        if bool_decide (dom_nodeValue t = newNodeValue) then ret tt
        else
          dom_alter (set_nodeValue newNodeValue) textNode >>
          emit [EvSetNodeValue textNode newNodeValue]
    | HOST, Some dom =>
        updateDomProps dom (props (inst_node inst)) (props node)
    | _, _ => ret tt
    end c2 = Ok tt c3 ∧ heap c3 = heap c2) as (c3 & Hpatch & Hh3).
  { destruct (inst_kind inst) eqn:Hkind, (inst_dom inst) as [x|];
      try (by exists c2).
    { unfold updateDomProps, emit, modify, bind. rewrite Hupd by done.
      by eexists. }
    destruct (lookup_lt_is_Some_2 (document c2) x) as [t Ht];
      [by apply Hdom|].
    cbv zeta. rewrite (bind_Ok_eq _ _ c2 t c2)
      by (unfold dom_get; by rewrite Ht).
    destruct (bool_decide _); [by exists c2|by eexists]. }
  rewrite (bind_Ok_eq _ _ _ _ _ Hpatch).
  destruct (reconcileChildren_leaf d f3 parentDom i (children (props node))
              path c3 (set_path path (set_node node inst)))
    as (l & more & c4 & Hrc & _);
    [apply mount_host_tree|lia|by rewrite Hh3|done..|].
  rewrite (bind_Ok_eq _ _ _ _ _ Hrc). by exists c4.
Qed.

(** The replacing branch of [reconcile] returns when the old subtree is
    well formed and the node has no component. *)
Lemma replace_returns `{Registry} d d' b fuel parentDom i node path c :
  subtree_ok d b (heap c) (length (document c)) i →
  host_tree d' node → d < fuel → 3 * d' ≤ fuel →
  ∃ new c',
    (unmount fuel i >>
     let! m := mount fuel parentDom node path in ret (Some m)) c
    = Ok (Some new) c'.
Proof.
  intros Hold Hnode Hd Hd'.
  destruct (unmount_in_place d b c i fuel Hold Hd) as (c1 & Hun & _).
  destruct (mount_host_tree d' node Hnode fuel parentDom path c1 Hd')
    as (m & c' & Hm & _).
  exists m, c'.
  rewrite (bind_Ok_eq _ _ _ _ _ Hun). by rewrite (bind_Ok_eq _ _ _ _ _ Hm).
Qed.

(** [reconcile] on an old Instance and a node.
    If the types or the keys differ ([!==]), the call is the unmount of the
    old Instance followed by the mount of the node; whenever it returns,
    the Instance returned is at an address that was free before, it holds
    the node, its key and the path, and no event of the call patches a DOM
    node; and it does return when the old subtree is well formed and the
    node has no component and only names that the DOM accepts, given
    enough fuel.
    Otherwise the call is [update] on the old Instance; whenever it
    returns, the very same Instance is returned, with the kind, DOM node
    and key it had; and it does return when the old Instance is a leaf
    that is not a component, the node has no component and the DOM accepts
    its names.  An update of an Instance that has children need not
    return. *)
Theorem reconcile_replace_or_update `{Registry} (fuel : nat)
    (parentDom : nat) (previousInstance : nat) (nextNode : VNode)
    (path : string) (c : Context) (previous : Inst) :
  heap c !! previousInstance = Some previous →
  let run :=
    reconcile (S fuel) parentDom (Some previousInstance) (Some nextNode)
              path c in
  (type_or_key_differs (inst_node previous) nextNode = true →
     run = (unmount fuel previousInstance >>
            let! new := mount fuel parentDom nextNode path in
            ret (Some new)) c
     ∧ (∀ r c', run = Ok r c' →
          ∃ new created,
            r = Some new
            ∧ heap c !! new = None
            ∧ heap c' !! new = Some created
            ∧ inst_node created = nextNode
            ∧ inst_key created = key nextNode
            ∧ inst_path created = path
            ∧ trace_grows (λ ev, negb (is_patch ev)) c c')
     ∧ (∀ d d' b,
          subtree_ok d b (heap c) (length (document c)) previousInstance →
          host_tree d' nextNode → d < fuel → 3 * d' ≤ fuel →
          ∃ r c', run = Ok r c'))
  ∧ (type_or_key_differs (inst_node previous) nextNode = false →
       run = (let! u := update fuel parentDom previousInstance nextNode
                               path in
              ret (Some u)) c
       ∧ (∀ r c', run = Ok r c' →
            ∃ updated,
              r = Some previousInstance
              ∧ heap c' !! previousInstance = Some updated
              ∧ inst_kind updated = inst_kind previous
              ∧ inst_dom updated = inst_dom previous
              ∧ inst_key updated = inst_key previous)
       ∧ (∀ d,
            inst_children previous = [] →
            inst_kind previous ≠ COMPONENT →
            (inst_kind previous = HOST → is_Some (inst_dom previous)) →
            (∀ x, inst_dom previous = Some x → x < length (document c)) →
            (inst_kind previous = HOST →
             forallb call_accepted
               (updateDomProps_calls (attrs (props (inst_node previous)))
                                     (attrs (props nextNode))) = true) →
            host_tree d nextNode → 3 * d ≤ fuel →
            ∃ r c', run = Ok r c')).
Proof.
  intros Hprev run.
  assert (run = (if type_or_key_differs (inst_node previous) nextNode
                 then unmount fuel previousInstance >>
                      let! new := mount fuel parentDom nextNode path in
                      ret (Some new)
                 else let! u := update fuel parentDom previousInstance
                                       nextNode path in
                      ret (Some u)) c) as Hrun.
  { subst run. cbn [reconcile].
    by rewrite (bind_Ok_eq _ _ c previous c) by (by apply heap_get_Ok). }
  clearbody run. subst run.
  split; intros Hd; rewrite Hd; (split; [done|]); split.
  - intros r c' E.
    apply bind_Ok in E as ([] & c1 & Hun & E).
    apply bind_Ok in E as (m & c2 & Hm & E).
    injection E as <- <-.
    pose proof (keeps_unmount eq structural (λ _ h, h) fuel previousInstance
                  _ _ _ Hun) as [Hh1 (e1 & Ht1 & Hf1)].
    destruct (mount_result _ _ _ _ _ _ _ Hm)
      as (-> & created & Hc & _ & Hn & Hk & Hp).
    destruct (fresh_mount_keeps fuel) as (_ & Hfresh & _).
    destruct (Hfresh _ _ _ _ _ _ Hm) as [_ (e2 & Ht2 & Hf2)].
    exists (length (heap c1)), created.
    split_and!; try done.
    + rewrite <- Hh1. by apply lookup_ge_None_2.
    + exists (e1 ++ e2). split; [by rewrite Ht2, Ht1, app_assoc|].
      apply Forall_app. split;
        (eapply Forall_impl; [done|]; apply structural_no_patch).
  - intros d d' b Hold Hnode Hfd Hfd'.
    destruct (replace_returns d d' b fuel parentDom previousInstance
                nextNode path c Hold Hnode Hfd Hfd') as (new & c' & E).
    by exists (Some new), c'.
  - intros r c' E.
    apply bind_Ok in E as (u & c2 & Hu & E).
    injection E as <- <-.
    assert (u = previousInstance) as ->.
    { destruct fuel as [|fuel']; [done|]. cbn [update] in Hu.
      repeat (apply bind_Ok in Hu as (? & ? & _ & Hu)).
      by injection Hu as <- <-. }
    destruct (reconciler_keeps_identity fuel) as (_ & _ & Hupd & _).
    apply orb_false_iff in Hd as [Ht Hk].
    apply negb_false_iff in Ht, Hk.
    apply bool_decide_eq_true in Ht. apply key_strict_eq_eq in Hk.
    assert (update_pre previousInstance nextNode c) as Hpre.
    { intros x Hx. by simplify_eq. }
    destruct (Hupd _ _ _ _ _ _ _ Hpre Hu) as [Hkept _].
    destruct (Hkept _ _ Hprev) as (updated & Hi' & ? & ? & ? & _).
    exists updated. split_and!; done.
  - intros d Hleaf Hk Hhost Hdom Hupd Hnode Hfd.
    destruct (update_leaf_returns d fuel parentDom previousInstance nextNode
                path c previous) as (c' & E); [done..|].
    exists (Some previousInstance), c'.
    by rewrite (bind_Ok_eq _ _ _ _ _ E).
Qed.




(** ** The DOM nodes of an Instance ([core/dom.ts]) *)

#[global] Instance dom_only_preorder : PreOrder dom_only.
Proof.
  split.
  - intros c. exists (document c), (trace c). by destruct c.
  - intros c1 c2 c3 (doc1 & tr1 & ->) (doc2 & tr2 & ->).
    by exists doc2, tr2.
Qed.

Lemma getDomNodes_reads fuel : ∀ instance, keeps eq (getDomNodes fuel instance).
Proof.
  induction fuel as [|fuel IH]; intros instance; cbn [getDomNodes].
  - apply keeps_halt.
  - destruct instance as [i|]; [|k_ret].
    k_bind.
    { intros c a c' E. by apply heap_get_Ok in E as [-> _]. }
    intros inst. destruct (owns_dom _); [k_ret|].
    k_fold. intros nodes child. k_bind; [apply IH|intros more; k_ret].
Qed.

Lemma getFirstDom_first (fuel : nat) (instance : option nat) (c c' : Context)
    (nodes : list nat) :
  getDomNodes fuel instance c = Ok nodes c' →
  getFirstDom fuel instance c = Ok (head nodes) c.
Proof.
  intros E. pose proof (getDomNodes_reads fuel instance c nodes c' E) as <-.
  revert instance nodes E. induction fuel as [|fuel IH];
    intros instance nodes; [done|].
  cbn [getDomNodes getFirstDom]. destruct instance as [i|];
    [|by intros [= <-]].
  intros E. apply bind_Ok in E as (inst & c1 & Hget & E).
  pose proof Hget as Hget'. apply heap_get_Ok in Hget' as [-> _].
  rewrite (bind_Ok_eq _ _ _ _ _ Hget).
  destruct (owns_dom (inst_kind inst)).
  { injection E as <-. by destruct (inst_dom inst). }
  revert E. change (@None nat) with (head (@nil nat)).
  generalize (@nil nat) as acc. generalize nodes.
  induction (inst_children inst) as [|child rest IHrest];
    intros nodes' acc E; cbn [foldM] in *.
  { by injection E as <-. }
  apply bind_Ok in E as (acc' & c1 & Hstep & E).
  apply bind_Ok in Hstep as (more & c2 & Hmore & Hret).
  injection Hret as <- <-.
  pose proof (getDomNodes_reads fuel (Some child) c more c2 Hmore) as <-.
  apply IH in Hmore.
  assert ((match head acc with
           | Some d => ret (Some d)
           | None => getFirstDom fuel (Some child)
           end) c = Ok (head (acc ++ more)) c) as Hfirst.
  { destruct acc as [|d acc]; [done|done]. }
  rewrite (bind_Ok_eq _ _ _ _ _ Hfirst). by apply IHrest.
Qed.

(** [getFirstDom] is the first of [getDomNodes]. *)
Theorem getFirstDom_head (fuel : nat) (instance : option nat) (c c' : Context)
    (nodes : list nat) :
  getDomNodes fuel instance c = Ok nodes c' →
  c' = c ∧ getFirstDom fuel instance c = Ok (head nodes) c.
Proof.
  intros E. split.
  - symmetry. exact (getDomNodes_reads fuel instance c nodes c' E).
  - exact (getFirstDom_first fuel instance c c' nodes E).
Qed.

#[global] Instance dom_steps_preorder p : PreOrder (dom_steps p).
Proof.
  split.
  - intros c. exists (document c), []. rewrite app_nil_r.
    split; [by destruct c|done].
  - intros c1 c2 c3 (doc1 & evs1 & -> & H1) (doc2 & evs2 & -> & H2).
    exists doc2, (evs1 ++ evs2). split; [|by apply Forall_app].
    simpl. by rewrite (assoc_L (++)).
Qed.

#[global] Instance only_removes_preorder : PreOrder only_removes.
Proof.
  split.
  - intros doc. split; [done|]. intros y n Hy. exists n. by split; [|left].
  - intros d1 d2 d3 [Hc12 Hp12] [Hc23 Hp23]. split.
    + intros p d Hn. by apply Hc23, Hc12.
    + intros y n Hy. destruct (Hp12 y n Hy) as (n2 & Hy2 & H2).
      destruct (Hp23 y n2 Hy2) as (n3 & Hy3 & H3).
      exists n3. split; [done|].
      destruct H2 as [H2|[H2 Hn2]], H3 as [H3|[H3 Hn3]].
      * left. congruence.
      * right. split; [done|]. intros p Hp. apply Hn3. congruence.
      * right. split; [congruence|]. intros p Hp. by apply Hc23, Hn2.
      * right. split; [done|]. intros p Hp. by apply Hc23, Hn2.
Qed.

#[global] Instance unmounts_preorder : PreOrder unmounts.
Proof.
  split.
  - intros c. split; reflexivity.
  - intros c1 c2 c3 [H12 H12'] [H23 H23']. split; etrans; done.
Qed.

(** What [detach] does to the document. *)
Lemma detach_document node c c' :
  detach node c = Ok tt c' →
  ∃ n, document c !! node = Some n
       ∧ c' = with_document
                (match dom_parentNode n with
                 | Some p =>
                     alter (set_parentNode None) node
                       (alter (λ pn, set_childNodes
                                 (filter (λ x, x ≠ node) (dom_childNodes pn))
                                 pn) p (document c))
                 | None => document c
                 end) c.
Proof.
  unfold detach. intros E. apply bind_Ok in E as (n & c1 & Hget & E).
  unfold dom_get in Hget. destruct (document c !! node) as [n'|] eqn:Hn;
    [|done].
  injection Hget as -> <-. exists n. split; [done|].
  destruct (dom_parentNode n) as [p|].
  - unfold dom_alter, modify in E. unfold bind in E. simpl in E.
    injection E as <-. by destruct c.
  - injection E as <-. by destruct c.
Qed.

Lemma only_removes_detach node p n doc :
  doc !! node = Some n → dom_parentNode n = Some p →
  let doc' :=
    alter (set_parentNode None) node
      (alter (λ pn, set_childNodes
                (filter (λ x, x ≠ node) (dom_childNodes pn)) pn) p doc) in
  only_removes doc doc'
  ∧ detached doc' node
  ∧ not_child_of doc' p node.
Proof.
  intros Hn Hp doc'.
  assert (∀ q qn', doc' !! q = Some qn' →
            ∃ qn, doc !! q = Some qn
              ∧ dom_childNodes qn' ⊆ dom_childNodes qn
              ∧ (q = p → node ∉ dom_childNodes qn')
              ∧ (if decide (q = node) then dom_parentNode qn' = None
                 else dom_parentNode qn' = dom_parentNode qn)) as Hdoc.
  { intros q qn'. subst doc'. rewrite !list_lookup_alter.
    assert (∀ l : list nat, filter (λ x, x ≠ node) l ⊆ l) as Hsub.
    { intros l x Hx. by apply list_elem_of_filter in Hx as [_ ?]. }
    assert (∀ l : list nat, node ∉ filter (λ x, x ≠ node) l) as Hno.
    { intros l Hx. by apply list_elem_of_filter in Hx as [? _]. }
    repeat case_decide; simplify_eq; rewrite ?Hn; simpl.
    - intros [= <-]. exists n. simpl. by split_and!.
    - intros [= <-]. exists n. simpl. by split_and!.
    - destruct (doc !! q) as [pn|] eqn:Hpn; [|done]. simpl.
      intros [= <-]. exists pn. simpl. by split_and!.
    - intros Hqn. exists qn'. by split_and!. }
  split_and!.
  - split.
    + intros q d Hnot qn' Hq. destruct (Hdoc q qn' Hq) as (qn & Hq0 & Hsub & _).
      intros Hd. by apply (Hnot qn Hq0), Hsub.
    + intros y yn Hy.
      assert (is_Some (doc' !! y)) as [yn' Hy'].
      { apply lookup_lt_is_Some. subst doc'. rewrite !length_alter.
        by eapply lookup_lt_Some. }
      exists yn'. split; [done|].
      destruct (Hdoc y yn' Hy') as (yn0 & Hy0 & _ & _ & Hpar).
      assert (yn0 = yn) as -> by congruence.
      case_decide; [subst y|by left].
      right. split; [done|]. intros p' Hp'.
      assert (p' = p) as -> by congruence.
      intros pn' Hpn'. by destruct (Hdoc p pn' Hpn') as (qn & _ & _ & Hno & _);
        apply Hno.
  - assert (is_Some (doc' !! node)) as [n' Hn'].
    { apply lookup_lt_is_Some. subst doc'. rewrite !length_alter.
      by eapply lookup_lt_Some. }
    exists n'. split; [done|].
    destruct (Hdoc node n' Hn') as (qn & _ & _ & _ & Hpar).
    by case_decide.
  - intros pn' Hpn'. destruct (Hdoc p pn' Hpn') as (qn & _ & _ & Hno & _).
    by apply Hno.
Qed.

(** [removeChild]: the node has left its parent. *)
Lemma removeChild_unmounts node c c' :
  removeChild node c = Ok tt c' →
  unmounts c c'
  ∧ detached (document c') node
  ∧ ∀ n p, document c !! node = Some n → dom_parentNode n = Some p →
           not_child_of (document c') p node.
Proof.
  unfold removeChild. intros E. apply bind_Ok in E as (n & c1 & Hget & E).
  unfold dom_get in Hget. destruct (document c !! node) as [n'|] eqn:Hn;
    [|done].
  injection Hget as -> <-.
  destruct (dom_parentNode n) as [p|] eqn:Hp; cycle 1.
  { injection E as <-. split_and!; [reflexivity| |].
    - by exists n.
    - intros n0 p0 [= <-]. congruence. }
  apply bind_Ok in E as ([] & c1 & Hdet & E).
  apply detach_document in Hdet as (n0 & Hn0 & ->).
  assert (n0 = n) as -> by congruence. rewrite Hp in E.
  unfold emit, modify in E. injection E as <-. simpl.
  destruct (only_removes_detach node p n (document c) Hn Hp)
    as (Hrem & Hdet & Hnot).
  split_and!.
  - split; [|done]. eexists _, [EvRemoveChild p node].
    split; [|by repeat constructor]. by destruct c.
  - done.
  - intros n1 p1 [= <-] Hp1. assert (p1 = p) as -> by congruence. done.
Qed.

Lemma keeps_eq_weaken {A} (R : relation Context) `{!Reflexive R} (m : M A) :
  keeps eq m → keeps R m.
Proof. intros Hm c a c' E. by rewrite (Hm c a c' E). Qed.

Lemma removeInstance_unmounts fuel instance :
  keeps unmounts (removeInstance fuel instance).
Proof.
  unfold removeInstance. destruct instance as [i|]; [|k_ret].
  k_bind; [apply keeps_eq_weaken; [apply _|apply getDomNodes_reads]|].
  intros nodes. k_for. intros x c a c' E. destruct a.
  by apply removeChild_unmounts in E as [? _].
Qed.

Lemma unmount_unmounts fuel : ∀ instance, keeps unmounts (unmount fuel instance).
Proof.
  induction fuel as [|fuel IH]; intros instance; cbn [unmount].
  - apply keeps_halt.
  - k_bind.
    { intros c a c' E. apply heap_get_Ok in E as [-> _]. reflexivity. }
    intros inst. k_bind; [|intros _; apply removeInstance_unmounts].
    k_for. apply IH.
Qed.

(** The nodes that a loop of [removeChild] has seen have left their
    parents. *)
Lemma removeChild_each nodes : ∀ c c',
  forM_ removeChild nodes c = Ok tt c' →
  unmounts c c'
  ∧ ∀ d, d ∈ nodes →
      detached (document c') d
      ∧ ∀ n p, document c !! d = Some n → dom_parentNode n = Some p →
               not_child_of (document c') p d.
Proof.
  unfold forM_. induction nodes as [|x nodes IH]; intros c c' E;
    cbn [foldM] in E.
  { injection E as <-. split; [reflexivity|]. intros d Hd.
    by apply elem_of_nil in Hd. }
  apply bind_Ok in E as ([] & c1 & Hx & E).
  apply removeChild_unmounts in Hx as (H1 & Hdet & Hnot).
  destruct (IH c1 c' E) as (H2 & Hrest).
  split; [by etrans|]. intros d Hd.
  destruct H2 as [_ [Hmono Hpar]].
  assert (∀ y, detached (document c1) y → detached (document c') y) as Hkeep.
  { intros y (n & Hy & Hn). destruct (Hpar y n Hy) as (n' & Hy' & [Hp|[Hp _]]);
      exists n'; split; congruence. }
  destruct (decide (d ∈ nodes)) as [Hin|Hnin].
  - destruct (Hrest d Hin) as [Hd1 Hd2]. split; [done|].
    intros n p Hn Hp.
    destruct H1 as [_ [_ Hpar1]].
    destruct (Hpar1 d n Hn) as (n1 & Hn1 & [Hsame|[_ Hgone]]).
    + apply (Hd2 n1 p Hn1). congruence.
    + by apply Hmono, Hgone.
  - apply elem_of_cons in Hd as [->|Hd]; [|done].
    split; [by apply Hkeep|]. intros n p Hn Hp. by eapply Hmono, Hnot.
Qed.

Lemma getDomNodes_heap fuel : ∀ instance c c1 nodes,
  heap c1 = heap c →
  getDomNodes fuel instance c = Ok nodes c →
  getDomNodes fuel instance c1 = Ok nodes c1.
Proof.
  induction fuel as [|fuel IH]; intros instance c c1 nodes Hh; [done|].
  cbn [getDomNodes]. destruct instance as [i|]; [|by intros [= <-]].
  intros E. apply bind_Ok in E as (inst & c0 & Hget & E).
  apply heap_get_Ok in Hget as [-> Hi].
  rewrite (bind_Ok_eq _ _ c1 inst c1)
    by (apply heap_get_Ok; by rewrite Hh).
  destruct (owns_dom (inst_kind inst)); [by injection E as <-|].
  revert E. generalize (@nil nat) as acc. generalize nodes.
  induction (inst_children inst) as [|child rest IHrest];
    intros nodes' acc E; cbn [foldM] in *.
  { by injection E as <-. }
  apply bind_Ok in E as (acc' & c2 & Hstep & E).
  apply bind_Ok in Hstep as (more & c3 & Hmore & Hret).
  injection Hret as <- <-.
  pose proof (getDomNodes_reads fuel (Some child) c more c3 Hmore) as <-.
  rewrite (bind_Ok_eq _ _ c1 (acc ++ more) c1).
  - by apply IHrest.
  - by rewrite (bind_Ok_eq _ _ _ _ _ (IH _ _ _ _ Hh Hmore)).
Qed.

Lemma dom_steps_heap p c c' : dom_steps p c c' → heap c' = heap c.
Proof. by intros (doc & evs & -> & _). Qed.

(** [unmount] changes nothing but the DOM: the Instance objects, the hook
    state, the effect queue and the scheduler are as they were, the events
    are [removeChild] calls only, and no node has gained a child. *)
Theorem unmount_only_removes (fuel : nat) (instance : nat) (c c' : Context) :
  unmount fuel instance c = Ok tt c' →
  (∃ doc evs, c' = with_trace (trace c ++ evs) (with_document doc c)
              ∧ Forall (λ ev, is_removal ev = true) evs)
  ∧ ∀ p d, not_child_of (document c) p d → not_child_of (document c') p d.
Proof.
  intros E. destruct (unmount_unmounts fuel instance c tt c' E) as [H1 [H2 _]].
  done.
Qed.

(** After [unmount], every DOM node of the Instance has no parent and is
    no child of the parent it had. *)
Theorem unmount_detaches (fuel : nat) (instance : nat) (c c' : Context) :
  unmount (S fuel) instance c = Ok tt c' →
  ∃ nodes,
    getDomNodes fuel (Some instance) c = Ok nodes c
    ∧ ∀ d, d ∈ nodes →
        detached (document c') d
        ∧ ∀ n p, document c !! d = Some n → dom_parentNode n = Some p →
                 not_child_of (document c') p d.
Proof.
  cbn [unmount]. intros E.
  apply bind_Ok in E as (inst & c0 & Hget & E).
  apply heap_get_Ok in Hget as [-> Hi].
  apply bind_Ok in E as ([] & c1 & Hch & E).
  assert (unmounts c c1) as [Hsteps [_ Hpar]].
  { revert Hch. apply keeps_forM_; [apply _|]. apply unmount_unmounts. }
  unfold removeInstance in E.
  apply bind_Ok in E as (nodes & c2 & Hnodes & E).
  pose proof (getDomNodes_reads _ _ _ _ _ Hnodes) as <-.
  exists nodes. split.
  { eapply getDomNodes_heap; [|exact Hnodes].
    symmetry. by eapply dom_steps_heap. }
  destruct (removeChild_each nodes c1 c' E) as ([_ [Hmono _]] & Hrest).
  intros d Hd. destruct (Hrest d Hd) as [Hdet Hnot]. split; [done|].
  intros n p Hn Hp. destruct (Hpar d n Hn) as (n1 & Hn1 & [Hsame|[_ Hgone]]).
  - apply (Hnot n1 p Hn1). congruence.
  - by apply Hmono, Hgone.
Qed.

(** What [appendChild] does to the engine. *)
Lemma appendChild_document parentDom node c c' :
  appendChild parentDom node c = Ok tt c' →
  ∃ c1, detach node c = Ok tt c1
    ∧ c' = with_trace (trace c ++ [EvAppendChild parentDom node])
             (with_document
                (alter (set_parentNode (Some parentDom)) node
                   (alter (λ pn, set_childNodes (dom_childNodes pn ++ [node])
                                                pn)
                          parentDom (document c1))) c).
Proof.
  unfold appendChild. intros E.
  apply bind_Ok in E as ([] & c1 & Hdet & E). exists c1. split; [done|].
  apply detach_document in Hdet as (n & Hn & ->).
  unfold dom_alter, emit, modify, bind in E. simpl in E.
  injection E as <-. by destruct c.
Qed.

Lemma filter_all {A} (P : A → Prop) `{∀ x, Decision (P x)} (l : list A) :
  (∀ y, y ∈ l → P y) → filter P l = l.
Proof.
  induction l as [|a l IH]; [done|]. intros Hl.
  rewrite filter_cons, decide_True by (apply Hl; by left).
  f_equal. apply IH. intros y Hy. apply Hl. by right.
Qed.

(** One [appendChild] of a node other than the parent: the node is the
    last child of the parent and the parent of no other node changes. *)
Lemma appendChild_last parentDom node c c' pn :
  appendChild parentDom node c = Ok tt c' →
  node ≠ parentDom →
  document c !! parentDom = Some pn →
  (∀ n, document c !! node = Some n → node ∈ dom_childNodes pn →
        dom_parentNode n = Some parentDom) →
  dom_steps is_append c c'
  ∧ (∃ pn', document c' !! parentDom = Some pn'
       ∧ dom_childNodes pn'
         = filter (λ y, y ≠ node) (dom_childNodes pn) ++ [node])
  ∧ (∃ n', document c' !! node = Some n'
       ∧ dom_parentNode n' = Some parentDom)
  ∧ (∀ y n, y ≠ node → document c !! y = Some n →
       ∃ n', document c' !! y = Some n'
         ∧ dom_parentNode n' = dom_parentNode n).
Proof.
  intros E Hne Hp Hwf.
  apply appendChild_document in E as (c1 & Hdet & ->).
  apply detach_document in Hdet as (n & Hn & ->). simpl.
  split_and!.
  - eexists _, [EvAppendChild parentDom node].
    split; [by destruct c|by repeat constructor].
  - rewrite list_lookup_alter_ne, list_lookup_alter_eq by done.
    destruct (dom_parentNode n) as [q|] eqn:Hq.
    + rewrite list_lookup_alter_ne by done. rewrite list_lookup_alter.
      case_decide; simplify_eq; rewrite Hp; simpl; eexists; (split; [done|]);
        simpl; [done|].
      f_equal. symmetry. apply filter_all. intros y Hy ->.
      specialize (Hwf n Hn Hy). congruence.
    + rewrite Hp. simpl. eexists. split; [done|]. simpl.
      f_equal. symmetry. apply filter_all. intros y Hy ->.
      specialize (Hwf n Hn Hy). congruence.
  - rewrite list_lookup_alter_eq.
    assert (is_Some (alter
              (λ pn0, set_childNodes (dom_childNodes pn0 ++ [node]) pn0)
              parentDom
              match dom_parentNode n with
              | Some p =>
                  alter (set_parentNode None) node
                    (alter (λ pn0, set_childNodes
                              (filter (λ x, x ≠ node) (dom_childNodes pn0))
                              pn0) p (document c))
              | None => document c
              end !! node)) as [n1 ->].
    { apply lookup_lt_is_Some. rewrite length_alter.
      destruct (dom_parentNode n); rewrite ?length_alter;
        by eapply lookup_lt_Some. }
    simpl. by eexists.
  - intros y ny Hy Hny. rewrite !list_lookup_alter.
    destruct (dom_parentNode n) as [q|];
      rewrite ?list_lookup_alter; repeat case_decide; subst;
      rewrite ?Hny; simpl; try done; by eexists.
Qed.

Lemma filter_filter_not_in (x : nat) (rest l : list nat) :
  filter (λ y, y ∉ rest) (filter (λ y, y ≠ x) l)
  = filter (λ y, y ∉ x :: rest) l.
Proof.
  induction l as [|a l IH]; [done|].
  rewrite !filter_cons. destruct (decide (a ≠ x)) as [Ha|Ha].
  - rewrite filter_cons. destruct (decide (a ∉ rest)) as [Hr|Hr].
    + rewrite decide_True; [by rewrite IH|]. rewrite not_elem_of_cons. done.
    + rewrite decide_False; [done|]. rewrite not_elem_of_cons. tauto.
  - rewrite decide_False; [done|]. rewrite not_elem_of_cons.
    intros [? _]. done.
Qed.

(** A loop of [appendChild] over distinct nodes. *)
Lemma appendChild_each parentDom nodes : ∀ c c' pn,
  forM_ (appendChild parentDom) nodes c = Ok tt c' →
  NoDup nodes → parentDom ∉ nodes →
  document c !! parentDom = Some pn →
  (∀ x n, x ∈ nodes → document c !! x = Some n →
          x ∈ dom_childNodes pn → dom_parentNode n = Some parentDom) →
  dom_steps is_append c c'
  ∧ (∃ pn', document c' !! parentDom = Some pn'
       ∧ dom_childNodes pn'
         = filter (λ y, y ∉ nodes) (dom_childNodes pn) ++ nodes)
  ∧ (∀ x, x ∈ nodes →
       ∃ n', document c' !! x = Some n'
         ∧ dom_parentNode n' = Some parentDom)
  ∧ (∀ y n, y ∉ nodes → document c !! y = Some n →
       ∃ n', document c' !! y = Some n'
         ∧ dom_parentNode n' = dom_parentNode n).
Proof.
  unfold forM_. induction nodes as [|x nodes IH];
    intros c c' pn E Hnd Hnp Hp Hwf; cbn [foldM] in E.
  { injection E as <-. split_and!.
    - reflexivity.
    - exists pn. split; [done|]. rewrite app_nil_r.
      symmetry. apply filter_all. intros y _. apply not_elem_of_nil.
    - intros y Hy. by apply elem_of_nil in Hy.
    - intros y n _ Hy. by exists n. }
  apply bind_Ok in E as ([] & c1 & Hx & E).
  apply NoDup_cons in Hnd as [Hx_notin Hnd].
  apply not_elem_of_cons in Hnp as [Hpx Hnp].
  destruct (appendChild_last parentDom x c c1 pn Hx) as
    (Hs1 & (pn1 & Hp1 & Hch1) & (n1 & Hn1 & Hpar1) & Hframe1);
    [done|done| |].
  { intros n Hn Hin. apply (Hwf x n); [by left|done..]. }
  destruct (IH c1 c' pn1 E Hnd Hnp Hp1) as
    (Hs2 & (pn' & Hp' & Hch') & Hall & Hframe2).
  { intros y ny Hy Hny Hin.
    assert (y ≠ x) as Hyx by (intros ->; done).
    rewrite Hch1 in Hin. apply elem_of_app in Hin as [Hin|Hin];
      [|by apply list_elem_of_singleton in Hin].
    apply list_elem_of_filter in Hin as [_ Hin].
    assert (is_Some (document c !! y)) as [ny0 Hny0].
    { apply lookup_lt_is_Some.
      destruct Hs1 as (doc & evs & -> & _).
      apply appendChild_document in Hx as (c2 & Hdet & Hc1).
      apply detach_document in Hdet as (n & Hn & ->).
      apply lookup_lt_Some in Hny. rewrite Hc1 in Hny. simpl in Hny.
      rewrite !length_alter in Hny.
      destruct (dom_parentNode n); by rewrite ?length_alter in Hny. }
    destruct (Hframe1 y ny0 Hyx Hny0) as (ny' & Hny' & Hsame).
    assert (ny' = ny) as -> by congruence.
    rewrite Hsame. apply (Hwf y ny0); [by right|done..]. }
  split_and!.
  - by etrans.
  - exists pn'. split; [done|]. rewrite Hch', Hch1.
    rewrite filter_app, filter_filter_not_in.
    rewrite (filter_cons _ x), decide_True by done.
    rewrite filter_nil. by rewrite <-(assoc_L (++)).
  - intros y Hy. apply elem_of_cons in Hy as [->|Hy]; [|by apply Hall].
    destruct (Hframe2 x n1 Hx_notin Hn1) as (n' & Hn' & Hsame).
    exists n'. split; [done|congruence].
  - intros y n Hy Hn. apply not_elem_of_cons in Hy as [Hyx Hy].
    destruct (Hframe1 y n Hyx Hn) as (n2 & Hn2 & Hsame2).
    destruct (Hframe2 y n2 Hy Hn2) as (n3 & Hn3 & Hsame3).
    exists n3. split; [done|congruence].
Qed.

(** [insertInstance] without an anchor moves the DOM nodes of the Instance
    to the end of the children of [parentDom], in their order; nothing but
    the document and the trace changes, and the events are [appendChild]
    calls. *)
Theorem insertInstance_appends (fuel : nat) (parentDom : nat)
    (instance : nat) (c c' : Context) (nodes : list nat) (pn : DomNode) :
  getDomNodes fuel (Some instance) c = Ok nodes c →
  NoDup nodes → parentDom ∉ nodes →
  document c !! parentDom = Some pn →
  (∀ x n, x ∈ nodes → document c !! x = Some n →
          x ∈ dom_childNodes pn → dom_parentNode n = Some parentDom) →
  insertInstance fuel parentDom (Some instance) None c = Ok tt c' →
  (∃ doc evs, c' = with_trace (trace c ++ evs) (with_document doc c)
              ∧ Forall (λ ev, is_append ev = true) evs)
  ∧ (∃ pn', document c' !! parentDom = Some pn'
       ∧ dom_childNodes pn'
         = filter (λ y, y ∉ nodes) (dom_childNodes pn) ++ nodes)
  ∧ (∀ x, x ∈ nodes →
       ∃ n', document c' !! x = Some n'
         ∧ dom_parentNode n' = Some parentDom).
Proof.
  intros Hnodes Hnd Hnp Hp Hwf E. unfold insertInstance in E.
  rewrite (bind_Ok_eq _ _ _ _ _ Hnodes) in E.
  destruct (appendChild_each parentDom nodes c c' pn E Hnd Hnp Hp Hwf)
    as (H1 & H2 & H3 & _).
  done.
Qed.

(** ** The hooks ([core/hooks.ts], [core/context.ts]) *)

(** [useState] at the current path and cursor.  On the first visit of the
    slot, the cursor being the length of the hook array, the initial value
    (the thunk called) is appended and returned.  On a later visit the
    stored value is returned whatever the initial value given, and the
    hook arrays stay as they are.  A cursor past the end of the array
    appends the initial value and returns undefined.  The setter is the
    one of this path and cursor, and the cursor of the path moves on by
    one. *)
Theorem useState_visit (initialValue : InitArg) (c : Context)
    (path : string) :
  last (hooks_componentStack c) = Some path →
  let cursor := default 0 (hooks_cursor c !! path) in
  let hooks := default [] (Map_get path (hooks_state c)) in
  let moved := <[path := cursor + 1]> (hooks_cursor c) in
  let appended :=
    Map_set path (hooks ++ [StateSlot (initial_state initialValue)])
            (hooks_state c) in
  (length hooks = cursor →
     useState initialValue c
     = Ok (initial_state initialValue, mkSetter path cursor)
          (with_hooks_cursor moved (with_hooks_state appended c)))
  ∧ (∀ v, hooks !! cursor = Some (StateSlot v) →
       useState initialValue c
       = Ok (v, mkSetter path cursor) (with_hooks_cursor moved c))
  ∧ (length hooks < cursor →
       useState initialValue c
       = Ok (VUndefined, mkSetter path cursor)
            (with_hooks_cursor moved (with_hooks_state appended c))).
Proof.
  intros Hlast cursor hooks moved appended. subst moved appended.
  unfold initial_state. split_and!.
  - intros Hlen. run. repeat (rewrite Hlast; cbv beta iota). fold cursor.
    destruct (Map_get path (hooks_state c)) as [hs|] eqn:Hget;
      subst hooks; simpl in *; rewrite ?decide_True by lia; cbv beta iota;
      rewrite ?Map_set_set.
    + rewrite lookup_app_r, Hlen, Nat.sub_diag by lia. done.
    + subst cursor. rewrite <- Hlen. simpl. by destruct c.
  - intros v Hv.
    assert (cursor < length hooks) as Hlt by by eapply lookup_lt_Some.
    destruct (Map_get path (hooks_state c)) as [hs|] eqn:Hget;
      [|subst hooks; simpl in *; lia].
    subst hooks. simpl in Hv, Hlt.
    run. repeat (rewrite Hlast; cbv beta iota). fold cursor.
    rewrite Hget. cbv beta iota. rewrite decide_False by lia.
    cbv beta iota. by rewrite Hv.
  - intros Hlen. run. repeat (rewrite Hlast; cbv beta iota). fold cursor.
    destruct (Map_get path (hooks_state c)) as [hs|] eqn:Hget;
      subst hooks; simpl in *; rewrite ?decide_True by lia; cbv beta iota;
      rewrite ?Map_set_set.
    + rewrite lookup_ge_None_2 by (rewrite length_app; simpl; lia). done.
    + rewrite lookup_ge_None_2 by (simpl; lia). by destruct c.
Qed.

(** What a setter stores is what the next visit of the slot returns: after
    a setter call on a state slot, [useState] at that path and cursor
    returns the next value, whatever initial value it is given. *)
Theorem useState_after_setState (s : Setter) (nextValue : SetArg)
    (initialValue : InitArg) (c c1 c2 : Context) (stateArray : list Slot)
    (prevState : Val) :
  Map_get (setter_path s) (hooks_state c) = Some stateArray →
  stateArray !! setter_cursor s = Some (StateSlot prevState) →
  setState s nextValue c = Ok tt c1 →
  hooks_state c2 = hooks_state c1 →
  last (hooks_componentStack c2) = Some (setter_path s) →
  default 0 (hooks_cursor c2 !! setter_path s) = setter_cursor s →
  useState initialValue c2
  = Ok (next_state nextValue prevState, s)
       (with_hooks_cursor
          (<[setter_path s := setter_cursor s + 1]> (hooks_cursor c2)) c2).
Proof.
  intros Hget Hslot Hset Hstate Hlast Hcursor.
  rewrite (setState_on_slot s nextValue c stateArray prevState Hget Hslot)
    in Hset.
  destruct (useState_visit initialValue c2 (setter_path s) Hlast)
    as (_ & Hvisit & _).
  rewrite Hcursor in Hvisit. destruct s as [path cursor]. simpl in *.
  apply Hvisit. rewrite Hstate.
  destruct (Object_is prevState (next_state nextValue prevState)) eqn:His.
  - injection Hset as <-. rewrite Hget. simpl.
    apply bool_decide_eq_true in His. by rewrite <- His.
  - run. destruct (scheduled _); injection Hset as <-; simpl;
      rewrite Map_get_set_eq; simpl; apply list_lookup_insert_eq;
      by eapply lookup_lt_Some.
Qed.

(** ** The effect flush ([core/render.ts]) *)

#[global] Instance hook_steps_preorder : PreOrder hook_steps.
Proof.
  split.
  - intros c. exists (hooks_state c), []. rewrite app_nil_r.
    split; [by destruct c|done].
  - intros c1 c2 c3 (s1 & evs1 & -> & H1) (s2 & evs2 & -> & H2).
    exists s2, (evs1 ++ evs2). split; [|by apply Forall_app].
    simpl. by rewrite (assoc_L (++)).
Qed.

Lemma flushed_nil path hooks : imap (flushed [] path) hooks = hooks.
Proof.
  rewrite <- (imap_ext (λ _ s, s)); [clear; by induction hooks; f_equal/=|].
  by intros i [v|[]] _.
Qed.

(** One entry of the queue. *)
Lemma run_effect_flushed pc c :
  ∃ c', run_effect pc c = Ok tt c'
    ∧ hook_steps c c'
    ∧ ∀ path, Map_get path (hooks_state c')
              = imap (flushed [pc] path) <$> Map_get path (hooks_state c).
Proof.
  destruct pc as [p cur]. unfold run_effect.
  assert (∀ path hooks,
            (∀ e, p = path → hooks !! cur ≠ Some (EffectSlot e)) →
            imap (flushed [(p, cur)] path) hooks = hooks) as Hskip.
  { intros path hooks Hno.
    rewrite <- (imap_ext (λ _ s, s)); [clear; by induction hooks; f_equal/=|].
    intros i [v|e] Hi; simpl; [done|].
    rewrite decide_False; [by destruct e|].
    intros Hin. apply list_elem_of_singleton in Hin as [= -> ->].
    by apply (Hno e). }
  destruct (Map_get p (hooks_state c)) as [hooks|] eqn:Hget; cycle 1.
  { exists c. split_and!; [done|reflexivity|]. intros path.
    destruct (Map_get path (hooks_state c)) as [hs|] eqn:Hp; [|done].
    simpl. rewrite Hskip; [done|]. intros e ->. congruence. }
  destruct (hooks !! cur) as [[v|e]|] eqn:Hcur.
  - exists c. split_and!; [done|reflexivity|]. intros path.
    destruct (Map_get path (hooks_state c)) as [hs|] eqn:Hp; [|done].
    simpl. rewrite Hskip; [done|]. intros e ->. congruence.
  - eexists. split_and!; [done| |].
    + eexists _, _. split; [reflexivity|].
      apply Forall_app. split; [by destruct (cleanup e); repeat constructor|].
      by repeat constructor.
    + intros path. simpl. destruct (decide (path = p)) as [->|Hne].
      * rewrite Map_get_set_eq, Hget. simpl. f_equal.
        apply list_eq. intros j. rewrite list_lookup_imap.
        destruct (decide (j = cur)) as [->|Hj].
        -- rewrite list_lookup_insert_eq by by eapply lookup_lt_Some.
           rewrite Hcur. simpl. rewrite decide_True; [done|].
           by apply list_elem_of_singleton.
        -- rewrite list_lookup_insert_ne by done.
           destruct (hooks !! j) as [[w|e']|]; simpl; [done| |done].
           rewrite decide_False; [by destruct e'|].
           intros Hin. by apply list_elem_of_singleton in Hin as [= ->].
      * rewrite Map_get_set_ne by done.
        destruct (Map_get path (hooks_state c)) as [hs|] eqn:Hp; [|done].
        simpl. rewrite Hskip; [done|]. intros e' ->. done.
  - exists c. split_and!; [done|reflexivity|]. intros path.
    destruct (Map_get path (hooks_state c)) as [hs|] eqn:Hp; [|done].
    simpl. rewrite Hskip; [done|]. intros e ->. congruence.
Qed.

Lemma flushed_cons pc queue path hooks :
  imap (flushed queue path) (imap (flushed [pc] path) hooks)
  = imap (flushed (pc :: queue) path) hooks.
Proof.
  apply list_eq. intros i. rewrite !list_lookup_imap.
  destruct (hooks !! i) as [[v|e]|]; simpl; [done| |done].
  do 2 f_equal. repeat case_decide; try done; exfalso; set_solver.
Qed.

(** The effect flush of a render pass does not fail on account of the
    queued slots, whatever has become of them: an entry whose path has no
    hook array, whose cursor is past the end, or whose slot is no effect
    hook is passed over.
    Afterwards every effect slot at a queued place holds the cleanup that
    its effect returned (none, if it returned none), and nothing else has
    changed in the hook arrays; the calls made are cleanup and effect
    calls, and nothing but the hook arrays and the trace has changed. *)
Theorem flush_effects (effectsToRun : list (string * nat)) (c : Context) :
  ∃ c', forM_ run_effect effectsToRun c = Ok tt c'
    ∧ (∃ state evs,
         c' = with_trace (trace c ++ evs) (with_hooks_state state c)
         ∧ Forall (λ ev, is_hook_call ev = true) evs)
    ∧ ∀ path, Map_get path (hooks_state c')
              = imap (flushed effectsToRun path)
                  <$> Map_get path (hooks_state c).
Proof.
  unfold forM_. revert c.
  induction effectsToRun as [|pc queue IH]; intros c; cbn [foldM].
  { exists c. split_and!; [done|change (hook_steps c c); reflexivity|].
    intros path. destruct (Map_get path (hooks_state c)); [|done]. simpl.
    by rewrite flushed_nil. }
  destruct (run_effect_flushed pc c) as (c1 & H1 & Hs1 & Hm1).
  destruct (IH c1) as (c' & H2 & Hs2 & Hm2).
  exists c'. rewrite (bind_Ok_eq _ _ _ _ _ H1). split_and!; [done| |].
  - change (hook_steps c c'). by etrans.
  - intros path. rewrite Hm2, Hm1.
    destruct (Map_get path (hooks_state c)); [|done]. simpl.
    by rewrite flushed_cons.
Qed.

(** The life of an effect: on the first visit of a component at a path,
    [useEffect] stores the hook and queues it; the flush calls the effect,
    and no cleanup, and stores the cleanup it returns; the GC of the path
    calls that cleanup, if there is one, and drops the hook array. *)
Theorem effect_lifecycle (effect' : EffectFn) (deps' : option (list Val))
    (c : Context) (path : string) :
  last (hooks_componentStack c) = Some path →
  Map_get path (hooks_state c) = None →
  hooks_cursor c !! path = None →
  ∃ c1 c2,
    useEffect effect' deps' c = Ok tt c1
    ∧ effects_queue c1 = effects_queue c ++ [(path, 0)]
    ∧ run_effect (path, 0) c1 = Ok tt c2
    ∧ trace c2 = trace c ++ [EvEffect (effect_id effect')]
    ∧ Map_get path (hooks_state c2)
      = Some [EffectSlot {| deps := deps';
                            cleanup := effect_returns effect';
                            effect := effect' |}]
    ∧ trace (cleanup_path path c2)
      = trace c2 ++ match effect_returns effect' with
                    | Some fn => [EvCleanup fn]
                    | None => []
                    end
    ∧ Map_get path (hooks_state (cleanup_path path c2)) = None.
Proof.
  intros Hlast Hget Hcur.
  destruct (useEffect_visit effect' deps' c path Hlast) as [Hfirst _].
  rewrite Hget, Hcur in Hfirst. simpl in Hfirst.
  destruct Hfirst as (c1 & H1 & Hs1 & Hq1); [lia|].
  assert (trace c1 = trace c) as Ht1.
  { revert H1. run. repeat (rewrite Hlast; cbv beta iota).
    rewrite Hget, Hcur.
    simpl. by intros [= <-]. }
  eexists c1, _. split_and!; [done|done|..].
  - unfold run_effect. rewrite Hs1. simpl. reflexivity.
  - simpl. by rewrite Ht1.
  - simpl. by rewrite Map_get_set_eq.
  - destruct (cleanup_path_effect path
                (with_trace (trace c1 ++ [] ++ [EvEffect (effect_id effect')])
                   (with_hooks_state
                      (Map_set path
                         (<[0:=EffectSlot
                                 {| deps := deps';
                                    cleanup := effect_returns effect';
                                    effect := effect' |}]>
                            [EffectSlot {| deps := deps'; cleanup := None;
                                           effect := effect' |}])
                         (hooks_state c1)) c1))) as (Ht & _).
    etrans; [exact Ht|]. simpl. rewrite Map_get_set_eq. simpl.
    by destruct (effect_returns effect').
  - destruct (cleanup_path_effect path
                (with_trace (trace c1 ++ [] ++ [EvEffect (effect_id effect')])
                   (with_hooks_state
                      (Map_set path
                         (<[0:=EffectSlot
                                 {| deps := deps';
                                    cleanup := effect_returns effect';
                                    effect := effect' |}]>
                            [EffectSlot {| deps := deps'; cleanup := None;
                                           effect := effect' |}])
                         (hooks_state c1)) c1))) as (_ & Hs & _).
    rewrite Hs. by rewrite decide_True.
Qed.

(** ** What reconciliation keeps ([core/reconciler.ts]) *)

(** Whatever [reconcile] is called with, when it returns every Instance
    object that existed is still there, with the kind, the DOM node and
    the key it had and a VNode of the type and key it had; and the calls
    made are DOM operations: no effect and no cleanup function is called
    during reconciliation. *)
Theorem reconcile_keeps_instances `{Registry} (fuel : nat) (parentDom : nat)
    (instance : option nat) (node : option VNode) (path : string)
    (c c' : Context) (r : option nat) :
  reconcile fuel parentDom instance node path c = Ok r c' →
  (∀ i inst, heap c !! i = Some inst →
     ∃ inst', heap c' !! i = Some inst'
       ∧ inst_kind inst' = inst_kind inst
       ∧ inst_dom inst' = inst_dom inst
       ∧ inst_key inst' = inst_key inst
       ∧ type (inst_node inst') = type (inst_node inst)
       ∧ key (inst_node inst') = key (inst_node inst))
  ∧ ∃ evs, trace c' = trace c ++ evs
           ∧ Forall (λ ev, is_hook_call ev = false) evs.
Proof.
  intros E. destruct (reconciler_keeps_identity fuel) as (Hrec & _).
  destruct (Hrec parentDom instance node path c r c' E) as [Hheap Htrace].
  split; [exact Hheap|]. destruct Htrace as (evs & Ht & Hevs).
  exists evs. split; [done|]. eapply Forall_impl; [exact Hevs|].
  intros ev. unfold dom_event. by destruct (is_hook_call ev).
Qed.

(** ** The JSX factory *)

Lemma RawChild_nested_ind (P : RawChild → Prop) :
  P RNull → P RUndefined → (∀ b, P (RBool b)) → (∀ s, P (RStr s)) →
  (∀ n, P (RNum n)) → (∀ n, P (RNode n)) →
  (∀ items, Forall P items → P (RArr items)) → P ROther →
  ∀ r, P r.
Proof.
  intros Hnull Hundef Hbool Hstr Hnum Hnode Harr Hother.
  fix IH 1.
  intros [| |b|s|n|n|items|];
    [exact Hnull|exact Hundef|apply Hbool|apply Hstr|apply Hnum|apply Hnode|
    |exact Hother].
  apply Harr. induction items as [|x items IHitems]; constructor;
    [apply IH|exact IHitems].
Qed.

Lemma flat_no_array r : Forall (λ x, is_array x = false) (flat r).
Proof.
  induction r as [| | | | | |items IH|] using RawChild_nested_ind;
    try by repeat constructor.
  cbn [flat]. induction IH as [|x items Hx _ IHitems]; [done|].
  simpl. by apply Forall_app.
Qed.

(** The children that [createElement] keeps of one raw child. *)
Lemma flat_leaves `{Registry} r :
  omap (λ child, match normalizeNode child with
                 | Some (NNode n) => Some n
                 | _ => None
                 end) (flat r) = leaves r.
Proof.
  induction r as [| | | | | |items IH|] using RawChild_nested_ind; try done.
  cbn [flat leaves]. induction IH as [|x items Hx _ IHitems]; [done|].
  simpl. by rewrite omap_app, Hx, IHitems.
Qed.

Lemma flat_all_leaves `{Registry} (raw : list RawChild) :
  omap (λ child, match normalizeNode child with
                 | Some (NNode n) => Some n
                 | _ => None
                 end) (concat (map flat raw)) = concat (map leaves raw).
Proof.
  induction raw as [|r raw IH]; [done|].
  simpl. by rewrite omap_app, flat_leaves, IH.
Qed.

(** [createElement] by what it returns.  The type is the one given; the
    key is the one of [originProps], null when there is none or when it is
    undefined (a key 0 or "" stays).  When the raw children stand for at
    least one VNode, the children are those VNodes in order, none of them
    empty, and they replace the [children] of [originProps]; when they
    stand for none, the properties are those of [originProps] as they
    are, its [children] included. *)
Theorem createElement_result `{Registry} (type' : NodeType)
    (originProps : option OriginProps) (rawChildren : list RawChild) :
  let node := Elements.createElement type' originProps rawChildren in
  let given := match originProps with
               | Some o => origin_rest o
               | None => mkProps [] None []
               end in
  let kept := concat (map leaves rawChildren) in
  type node = type'
  ∧ key node = default KNull (originProps ≫= origin_key)
  ∧ (kept ≠ [] →
       children (props node) = Some <$> kept
       ∧ Forall (λ child, isEmptyValue child = false) (children (props node))
       ∧ nodeValue (props node) = nodeValue given
       ∧ attrs (props node) = attrs given)
  ∧ (kept = [] → props node = given).
Proof.
  intros node given kept. subst node given kept.
  unfold Elements.createElement. rewrite flat_all_leaves. cbn [type key props].
  split_and!.
  - done.
  - by destruct originProps as [[[k|] rest]|].
  - intros Hne. rewrite decide_True; cycle 1.
    { destruct (concat (map leaves rawChildren)); [done|simpl; lia]. }
    cbn [children nodeValue attrs]. split_and!; [done| |done..].
    apply Forall_fmap. by apply Forall_true.
  - intros ->. by rewrite decide_False by (simpl; lia).
Qed.

(** The VNode that [createElement] returns does not depend on how the
    children are grouped in arrays, nor on the values among them that are
    not rendered: an array counts as its items in place, and null,
    undefined, booleans and objects that are no VNode count for nothing.
    A number counts as the string that [String] makes of it. *)
Theorem createElement_flattens `{Registry} (type' : NodeType)
    (originProps : option OriginProps) (before after : list RawChild) :
  (∀ items,
     Elements.createElement type' originProps (before ++ [RArr items] ++ after)
     = Elements.createElement type' originProps (before ++ items ++ after))
  ∧ (∀ r, is_omitted r = true →
       Elements.createElement type' originProps (before ++ [r] ++ after)
       = Elements.createElement type' originProps (before ++ after))
  ∧ (∀ n,
       Elements.createElement type' originProps (before ++ [RNum n] ++ after)
       = Elements.createElement type' originProps
           (before ++ [RStr (String_of (PNum n))] ++ after)).
Proof.
  unfold Elements.createElement. split_and!.
  - intros items. rewrite !flat_all_leaves.
    by rewrite !map_app, !concat_app; simpl; rewrite app_nil_r.
  - intros r Hr. rewrite !flat_all_leaves.
    rewrite !map_app, !concat_app. simpl. by destruct r.
  - intros n. rewrite !flat_all_leaves.
    by rewrite !map_app, !concat_app.
Qed.

(** ** The two comparisons *)

Lemma JsValue_nested_ind (P : JsValue → Prop) :
  P JUndefined → P JNull → (∀ b, P (JBool b)) → (∀ n, P (JNum n)) →
  (∀ s, P (JStr s)) → (∀ addr, P (JFun addr)) →
  (∀ addr items, Forall P items → P (JArr addr items)) →
  (∀ addr entries hidden,
     Forall (λ e, P e.2) entries → P (JObj addr entries hidden)) →
  ∀ v, P v.
Proof.
  intros Hu Hn Hb Hnum Hs Hf Harr Hobj. fix IH 1.
  intros [| |b|n|s|addr|addr items|addr entries hidden];
    [exact Hu|exact Hn|apply Hb|apply Hnum|apply Hs|apply Hf| |].
  - apply Harr. induction items as [|x items IHitems]; constructor;
      [apply IH|exact IHitems].
  - apply Hobj. induction entries as [|[k x] entries IHentries]; constructor;
      [apply IH|exact IHentries].
Qed.

Lemma Object_is_sym a b : Equals.Object_is a b = Equals.Object_is b a.
Proof.
  destruct a, b; simpl; try done;
    by rewrite (bool_decide_ext _ _ (symmetry_iff (=) _ _)).
Qed.

Lemma Object_is_refl a : Equals.Object_is a a = true.
Proof. destruct a; simpl; by rewrite ?bool_decide_eq_true_2. Qed.

Lemma Object_is_deepEquals a b :
  Equals.Object_is a b = true → Equals.deepEquals a b = true.
Proof. intros H. destruct a, b; simpl in *; try done; by rewrite H. Qed.

Lemma keys_unique_arr addr items :
  keys_unique (JArr addr items) ↔ Forall keys_unique items.
Proof.
  cbn [keys_unique]. induction items as [|x items IH].
  - by split.
  - rewrite Forall_cons. by rewrite IH.
Qed.

Lemma keys_unique_obj addr entries hidden :
  keys_unique (JObj addr entries hidden)
  ↔ NoDup entries.*1 ∧ Forall (λ e, keys_unique e.2) entries.
Proof.
  cbn [keys_unique]. apply and_iff_compat_l.
  induction entries as [|[k x] entries IH].
  - by split.
  - rewrite Forall_cons. by rewrite IH.
Qed.

Lemma no_hidden_arr addr items :
  no_hidden (JArr addr items) ↔ Forall no_hidden items.
Proof.
  cbn [no_hidden]. induction items as [|x items IH].
  - by split.
  - rewrite Forall_cons. by rewrite IH.
Qed.

Lemma no_hidden_obj addr entries hidden :
  no_hidden (JObj addr entries hidden)
  ↔ hidden = [] ∧ Forall (λ e, no_hidden e.2) entries.
Proof.
  cbn [no_hidden]. apply and_iff_compat_l.
  induction entries as [|[k x] entries IH].
  - by split.
  - rewrite Forall_cons. by rewrite IH.
Qed.

(** The loops of the two comparisons, by what they establish. *)
Lemma deepEquals_arr x xs y ys :
  Equals.deepEquals (JArr x xs) (JArr y ys) = true
  ↔ x = y ∨ Forall2 (λ a b, Equals.deepEquals a b = true) xs ys.
Proof.
  cbn [Equals.deepEquals Equals.Object_is].
  destruct (bool_decide (x = y)) eqn:Hxy.
  { apply bool_decide_eq_true in Hxy. by split; [left|]. }
  apply bool_decide_eq_false in Hxy.
  destruct (decide (length xs ≠ length ys)) as [Hlen|Hlen].
  { split; [done|]. intros [?|H]; [done|]. by apply Forall2_length in H. }
  assert (length xs = length ys) as Hlen' by lia. clear Hlen. split.
  - intros H. right. revert ys Hlen' H.
    induction xs as [|a xs IH]; intros [|b ys] Hlen H; simpl in Hlen;
      try lia.
    + constructor.
    + destruct (Equals.deepEquals a b) eqn:Hab; [|done].
      constructor; [done|]. apply IH; [lia|done].
  - intros [?|H]; [done|]. induction H as [|a b xs' ys' Hab _ IH]; [done|].
    rewrite Hab. apply IH. simpl in Hlen'. lia.
Qed.

Lemma deepEquals_obj x ea ha y eb hb :
  Equals.deepEquals (JObj x ea ha) (JObj y eb hb) = true
  ↔ x = y
    ∨ (length ea = length eb
       ∧ Forall (λ e, ∃ vb, Equals.own e.1 eb hb = Some vb
                            ∧ Equals.deepEquals e.2 vb = true) ea).
Proof.
  cbn [Equals.deepEquals Equals.Object_is].
  destruct (bool_decide (x = y)) eqn:Hxy.
  { apply bool_decide_eq_true in Hxy. by split; [left|]. }
  apply bool_decide_eq_false in Hxy.
  destruct (decide (length ea ≠ length eb)) as [Hlen|Hlen].
  { split; [done|]. intros [?|[? _]]; done. }
  assert (length ea = length eb) as Hlen' by lia. clear Hlen.
  split.
  - intros H. right. split; [done|]. clear Hlen'.
    induction ea as [|[k va] ea IH]; [constructor|].
    destruct (Equals.own k eb hb) as [vb|] eqn:Hk; [|done].
    destruct (Equals.deepEquals va vb) eqn:Hab; [|done].
    constructor; [exists vb; split; assumption|apply IH; assumption].
  - intros [?|[_ H]]; [done|]. clear Hlen'.
    induction H as [|[k va] ea' (vb & Hk & Hab) _ IH]; [done|].
    simpl in *. by rewrite Hk, Hab.
Qed.

Lemma shallowEquals_arr x xs y ys :
  Equals.shallowEquals (JArr x xs) (JArr y ys) = true
  ↔ x = y ∨ Forall2 (λ a b, Equals.Object_is a b = true) xs ys.
Proof.
  unfold Equals.shallowEquals. cbn [Equals.Object_is].
  destruct (bool_decide (x = y)) eqn:Hxy.
  { apply bool_decide_eq_true in Hxy. by split; [left|]. }
  apply bool_decide_eq_false in Hxy.
  destruct (decide (length xs ≠ length ys)) as [Hlen|Hlen].
  { split; [done|]. intros [?|H]; [done|]. by apply Forall2_length in H. }
  assert (length xs = length ys) as Hlen' by lia. clear Hlen. split.
  - intros H. right. revert ys Hlen' H.
    induction xs as [|a xs IH]; intros [|b ys] Hlen H; simpl in Hlen;
      try lia.
    + constructor.
    + destruct (Equals.Object_is a b) eqn:Hab; [|done].
      constructor; [done|]. apply IH; [lia|done].
  - intros [?|H]; [done|]. induction H as [|a b xs' ys' Hab _ IH]; [done|].
    rewrite Hab. apply IH. simpl in Hlen'. lia.
Qed.

Lemma shallowEquals_obj x ea ha y eb hb :
  Equals.shallowEquals (JObj x ea ha) (JObj y eb hb) = true
  ↔ x = y
    ∨ (length ea = length eb
       ∧ Forall (λ e, ∃ vb, Equals.own e.1 eb hb = Some vb
                            ∧ Equals.Object_is e.2 vb = true) ea).
Proof.
  unfold Equals.shallowEquals. cbn [Equals.Object_is].
  destruct (bool_decide (x = y)) eqn:Hxy.
  { apply bool_decide_eq_true in Hxy. by split; [left|]. }
  apply bool_decide_eq_false in Hxy.
  destruct (decide (length ea ≠ length eb)) as [Hlen|Hlen].
  { split; [done|]. intros [?|[? _]]; done. }
  assert (length ea = length eb) as Hlen' by lia. clear Hlen.
  split.
  - intros H. right. split; [done|]. clear Hlen'.
    induction ea as [|[k va] ea IH]; [constructor|].
    destruct (Equals.own k eb hb) as [vb|] eqn:Hk; [|done].
    destruct (Equals.Object_is va vb) eqn:Hab; [|done].
    constructor; [exists vb; split; assumption|apply IH; assumption].
  - intros [?|[_ H]]; [done|]. clear Hlen'.
    induction H as [|[k va] ea' (vb & Hk & Hab) _ IH]; [done|].
    simpl in *. by rewrite Hk, Hab.
Qed.

(** Whatever [shallowEquals] accepts, [deepEquals] accepts; and both
    accept a value compared with itself. *)
Theorem shallowEquals_deepEquals (a b : JsValue) :
  (Equals.shallowEquals a b = true → Equals.deepEquals a b = true)
  ∧ Equals.shallowEquals a a = true
  ∧ Equals.deepEquals a a = true.
Proof.
  split_and!.
  - destruct (Equals.Object_is a b) eqn:His;
      [intros _; by apply Object_is_deepEquals|].
    destruct a as [| | | | | |x xs|x ea ha], b as [| | | | | |y ys|y eb hb];
      try (unfold Equals.shallowEquals; rewrite His; done).
    + rewrite shallowEquals_arr, deepEquals_arr. intros [?|H]; [by left|].
      right. eapply Forall2_impl; [exact H|]. intros ??.
      apply Object_is_deepEquals.
    + rewrite shallowEquals_obj, deepEquals_obj.
      intros [?|[Hlen H]]; [by left|]. right. split; [done|].
      eapply Forall_impl; [exact H|]. intros [k va] (vb & Hk & Hab).
      exists vb. split; [done|]. by apply Object_is_deepEquals.
  - unfold Equals.shallowEquals. by rewrite Object_is_refl.
  - apply Object_is_deepEquals, Object_is_refl.
Qed.

Lemma own_elem (entries hidden : list (string * JsValue)) k v :
  NoDup entries.*1 → (k, v) ∈ entries →
  Equals.own k entries hidden = Some v.
Proof.
  intros Hnd Hin. unfold Equals.own.
  by rewrite (Map_get_Some_elem entries k v Hnd Hin).
Qed.

Lemma own_Some_elem (entries : list (string * JsValue)) k v :
  Equals.own k entries [] = Some v → (k, v) ∈ entries.
Proof.
  unfold Equals.own.
  assert (Map_get k entries = Some v → (k, v) ∈ entries) as Hget.
  { induction entries as [|[k0 v0] entries IH]; [done|].
    simpl. destruct (decide (k = k0)) as [->|Hne].
    - intros [= ->]. by left.
    - intros H. right. by apply IH. }
  destruct (Map_get k entries) as [v'|]; [exact Hget|done].
Qed.

(** The keys of [ea] are all among those of [eb], of the same number, and
    none is there twice: then the keys of [eb] are all among those of
    [ea]. *)
Lemma keys_both_ways (ea eb : list (string * JsValue)) :
  NoDup ea.*1 → length ea = length eb →
  (∀ k, k ∈ ea.*1 → k ∈ eb.*1) →
  ∀ k, k ∈ eb.*1 → k ∈ ea.*1.
Proof.
  intros Hnd Hlen Hsub k Hk.
  assert (ea.*1 ⊆+ eb.*1) as Hsm by by apply NoDup_submseteq.
  apply submseteq_length_Permutation in Hsm;
    [|by rewrite !length_fmap, Hlen].
  by rewrite Hsm.
Qed.

Lemma Forall2_flip_impl {A} (P : A → A → Prop) (Q : A → A → Prop) xs ys :
  Forall (λ x, ∀ y, P x y → Q y x) xs → Forall2 P xs ys → Forall2 Q ys xs.
Proof.
  intros Hall H. induction H as [|x y xs ys Hxy _ IH]; [constructor|].
  apply Forall_cons in Hall as [Hx Hall]. constructor; [by apply Hx|by apply IH].
Qed.

(** [deepEquals] and [shallowEquals] do not depend on the side a value is
    on, for values none of whose objects has a key twice or a property
    that is not enumerable. *)
Theorem equals_symmetric (a b : JsValue) :
  keys_unique a → keys_unique b → no_hidden a → no_hidden b →
  Equals.deepEquals a b = Equals.deepEquals b a
  ∧ Equals.shallowEquals a b = Equals.shallowEquals b a.
Proof.
  assert (∀ a, keys_unique a → no_hidden a →
          ∀ b, keys_unique b → no_hidden b →
            Equals.deepEquals a b = true → Equals.deepEquals b a = true)
    as Hdeep.
  { clear. intros a.
    induction a as [| |b0|n0|s0|f0|x xs IH|x ea ha IH]
      using JsValue_nested_ind; intros Ha Hna b Hb Hnb H.
    1-6: (destruct b; simpl in *; try done;
          by rewrite (bool_decide_ext _ _ (symmetry_iff (=) _ _))).
    - destruct b as [| | | | | |y ys|y eb hb]; try done.
      apply deepEquals_arr in H as [->|H];
        [apply Object_is_deepEquals; simpl; by rewrite bool_decide_eq_true_2|].
      apply deepEquals_arr. right.
      apply keys_unique_arr in Ha. apply keys_unique_arr in Hb.
      apply no_hidden_arr in Hna. apply no_hidden_arr in Hnb.
      revert IH Ha Hb Hna Hnb. induction H as [|a0 b0 xs ys Hab _ IHl];
        intros IH Ha Hb Hna Hnb; [constructor|].
      apply Forall_cons in IH as [IHa IH]. apply Forall_cons in Ha as [Ha Has].
      apply Forall_cons in Hb as [Hb Hbs].
      apply Forall_cons in Hna as [Hna Hnas].
      apply Forall_cons in Hnb as [Hnb Hnbs].
      constructor; [by apply IHa|by apply IHl].
    - destruct b as [| | | | | |y ys|y eb hb]; try done.
      apply deepEquals_obj in H as [->|[Hlen H]];
        [apply Object_is_deepEquals; simpl; by rewrite bool_decide_eq_true_2|].
      apply deepEquals_obj. right. split; [done|].
      apply keys_unique_obj in Ha as [Hnda Ha].
      apply keys_unique_obj in Hb as [Hndb Hb].
      apply no_hidden_obj in Hna as [-> Hna].
      apply no_hidden_obj in Hnb as [-> Hnb].
      rewrite Forall_forall in H, IH, Ha, Hb, Hna, Hnb.
      assert (∀ k, k ∈ eb.*1 → k ∈ ea.*1) as Hback.
      { apply keys_both_ways; [done..|]. intros k Hk.
        apply list_elem_of_fmap in Hk as ([k' va] & -> & Hin).
        destruct (H _ Hin) as (vb & Hvb & _). simpl in *.
        apply own_Some_elem in Hvb. apply list_elem_of_fmap.
        by exists (k', vb). }
      apply Forall_forall. intros [k vb] Hin. simpl.
      assert (k ∈ ea.*1) as Hk.
      { apply Hback. apply list_elem_of_fmap. by exists (k, vb). }
      apply list_elem_of_fmap in Hk as ([k' va] & Heq & Hina).
      simpl in Heq. subst k'. exists va. split; [by apply own_elem|].
      destruct (H _ Hina) as (vb' & Hvb' & Hab). simpl in *.
      rewrite (own_elem eb [] k vb Hndb Hin) in Hvb'. injection Hvb' as <-.
      apply (IH _ Hina);
        [by apply (Ha _ Hina)|by apply (Hna _ Hina)|by apply (Hb _ Hin)
        |by apply (Hnb _ Hin)|done]. }
  assert (∀ a, keys_unique a → no_hidden a →
          ∀ b, keys_unique b → no_hidden b →
            Equals.shallowEquals a b = true →
            Equals.shallowEquals b a = true) as Hshallow.
  { clear. intros a Ha Hna b Hb Hnb H.
    destruct (Equals.Object_is a b) eqn:His.
    { unfold Equals.shallowEquals. by rewrite Object_is_sym, His. }
    destruct a as [| | | | | |x xs|x ea ha], b as [| | | | | |y ys|y eb hb];
      try (unfold Equals.shallowEquals in H; rewrite His in H; done).
    - apply shallowEquals_arr in H as [->|H];
        [unfold Equals.shallowEquals; simpl;
         by rewrite bool_decide_eq_true_2|].
      apply shallowEquals_arr. right.
      eapply Forall2_flip_impl; [|exact H]. apply Forall_true.
      intros a b. by rewrite Object_is_sym.
    - apply shallowEquals_obj in H as [->|[Hlen H]];
        [unfold Equals.shallowEquals; simpl;
         by rewrite bool_decide_eq_true_2|].
      apply shallowEquals_obj. right. split; [done|].
      apply keys_unique_obj in Ha as [Hnda Ha].
      apply keys_unique_obj in Hb as [Hndb Hb].
      apply no_hidden_obj in Hna as [-> Hna].
      apply no_hidden_obj in Hnb as [-> Hnb].
      rewrite Forall_forall in H.
      assert (∀ k, k ∈ eb.*1 → k ∈ ea.*1) as Hback.
      { apply keys_both_ways; [done..|]. intros k Hk.
        apply list_elem_of_fmap in Hk as ([k' va] & -> & Hin).
        destruct (H _ Hin) as (vb & Hvb & _). simpl in *.
        apply own_Some_elem in Hvb. apply list_elem_of_fmap.
        by exists (k', vb). }
      apply Forall_forall. intros [k vb] Hin. simpl.
      assert (k ∈ ea.*1) as Hk.
      { apply Hback. apply list_elem_of_fmap. by exists (k, vb). }
      apply list_elem_of_fmap in Hk as ([k' va] & Heq & Hina).
      simpl in Heq. subst k'. exists va. split; [by apply own_elem|].
      destruct (H _ Hina) as (vb' & Hvb' & Hab). simpl in *.
      rewrite (own_elem eb [] k vb Hndb Hin) in Hvb'. injection Hvb' as <-.
      by rewrite Object_is_sym. }
  intros Ha Hb Hna Hnb. split.
  - destruct (Equals.deepEquals a b) eqn:H1, (Equals.deepEquals b a) eqn:H2;
      try done.
    + by rewrite (Hdeep a Ha Hna b Hb Hnb H1) in H2.
    + by rewrite (Hdeep b Hb Hnb a Ha Hna H2) in H1.
  - destruct (Equals.shallowEquals a b) eqn:H1,
             (Equals.shallowEquals b a) eqn:H2; try done.
    + by rewrite (Hshallow a Ha Hna b Hb Hnb H1) in H2.
    + by rewrite (Hshallow b Hb Hnb a Ha Hna H2) in H1.
Qed.

Lemma shape_entries (entries : list (string * JsValue)) :
  (fix each (l : list (string * JsValue)) :=
     match l with
     | [] => []
     | (key, x) :: l' => (key, shape x) :: each l'
     end) entries
  = (λ e, (e.1, shape e.2)) <$> entries.
Proof. induction entries as [|[k x] entries IH]; [done|]. simpl. by rewrite IH. Qed.

(** [deepEquals] accepts two values of the same shape, whatever the
    addresses of their arrays and objects, and whatever properties they
    have that are not enumerable: equal primitives, the same functions,
    arrays of the same length and objects of the same enumerable keys in
    the same order, with items and properties of the same shape in
    turn. *)
Theorem deepEquals_same_shape (a b : JsValue) :
  keys_unique a → shape a = shape b → Equals.deepEquals a b = true.
Proof.
  revert b.
  induction a as [| |b0|n0|s0|f0|x xs IH|x ea ha IH] using JsValue_nested_ind;
    intros b Ha Hshape.
  1-6: (destruct b; simpl in Hshape; try done; injection Hshape as <-;
        apply Object_is_deepEquals, Object_is_refl).
  - destruct b as [| | | | | |y ys|y eb hb]; try (simpl in Hshape; done).
    cbn [shape] in Hshape. injection Hshape as Hitems.
    apply deepEquals_arr. right. apply keys_unique_arr in Ha.
    revert ys Hitems. induction xs as [|a xs IHxs]; intros [|b ys] Hitems;
      simpl in Hitems; try discriminate.
    { constructor. }
    injection Hitems as Hab Hrest.
    apply Forall_cons in IH as [IHa IH]. apply Forall_cons in Ha as [Ha Has].
    constructor; [by apply IHa|by apply IHxs].
  - destruct b as [| | | | | |y ys|y eb hb]; try (simpl in Hshape; done).
    cbn [shape] in Hshape. injection Hshape as Hentries.
    rewrite !shape_entries in Hentries.
    apply keys_unique_obj in Ha as [Hnd Ha].
    assert (ea.*1 = eb.*1) as Hkeys.
    { apply (f_equal (fmap fst)) in Hentries.
      rewrite <- !list_fmap_compose in Hentries. exact Hentries. }
    apply deepEquals_obj. right. split.
    { apply (f_equal length) in Hkeys. by rewrite !length_fmap in Hkeys. }
    rewrite Hkeys in Hnd.
    apply Forall_forall. intros [k va] Hin. simpl.
    apply list_elem_of_lookup in Hin as [i Hi].
    assert (((λ e : string * JsValue, (e.1, shape e.2)) <$> eb) !! i
            = Some (k, shape va)) as Hib.
    { rewrite <- Hentries, list_lookup_fmap, Hi. done. }
    rewrite list_lookup_fmap in Hib.
    destruct (eb !! i) as [[k' vb]|] eqn:Hbi; [|done].
    simpl in Hib. injection Hib as -> Hvb.
    exists vb. split.
    + apply own_elem; [done|]. by eapply list_elem_of_lookup_2.
    + rewrite Forall_forall in IH, Ha.
      assert ((k, va) ∈ ea) as Hin by by eapply list_elem_of_lookup_2.
      by apply (IH _ Hin); [apply (Ha _ Hin)|].
Qed.

(** ** The properties of a DOM element *)

Lemma val_strict_eq_eq a b : val_strict_eq a b = true → a = b.
Proof.
  destruct a as [| | |m| |], b as [| | |n| |]; simpl;
    try (by intros ?%bool_decide_eq_true); try done.
  unfold num_strict_eq.
  destruct m, n; try done; by intros ->%bool_decide_eq_true.
Qed.

Lemma val_strict_eq_refl a :
  a ≠ VNum NaN → val_strict_eq a a = true.
Proof.
  destruct a as [| | |[|z|negative|q]| |]; simpl; intros Hn; try done;
    by apply bool_decide_eq_true_2.
Qed.

Lemma concat_map_nil {A B} (f : A → list B) (l : list A) :
  (∀ x, x ∈ l → f x = []) → concat (map f l) = [].
Proof.
  induction l as [|x l IH]; [done|]. intros Hf. simpl.
  rewrite (Hf x) by by left. apply IH. intros y Hy. apply Hf. by right.
Qed.

Lemma props_get_own `{Registry} props key value :
  NoDup props.*1 → (key, value) ∈ props →
  props_get props key = value ∧ props_has props key = true.
Proof.
  intros Hnd Hin. unfold props_get, props_has.
  by rewrite (Map_get_Some_elem props key value Hnd Hin).
Qed.

(** [updateDomProps] with the props that the element has makes no call,
    when no value among them is NaN; a prop that is NaN, written as an
    attribute, is written again by every update. *)
Theorem updateDomProps_same `{Registry} (props : list (string * Val)) :
  NoDup props.*1 →
  ((∀ key, key ≠ "children" → (key, VNum NaN) ∉ props) →
     updateDomProps_calls props props = [])
  ∧ (∀ key, (key, VNum NaN) ∈ props →
       key ≠ "children" → starts_with_on key = false → key ≠ "style" →
       key ≠ "className" →
       SetAttribute key "NaN" ∈ updateDomProps_calls props props).
Proof.
  intros Hnd. split.
  - intros Hnan. unfold updateDomProps_calls.
    rewrite !concat_map_nil; [done|..].
    + intros [key value] Hin. simpl.
      destruct (props_get_own props key value Hnd Hin) as [Hget _].
      unfold update_prop. rewrite Hget.
      destruct (bool_decide (key = "children")) eqn:Hc; [done|].
      apply bool_decide_eq_false in Hc.
      rewrite val_strict_eq_refl; [done|]. intros ->. by apply (Hnan key).
    + intros [key value] Hin. simpl.
      destruct (props_get_own props key value Hnd Hin) as [_ Hhas].
      unfold remove_prop. rewrite Hhas. by destruct (bool_decide _).
  - intros key Hin Hc Hon Hstyle Hclass. unfold updateDomProps_calls.
    apply elem_of_app. right.
    apply list_elem_of_In, in_concat. eexists. split.
    + apply in_map_iff. exists (key, VNum NaN).
      split; [done|]. by apply list_elem_of_In.
    + simpl. destruct (props_get_own props key _ Hnd Hin) as [Hget _].
      unfold update_prop. rewrite Hget, Hon. simpl.
      rewrite !bool_decide_eq_false_2 by done. simpl. by left.
Qed.

(** *** The attributes after a sequence of calls *)

Lemma last_write_snoc name calls call :
  last_write name (calls ++ [call])
  = match attribute_write name call with
    | Some w => Some w
    | None => last_write name calls
    end.
Proof. unfold last_write. by rewrite foldl_app. Qed.

Lemma last_write_app name calls1 calls2 :
  last_write name (calls1 ++ calls2)
  = match last_write name calls2 with
    | Some w => Some w
    | None => last_write name calls1
    end.
Proof.
  induction calls2 as [|call calls2 IH] using rev_ind.
  - by rewrite app_nil_r.
  - rewrite (assoc_L (++)), !last_write_snoc, IH.
    by destruct (attribute_write name call).
Qed.

Lemma last_write_none name calls :
  Forall (λ call, attribute_write name call = None) calls →
  last_write name calls = None.
Proof.
  induction calls as [|call calls IH] using rev_ind; [done|].
  intros [Hcalls Hcall]%Forall_app.
  apply Forall_cons in Hcall as [Hcall _].
  rewrite last_write_snoc, Hcall. by apply IH.
Qed.

Lemma attributes_after_snoc `{Registry} calls call attributes :
  attributes_after (calls ++ [call]) attributes
  = attributes_after calls attributes ≫= λ a, attribute_call a call.
Proof. unfold attributes_after. by rewrite foldl_app. Qed.

(** When no call throws, each attribute is what the last write to it
    left. *)
Lemma attributes_after_Some `{Registry} calls attributes after :
  attributes_after calls attributes = Some after →
  Forall (λ call, call_accepted call = true) calls
  ∧ ∀ name, after !! name
            = match last_write name calls with
              | Some w => w
              | None => attributes !! name
              end.
Proof.
  revert after. induction calls as [|call calls IH] using rev_ind;
    intros after Hafter.
  { injection Hafter as <-. by split. }
  rewrite attributes_after_snoc in Hafter.
  destruct (attributes_after calls attributes) as [a|] eqn:Ha; [|done].
  simpl in Hafter. destruct (IH a eq_refl) as [Hacc Hlook]. split.
  - apply Forall_app. split; [done|]. constructor; [|done].
    destruct call as [| | |n v|n]; simpl in *; try done.
    by destruct (valid_attribute_name n).
  - intros name. rewrite last_write_snoc.
    destruct call as [| | |n v|n]; simpl in *.
    + injection Hafter as <-. apply Hlook.
    + injection Hafter as <-. apply Hlook.
    + injection Hafter as <-. apply Hlook.
    + destruct (valid_attribute_name n); [|done]. injection Hafter as <-.
      case_bool_decide as Hn.
      * subst. by rewrite lookup_insert_eq.
      * rewrite lookup_insert_ne by done. apply Hlook.
    + injection Hafter as <-. case_bool_decide as Hn.
      * subst. by rewrite lookup_delete_eq.
      * rewrite lookup_delete_ne by done. apply Hlook.
Qed.

Lemma attributes_after_accepted `{Registry} calls attributes :
  Forall (λ call, call_accepted call = true) calls →
  is_Some (attributes_after calls attributes).
Proof.
  induction calls as [|call calls IH] using rev_ind; [by eexists|].
  intros [Hcalls Hcall]%Forall_app.
  apply Forall_cons in Hcall as [Hcall _].
  rewrite attributes_after_snoc. destruct (IH Hcalls) as [a ->]. simpl.
  destruct call as [| | |n v|n]; simpl in *; try by eexists.
  rewrite Hcall. by eexists.
Qed.

Lemma Forall_concat_map {X Y} (P : Y → Prop) (f : X → list Y) (l : list X) :
  Forall P (concat (map f l)) ↔ ∀ x, x ∈ l → Forall P (f x).
Proof.
  induction l as [|x l IH]; simpl.
  - split; [|done]. intros _ x Hx. by apply elem_of_nil in Hx.
  - rewrite Forall_app, IH. split.
    + intros [Hx Hl] y [->|Hy]%elem_of_cons; [done|by apply Hl].
    + intros Hall. split; [apply Hall; by left|].
      intros y Hy. apply Hall. by right.
Qed.

(** The calls for the keys of a props object: the last write to an
    attribute is that of the one key that is written to it. *)
Lemma last_write_props (f : string * Val → list DomCall)
    (props : list (string * Val)) (name : string) :
  NoDup (attribute_name <$> props.*1) →
  (∀ e, e ∈ props → attribute_name e.1 ≠ name → last_write name (f e) = None) →
  (∀ e, e ∈ props → attribute_name e.1 = name →
        last_write name (concat (map f props)) = last_write name (f e))
  ∧ ((∀ e, e ∈ props → attribute_name e.1 ≠ name) →
     last_write name (concat (map f props)) = None).
Proof.
  induction props as [|x props IH]; intros Hnd Hother.
  { split; [|done]. intros e He. by apply elem_of_nil in He. }
  rewrite fmap_cons, fmap_cons in Hnd. apply NoDup_cons in Hnd as [Hx Hnd].
  destruct IH as [IHone IHnone]; [done| |].
  { intros e He. apply Hother. by right. }
  simpl. rewrite last_write_app. split.
  - intros e He Hname. apply elem_of_cons in He as [->|He].
    + rewrite IHnone; [done|]. intros e' He' Hname'. apply Hx.
      rewrite Hname, <- Hname'. apply list_elem_of_fmap.
      exists e'.1. split; [done|]. apply list_elem_of_fmap. by exists e'.
    + rewrite (IHone e He Hname).
      destruct (last_write name (f e)); [done|].
      apply Hother; [by left|]. intros Hxname. apply Hx.
      rewrite Hxname, <- Hname. apply list_elem_of_fmap.
      exists e.1. split; [done|]. apply list_elem_of_fmap. by exists e.
  - intros Hnone. rewrite IHnone.
    + apply Hother; [by left|]. apply Hnone. by left.
    + intros e He. apply Hnone. by right.
Qed.

Lemma one_key_per_attribute_inj (props : list (string * Val)) k1 k2 :
  one_key_per_attribute props → k1 ∈ props.*1 → k2 ∈ props.*1 →
  attribute_name k1 = attribute_name k2 → k1 = k2.
Proof.
  unfold one_key_per_attribute. induction (props.*1) as [|k keys IH];
    intros Hnd H1 H2 Hname.
  { by apply elem_of_nil in H1. }
  rewrite fmap_cons in Hnd. apply NoDup_cons in Hnd as [Hk Hnd].
  apply elem_of_cons in H1 as [->|H1], H2 as [->|H2]; [done|..].
  - destruct Hk. rewrite Hname. by apply list_elem_of_fmap_2.
  - destruct Hk. rewrite <- Hname. by apply list_elem_of_fmap_2.
  - by apply IH.
Qed.

Lemma last_write_styles {X} name (f : X → DomCall) (l : list X) :
  (∀ x, attribute_write name (f x) = None) →
  last_write name (map f l) = None.
Proof.
  intros Hf. apply last_write_none. apply Forall_map.
  by apply Forall_true.
Qed.

Lemma last_write_cleared_styles `{Registry} name style (l : list string) :
  last_write name
    (concat (map (λ styleKey, if object_has style styleKey then []
                              else [SetStyle styleKey (VStr "")]) l)) = None.
Proof.
  apply last_write_none. apply Forall_concat, Forall_map, Forall_true.
  intros x. destruct (object_has style x); by repeat constructor.
Qed.

Lemma attribute_name_other key :
  key ≠ "className" → attribute_name key = toLowerCase key.
Proof. intros Hne. unfold attribute_name. by rewrite bool_decide_eq_false_2. Qed.

Lemma last_write_set n value :
  last_write (toLowerCase n) [SetAttribute n value] = Some (Some value).
Proof. unfold last_write. simpl. by rewrite bool_decide_eq_true_2. Qed.

Lemma last_write_remove n :
  last_write (toLowerCase n) [RemoveAttribute n] = Some None.
Proof. unfold last_write. simpl. by rewrite bool_decide_eq_true_2. Qed.

Lemma last_write_set_other name n value :
  toLowerCase n ≠ name → last_write name [SetAttribute n value] = None.
Proof. intros. unfold last_write. simpl. by rewrite bool_decide_eq_false_2. Qed.

Lemma last_write_remove_other name n :
  toLowerCase n ≠ name → last_write name [RemoveAttribute n] = None.
Proof. intros. unfold last_write. simpl. by rewrite bool_decide_eq_false_2. Qed.

Lemma set_prop_other `{Registry} key value name :
  attribute_name key ≠ name → last_write name (set_prop key value) = None.
Proof.
  intros Hne. unfold set_prop.
  destruct (bool_decide (key = "children")); [done|].
  destruct (if starts_with_on key then typeof_function value else None);
    [done|].
  destruct (if bool_decide (key = "style") then typeof_object value
            else None); [by apply last_write_styles|].
  case_bool_decide as Hcn.
  - subst key. by apply last_write_set_other.
  - rewrite attribute_name_other in Hne by done.
    destruct value as [| |[]| | |]; simpl;
      by rewrite ?last_write_set_other, ?last_write_remove_other.
Qed.

Lemma remove_prop_other `{Registry} nextProps key value name :
  attribute_name key ≠ name →
  last_write name (remove_prop nextProps key value) = None.
Proof.
  intros Hne. unfold remove_prop.
  destruct (bool_decide (key = "children")); [done|].
  destruct (props_has nextProps key); [done|].
  destruct (if starts_with_on key then typeof_function value else None);
    [done|].
  case_bool_decide as Hst.
  { subst key. by apply last_write_remove_other. }
  case_bool_decide as Hcn.
  { subst key. by apply last_write_remove_other. }
  rewrite attribute_name_other in Hne by done.
  by apply last_write_remove_other.
Qed.

Lemma update_prop_other `{Registry} prevProps key value name :
  attribute_name key ≠ name →
  last_write name (update_prop prevProps key value) = None.
Proof.
  intros Hne. unfold update_prop.
  destruct (bool_decide (key = "children")); [done|].
  destruct (val_strict_eq _ _); [done|].
  destruct (starts_with_on key).
  { by destruct (typeof_function _), (typeof_function value). }
  destruct (if bool_decide (key = "style") then typeof_object value
            else None).
  { rewrite last_write_app, last_write_styles by done.
    apply last_write_cleared_styles. }
  case_bool_decide as Hcn.
  - subst key. by apply last_write_set_other.
  - rewrite attribute_name_other in Hne by done.
    destruct value as [| |[]| | |]; simpl;
      by rewrite ?last_write_set_other, ?last_write_remove_other.
Qed.

Lemma handler_key key :
  starts_with_on key = true → key ≠ "style" ∧ key ≠ "className".
Proof. intros Hso. split; intros ->; by vm_compute in Hso. Qed.

Lemma plain_write_nullish `{Registry} value :
  not_nullish value = false → plain_write value = None.
Proof. by destruct value. Qed.

(** What the three loop bodies write to the attribute of their key, when
    it is not [style]. *)
Lemma set_prop_write `{Registry} key value :
  key ≠ "children" → key ≠ "style" →
  (starts_with_on key = true →
     is_Some (typeof_function value) ∨ not_nullish value = false) →
  last_write (attribute_name key) (set_prop key value)
  = if starts_with_on key then None
    else if bool_decide (key = "className")
    then Some (Some (String_val value))
    else plain_write value.
Proof.
  intros Hc Hst Hon. unfold set_prop, plain_write.
  rewrite (bool_decide_eq_false_2 (key = "children")) by done.
  rewrite (bool_decide_eq_false_2 (key = "style")) by done.
  destruct (starts_with_on key) eqn:Hso.
  - destruct (handler_key key Hso) as [_ Hcn].
    rewrite (bool_decide_eq_false_2 (key = "className")) by done.
    destruct (Hon eq_refl) as [[l Hl]|Hnull]; [by rewrite Hl|].
    assert (typeof_function value = None) as ->
      by (destruct value; simpl in *; done).
    by destruct value.
  - destruct (decide (key = "className")) as [->|Hcn].
    + rewrite !(bool_decide_eq_true_2 ("className" = "className")) by done.
      apply (last_write_set "class").
    + rewrite !(bool_decide_eq_false_2 (key = "className")) by done.
      rewrite attribute_name_other by done.
      destruct value as [| |[]| | |]; simpl;
        by rewrite ?last_write_set, ?last_write_remove.
Qed.

Lemma remove_prop_write `{Registry} nextProps key value :
  key ≠ "children" →
  last_write (attribute_name key) (remove_prop nextProps key value)
  = if props_has nextProps key then None
    else if starts_with_on key && bool_decide (is_Some (typeof_function value))
    then None
    else Some None.
Proof.
  intros Hc. unfold remove_prop.
  rewrite (bool_decide_eq_false_2 (key = "children")) by done.
  destruct (props_has nextProps key); [done|].
  destruct (starts_with_on key) eqn:Hso; simpl.
  - destruct (handler_key key Hso) as [Hst Hcn].
    destruct (typeof_function value) eqn:Htf.
    + by rewrite bool_decide_eq_true_2 by by eexists.
    + rewrite (bool_decide_eq_false_2 (is_Some _)) by (intros []; done).
      rewrite (bool_decide_eq_false_2 (key = "style")),
              (bool_decide_eq_false_2 (key = "className")) by done.
      rewrite attribute_name_other by done. apply last_write_remove.
  - destruct (decide (key = "style")) as [->|Hst].
    { rewrite (bool_decide_eq_true_2 ("style" = "style")) by done.
      apply (last_write_remove "style"). }
    rewrite (bool_decide_eq_false_2 (key = "style")) by done.
    destruct (decide (key = "className")) as [->|Hcn].
    { rewrite (bool_decide_eq_true_2 ("className" = "className")) by done.
      apply (last_write_remove "class"). }
    rewrite (bool_decide_eq_false_2 (key = "className")) by done.
    rewrite attribute_name_other by done. apply last_write_remove.
Qed.

Lemma update_prop_write `{Registry} prevProps key value :
  key ≠ "children" → key ≠ "style" →
  last_write (attribute_name key) (update_prop prevProps key value)
  = if val_strict_eq (props_get prevProps key) value then None
    else if starts_with_on key then None
    else if bool_decide (key = "className")
    then Some (Some (String_val value))
    else match plain_write value with
         | Some w => Some w
         | None => Some None
         end.
Proof.
  intros Hc Hst. unfold update_prop, plain_write.
  rewrite (bool_decide_eq_false_2 (key = "children")) by done.
  rewrite (bool_decide_eq_false_2 (key = "style")) by done.
  destruct (val_strict_eq _ _); [done|].
  destruct (starts_with_on key) eqn:Hso.
  { by destruct (typeof_function _), (typeof_function value). }
  destruct (decide (key = "className")) as [->|Hcn].
  - rewrite !(bool_decide_eq_true_2 ("className" = "className")) by done.
    apply (last_write_set "class").
  - rewrite !(bool_decide_eq_false_2 (key = "className")) by done.
    rewrite attribute_name_other by done.
    destruct value as [| |[]| | |]; simpl;
      by rewrite ?last_write_set, ?last_write_remove.
Qed.

Lemma children_calls `{Registry} props value :
  set_prop "children" value = []
  ∧ remove_prop props "children" value = []
  ∧ update_prop props "children" value = [].
Proof.
  unfold set_prop, remove_prop, update_prop.
  by rewrite !(bool_decide_eq_true_2 ("children" = "children")).
Qed.

Lemma props_absent `{Registry} props key :
  key ∉ props.*1 → prototype_get key = None →
  props_has props key = false ∧ props_get props key = VUndefined.
Proof.
  intros Hnot Hproto. unfold props_has, props_get.
  assert (Map_get key props = None) as -> by by apply Map_get_None.
  rewrite Hproto. split; [|done]. apply bool_decide_eq_false_2. by intros [].
Qed.

Lemma style_key key : attribute_name key ≠ "style" → key ≠ "style".
Proof. intros Hne ->. by apply Hne. Qed.

(** A prop that [nextProps] does not have leaves no attribute. *)
Lemma removed_prop_attribute `{Registry} nextProps key value :
  key ∉ nextProps.*1 → prototype_get key = None →
  attribute_name key ≠ "style" →
  (starts_with_on key = true →
     is_Some (typeof_function value) ∨ not_nullish value = false) →
  match last_write (attribute_name key) (remove_prop nextProps key value) with
  | Some w => w
  | None => match last_write (attribute_name key) (set_prop key value) with
            | Some w => w
            | None => None
            end
  end = None.
Proof.
  intros Hnot Hproto Hname Hon.
  destruct (decide (key = "children")) as [->|Hc].
  { by destruct (children_calls nextProps value) as (-> & -> & _). }
  rewrite (remove_prop_write nextProps key value Hc),
          (set_prop_write key value Hc (style_key key Hname) Hon).
  destruct (props_absent nextProps key Hnot Hproto) as [-> _].
  destruct (starts_with_on key); simpl; [|done].
  by destruct (bool_decide (is_Some (typeof_function value))).
Qed.

(** A prop that [prevProps] does not have is written as on a new
    element. *)
Lemma added_prop_attribute `{Registry} prevProps key value :
  key ∉ prevProps.*1 → prototype_get key = None →
  attribute_name key ≠ "style" →
  (starts_with_on key = true →
     is_Some (typeof_function value) ∨ not_nullish value = false) →
  (key = "className" → value ≠ VUndefined) →
  match last_write (attribute_name key) (update_prop prevProps key value) with
  | Some w => w
  | None => None
  end
  = match last_write (attribute_name key) (set_prop key value) with
    | Some w => w
    | None => None
    end.
Proof.
  intros Hnot Hproto Hname Hon Hclass.
  destruct (decide (key = "children")) as [->|Hc].
  { by destruct (children_calls prevProps value) as (-> & _ & ->). }
  rewrite (update_prop_write prevProps key value Hc (style_key key Hname)),
          (set_prop_write key value Hc (style_key key Hname) Hon).
  destruct (props_absent prevProps key Hnot Hproto) as [_ ->].
  destruct (val_strict_eq VUndefined value) eqn:Heq.
  - apply val_strict_eq_eq in Heq as <-.
    destruct (starts_with_on key); [done|].
    case_bool_decide as Hcl; [|done]. by destruct (Hclass Hcl).
  - destruct (starts_with_on key); [done|].
    destruct (bool_decide (key = "className")); [done|].
    by destruct (plain_write value).
Qed.

(** A prop that both have is written as on a new element. *)
Lemma kept_prop_attribute `{Registry} prevProps key prevValue nextValue :
  NoDup prevProps.*1 → (key, prevValue) ∈ prevProps →
  attribute_name key ≠ "style" →
  (starts_with_on key = true →
     is_Some (typeof_function prevValue) ∨ not_nullish prevValue = false) →
  (starts_with_on key = true →
     is_Some (typeof_function nextValue) ∨ not_nullish nextValue = false) →
  match last_write (attribute_name key)
                   (update_prop prevProps key nextValue) with
  | Some w => w
  | None => match last_write (attribute_name key) (set_prop key prevValue) with
            | Some w => w
            | None => None
            end
  end
  = match last_write (attribute_name key) (set_prop key nextValue) with
    | Some w => w
    | None => None
    end.
Proof.
  intros Hnd Hin Hname Hprev Hnext.
  destruct (decide (key = "children")) as [->|Hc].
  { destruct (children_calls prevProps prevValue) as (-> & _ & _).
    by destruct (children_calls prevProps nextValue) as (-> & _ & ->). }
  rewrite (update_prop_write prevProps key nextValue Hc (style_key key Hname)),
          (set_prop_write key prevValue Hc (style_key key Hname) Hprev),
          (set_prop_write key nextValue Hc (style_key key Hname) Hnext).
  destruct (props_get_own prevProps key prevValue Hnd Hin) as [-> _].
  destruct (val_strict_eq prevValue nextValue) eqn:Heq.
  { by apply val_strict_eq_eq in Heq as ->. }
  destruct (starts_with_on key); [done|].
  destruct (bool_decide (key = "className")); [done|].
  by destruct (plain_write nextValue).
Qed.

(** [updateDomProps] makes no [setAttribute] call that [setDomProps] with
    the new props would not make. *)
Lemma update_prop_accepted `{Registry} prevProps key value :
  Forall (λ call, call_accepted call = true) (set_prop key value) →
  Forall (λ call, call_accepted call = true) (update_prop prevProps key value).
Proof.
  unfold set_prop, update_prop.
  destruct (bool_decide (key = "children")); [done|].
  destruct (val_strict_eq _ _); [done|].
  destruct (starts_with_on key).
  { intros _. destruct (typeof_function _), (typeof_function value);
      by repeat constructor. }
  destruct (if bool_decide (key = "style") then typeof_object value
            else None).
  { intros _. apply Forall_app. split.
    - apply Forall_concat, Forall_map, Forall_true.
      intros x. destruct (object_has _ x); by repeat constructor.
    - by apply Forall_map, Forall_true. }
  destruct (bool_decide (key = "className")); [done|].
  destruct value as [| |[]| | |]; simpl; try done; by repeat constructor.
Qed.

Lemma remove_prop_accepted `{Registry} nextProps key value :
  Forall (λ call, call_accepted call = true) (remove_prop nextProps key value).
Proof.
  unfold remove_prop.
  destruct (bool_decide (key = "children")); [done|].
  destruct (props_has nextProps key); [done|].
  destruct (if starts_with_on key then typeof_function value else None);
    [by repeat constructor|].
  repeat case_bool_decide; by repeat constructor.
Qed.

(** Updating an element that has the attributes of [prevProps] to
    [nextProps] leaves it with the attributes that [nextProps] gives a
    new element, [style] left aside, and throws nothing when setting
    [nextProps] on a new element throws nothing.  This is for props
    objects no two keys of which name the same attribute and none of
    which is a key of [Object.prototype], whose handlers are functions
    (or null or undefined), and where [className] does not appear with
    the value undefined. *)
Theorem updateDomProps_attributes `{Registry}
    (prevProps nextProps : list (string * Val))
    (attributes before expected : gmap string string) :
  one_key_per_attribute prevProps → one_key_per_attribute nextProps →
  no_inherited_key prevProps → no_inherited_key nextProps →
  handlers_are_functions prevProps → handlers_are_functions nextProps →
  (("className", VUndefined) ∈ nextProps → "className" ∈ prevProps.*1) →
  attributes_after (setDomProps_calls prevProps) ∅ = Some before →
  attributes_after (setDomProps_calls nextProps) ∅ = Some expected →
  same_attributes attributes before →
  ∃ after,
    attributes_after (updateDomProps_calls prevProps nextProps) attributes
    = Some after
    ∧ same_attributes after expected.
Proof.
  intros Honep Honen Hprotop Hproton Hhp Hhn Hclass Hbefore Hexpected Hsame.
  destruct (attributes_after_Some _ _ _ Hbefore) as [_ Hb].
  destruct (attributes_after_Some _ _ _ Hexpected) as [Hacc He].
  destruct (attributes_after_accepted
              (updateDomProps_calls prevProps nextProps) attributes)
    as [after Hafter].
  { unfold updateDomProps_calls, setDomProps_calls in *.
    apply Forall_app. split; apply Forall_concat_map.
    - intros [k v] _. apply remove_prop_accepted.
    - intros [k v] Hin. apply update_prop_accepted.
      by apply (proj1 (Forall_concat_map _ _ _) Hacc (k, v)). }
  exists after. split; [done|]. intros name Hname.
  destruct (attributes_after_Some _ _ _ Hafter) as [_ Ha].
  rewrite Ha, He, (Hsame name Hname), Hb, lookup_empty.
  unfold updateDomProps_calls, setDomProps_calls. rewrite last_write_app.
  assert (NoDup prevProps.*1) as Hndp by by eapply NoDup_fmap_1.
  destruct (last_write_props (λ kv, set_prop kv.1 kv.2) prevProps name Honep)
    as [Hset_p Hset_p0]; [intros [k v] _; apply set_prop_other|].
  destruct (last_write_props (λ kv, remove_prop nextProps kv.1 kv.2)
              prevProps name Honep)
    as [Hrem Hrem0]; [intros [k v] _; apply remove_prop_other|].
  destruct (last_write_props (λ kv, update_prop prevProps kv.1 kv.2)
              nextProps name Honen)
    as [Hupd Hupd0]; [intros [k v] _; apply update_prop_other|].
  destruct (last_write_props (λ kv, set_prop kv.1 kv.2) nextProps name Honen)
    as [Hset_n Hset_n0]; [intros [k v] _; apply set_prop_other|].
  assert (∀ props : list (string * Val),
            (∃ k v, (k, v) ∈ props ∧ attribute_name k = name)
            ∨ (∀ e, e ∈ props → attribute_name e.1 ≠ name)) as Hfind.
  { intros props.
    destruct (decide (name ∈ attribute_name <$> props.*1)) as [Hin|Hnin].
    - left. apply list_elem_of_fmap in Hin as (k & -> & Hk).
      apply list_elem_of_fmap in Hk as ([k' v] & -> & Hkv). by exists k', v.
    - right. intros [k v] Hkv Hk. apply Hnin. rewrite <- Hk.
      apply list_elem_of_fmap. exists k. split; [done|].
      apply list_elem_of_fmap. by exists (k, v). }
  assert (∀ (props : list (string * Val)) k v, (k, v) ∈ props → k ∈ props.*1)
    as Hkey.
  { intros props k v Hin. apply list_elem_of_fmap. by exists (k, v). }
  assert (∀ (props : list (string * Val)) k,
            (∀ e, e ∈ props → attribute_name e.1 ≠ name) →
            attribute_name k = name → k ∉ props.*1) as Hnone.
  { intros props k Hno Hk Hin.
    apply list_elem_of_fmap in Hin as ([k' v] & -> & Hin).
    by apply (Hno _ Hin). }
  destruct (Hfind prevProps) as [(kp & vp & Hp & Hnamep)|Hnop],
           (Hfind nextProps) as [(kn & vn & Hn & Hnamen)|Hnon].
  - (* a key of each is written to the attribute *)
    rewrite (Hset_p _ Hp Hnamep), (Hrem _ Hp Hnamep), (Hupd _ Hn Hnamen),
            (Hset_n _ Hn Hnamen). simpl.
    destruct (decide (kp = kn)) as [->|Hne].
    + (* the same key *)
      assert (props_has nextProps kn = true) as Hhas.
      { eapply props_get_own; [by eapply NoDup_fmap_1|done]. }
      assert (last_write name (remove_prop nextProps kn vp) = None) as ->.
      { unfold remove_prop. rewrite Hhas. by destruct (bool_decide _). }
      subst name.
      rewrite <- (kept_prop_attribute prevProps kn vp vn Hndp Hp Hname
                    (Hhp _ _ Hp) (Hhn _ _ Hn)).
      by destruct (last_write _ (update_prop _ _ _)).
    + (* two keys of the same attribute *)
      assert (kp ∉ nextProps.*1) as Hnp.
      { intros Hin. apply Hne.
        apply (one_key_per_attribute_inj nextProps); [done|done| |congruence].
        by eapply Hkey. }
      assert (kn ∉ prevProps.*1) as Hnn.
      { intros Hin. apply Hne.
        apply (one_key_per_attribute_inj prevProps); [done| |done|congruence].
        by eapply Hkey. }
      assert (attribute_name kp ≠ "style") as Hsp by congruence.
      assert (attribute_name kn ≠ "style") as Hsn by congruence.
      pose proof (removed_prop_attribute nextProps kp vp Hnp
                    (Hprotop _ (Hkey _ _ _ Hp)) Hsp (Hhp _ _ Hp)) as Hgone.
      pose proof (added_prop_attribute prevProps kn vn Hnn
                    (Hproton _ (Hkey _ _ _ Hn)) Hsn (Hhn _ _ Hn)) as Hnew.
      rewrite Hnamep in Hgone. rewrite Hnamen in Hnew.
      rewrite <- Hnew.
      * destruct (last_write name (update_prop prevProps kn vn)); [done|].
        exact Hgone.
      * intros -> ->. by apply Hnn, Hclass.
  - (* a key of [prevProps] only *)
    rewrite (Hset_p _ Hp Hnamep), (Hrem _ Hp Hnamep), (Hupd0 Hnon),
            (Hset_n0 Hnon). simpl.
    assert (attribute_name kp ≠ "style") as Hsp by congruence.
    pose proof (removed_prop_attribute nextProps kp vp
                  (Hnone nextProps kp Hnon Hnamep)
                  (Hprotop _ (Hkey _ _ _ Hp)) Hsp (Hhp _ _ Hp)) as Hgone.
    by rewrite Hnamep in Hgone.
  - (* a key of [nextProps] only *)
    rewrite (Hset_p0 Hnop), (Hrem0 Hnop), (Hupd _ Hn Hnamen),
            (Hset_n _ Hn Hnamen). simpl.
    assert (attribute_name kn ≠ "style") as Hsn by congruence.
    assert (kn ∉ prevProps.*1) as Hnn by by apply Hnone.
    pose proof (added_prop_attribute prevProps kn vn Hnn
                  (Hproton _ (Hkey _ _ _ Hn)) Hsn (Hhn _ _ Hn)) as Hnew.
    rewrite Hnamen in Hnew. rewrite <- Hnew.
    + by destruct (last_write name (update_prop prevProps kn vn)).
    + intros -> ->. by apply Hnn, Hclass.
  - (* no key is written to the attribute *)
    by rewrite (Hset_p0 Hnop), (Hrem0 Hnop), (Hupd0 Hnon), (Hset_n0 Hnon).
Qed.

(** ** What a pass of the reconciler leaves of the engine *)

#[global] Instance store_only_preorder : PreOrder store_only.
Proof.
  split.
  - intros c. exists (heap c), (document c), (trace c). by destruct c.
  - intros c1 c2 c3 (h1 & doc1 & tr1 & ->) (h2 & doc2 & tr2 & ->).
    by exists h2, doc2, tr2.
Qed.

#[global] Instance engine_kept_preorder : PreOrder engine_kept.
Proof.
  split.
  - intros c. split_and!; try done; by exists []; rewrite app_nil_r.
  - intros c1 c2 c3 (Ha1 & Hb1 & Hc1 & Hv1 & [q1 Hq1] & [m1 Hm1] & Hi1)
                    (Ha2 & Hb2 & Hc2 & Hv2 & [q2 Hq2] & [m2 Hm2] & Hi2).
    split_and!; try congruence.
    + set_solver.
    + exists (q1 ++ q2). by rewrite Hq2, Hq1, (assoc_L (++)).
    + exists (m1 ++ m2). by rewrite Hm2, Hm1, (assoc_L (++)).
    + auto.
Qed.

#[global] Instance reconciler_pass_preorder : PreOrder reconciler_pass.
Proof.
  split.
  - intros c. by split.
  - intros c1 c2 c3 [H1 Hs1] [H2 Hs2]. split; [by etrans|congruence].
Qed.

Lemma store_only_pass c c' : store_only c c' → reconciler_pass c c'.
Proof.
  intros (h & doc & tr & ->). split; [|done].
  split_and!; try done; by exists []; rewrite app_nil_r.
Qed.

(** *** The operations on the Instances and the DOM *)

Lemma store_modify f :
  (∀ c, store_only c (f c)) → keeps store_only (modify f).
Proof. intros Hf. by apply keeps_modify. Qed.

Lemma store_heap_get i : keeps store_only (heap_get i).
Proof.
  intros c a c' E. apply heap_get_Ok in E as [-> _]. reflexivity.
Qed.

Lemma store_heap_alloc inst : keeps store_only (heap_alloc inst).
Proof.
  intros c a c' [= <- <-].
  exists (heap c ++ [inst]), (document c), (trace c). by destruct c.
Qed.

Lemma store_heap_alter f i : keeps store_only (heap_alter f i).
Proof.
  apply store_modify. intros c.
  exists (alter f i (heap c)), (document c), (trace c). by destruct c.
Qed.

Lemma store_dom_get d : keeps store_only (dom_get d).
Proof.
  intros c a c'. unfold dom_get. destruct (document c !! d); [|done].
  intros [= <- <-]. reflexivity.
Qed.

Lemma store_dom_alter f d : keeps store_only (dom_alter f d).
Proof.
  apply store_modify. intros c.
  exists (heap c), (alter f d (document c)), (trace c). by destruct c.
Qed.

Lemma store_emit evs : keeps store_only (emit evs).
Proof.
  apply store_modify. intros c.
  exists (heap c), (document c), (trace c ++ evs). by destruct c.
Qed.

Ltac store_prim :=
  first
    [ apply store_heap_get | apply store_heap_alloc | apply store_heap_alter
    | apply store_dom_get | apply store_dom_alter | apply store_emit
    | apply keeps_throw | apply keeps_halt | k_ret | k_gets ].

Lemma store_detach node : keeps store_only (detach node).
Proof.
  unfold detach. k_bind; [store_prim|intros n].
  destruct (dom_parentNode n); [|k_ret].
  k_bind; [store_prim|intros _; store_prim].
Qed.

Lemma store_removeChild node : keeps store_only (removeChild node).
Proof.
  unfold removeChild. k_bind; [store_prim|intros n].
  destruct (dom_parentNode n); [|k_ret].
  k_bind; [apply store_detach|intros _; store_prim].
Qed.

Lemma store_appendChild parentDom node :
  keeps store_only (appendChild parentDom node).
Proof.
  unfold appendChild. k_bind; [apply store_detach|intros _].
  k_bind; [store_prim|intros _]. k_bind; [store_prim|intros _; store_prim].
Qed.

Lemma store_insertBefore parentDom node anchor :
  keeps store_only (insertBefore parentDom node anchor).
Proof.
  unfold insertBefore. k_bind; [store_prim|intros a].
  destruct (decide _); [|store_prim].
  k_bind; [|intros _; store_prim].
  destruct (decide _); [k_ret|].
  k_bind; [apply store_detach|intros _].
  k_bind; [store_prim|intros _; store_prim].
Qed.

Lemma store_createElement `{Registry} tag :
  keeps store_only (createElement tag).
Proof.
  intros c a c' E. unfold createElement in E.
  destruct (valid_tag_name tag); [|done]. injection E as <- <-.
  eexists (heap c), _, _. by destruct c.
Qed.

Lemma store_setDomProps `{Registry} d p : keeps store_only (setDomProps d p).
Proof.
  unfold setDomProps. k_bind; [apply store_emit|intros _].
  destruct (forallb _ _); [k_ret|apply keeps_throw].
Qed.

Lemma store_updateDomProps `{Registry} d prevProps nextProps :
  keeps store_only (updateDomProps d prevProps nextProps).
Proof.
  unfold updateDomProps. k_bind; [apply store_emit|intros _].
  destruct (forallb _ _); [k_ret|apply keeps_throw].
Qed.

Lemma store_createTextNode text : keeps store_only (createTextNode text).
Proof.
  intros c a c' [= <- <-]. eexists (heap c), _, _. by destruct c.
Qed.

Lemma store_getDomNodes fuel instance :
  keeps store_only (getDomNodes fuel instance).
Proof.
  apply keeps_eq_weaken; [apply _|]. apply getDomNodes_reads.
Qed.

Lemma store_getFirstDom fuel :
  ∀ instance, keeps store_only (getFirstDom fuel instance).
Proof.
  induction fuel as [|fuel IH]; intros instance; cbn [getFirstDom].
  - apply keeps_halt.
  - destruct instance as [i|]; [|k_ret].
    k_bind; [store_prim|intros inst].
    destruct (owns_dom _); [k_ret|].
    k_fold. intros found child. destruct found; [k_ret|apply IH].
Qed.

Lemma store_getFirstDomFromChildren fuel l :
  keeps store_only (getFirstDomFromChildren fuel l).
Proof.
  unfold getFirstDomFromChildren. k_fold. intros found child.
  destruct found; [k_ret|apply store_getFirstDom].
Qed.

Lemma store_insertInstance fuel parentDom instance anchor :
  keeps store_only (insertInstance fuel parentDom instance anchor).
Proof.
  unfold insertInstance. destruct instance; [|k_ret].
  k_bind; [apply store_getDomNodes|intros nodes].
  k_for. intros node.
  destruct anchor; [apply store_insertBefore|apply store_appendChild].
Qed.

Lemma store_removeInstance fuel instance :
  keeps store_only (removeInstance fuel instance).
Proof.
  unfold removeInstance. destruct instance; [|k_ret].
  k_bind; [apply store_getDomNodes|intros nodes].
  k_for. intros node. apply store_removeChild.
Qed.

Lemma store_unmount fuel : ∀ instance, keeps store_only (unmount fuel instance).
Proof.
  induction fuel as [|fuel IH]; intros instance; cbn [unmount].
  - apply keeps_halt.
  - k_bind; [store_prim|intros inst].
    k_bind; [k_for; apply IH|intros _]. apply store_removeInstance.
Qed.

Lemma store_index_by_key l : keeps store_only (index_by_key l).
Proof.
  unfold index_by_key. k_fold. intros m child.
  k_bind; [store_prim|intros inst]. destruct (negb _); k_ret.
Qed.

Lemma store_removeChild_of container child :
  keeps store_only (removeChild_of container child).
Proof.
  unfold removeChild_of. k_bind; [store_prim|intros n].
  destruct (decide _); [|store_prim].
  k_bind; [apply store_detach|intros _; store_prim].
Qed.

Lemma store_removeChildren fuel container :
  keeps store_only (removeChildren fuel container).
Proof.
  induction fuel as [|fuel IH]; cbn [removeChildren].
  - apply keeps_halt.
  - k_bind; [store_prim|intros n].
    destruct (dom_childNodes n); [k_ret|].
    k_bind; [apply store_removeChild_of|intros _; apply IH].
Qed.

Ltac pass_prim :=
  apply (keeps_weaken store_only reconciler_pass);
  [apply store_only_pass|];
  first
    [ store_prim
    | apply store_detach | apply store_removeChild | apply store_appendChild
    | apply store_insertBefore | apply store_createElement
    | apply store_setDomProps | apply store_updateDomProps
    | apply store_createTextNode | apply store_getDomNodes
    | apply store_getFirstDom | apply store_getFirstDomFromChildren
    | apply store_insertInstance | apply store_removeInstance
    | apply store_unmount | apply store_index_by_key ].

(** *** The hooks *)

Lemma Map_keys_set {V} (m : list (string * V)) k v k' :
  k' ∈ Map_keys (Map_set k v m) → k' = k ∨ k' ∈ Map_keys m.
Proof.
  unfold Map_keys. induction m as [|[k0 v0] m IH]; simpl.
  - intros ->%list_elem_of_singleton. by left.
  - destruct (decide (k = k0)) as [->|Hne]; simpl.
    + intros [->|Hk]%elem_of_cons; [by left|]. right. by right.
    + intros [->|Hk]%elem_of_cons; [right; by left|].
      destruct (IH Hk) as [->|Hin]; [by left|]. right. by right.
Qed.

Lemma Map_get_Some_key {V} (m : list (string * V)) k v :
  Map_get k m = Some v → k ∈ Map_keys m.
Proof.
  intros Hget. destruct (decide (k ∈ Map_keys m)) as [|Hnot]; [done|].
  apply Map_get_None in Hnot. congruence.
Qed.

(** A step that touches neither the root, the visited paths nor the
    component stack, and makes hook state for no other path than [path],
    which is the component being rendered or has hook state. *)
Lemma pass_fields c c' path :
  last (hooks_componentStack c) = Some path
  ∨ path ∈ Map_keys (hooks_state c) →
  root_container c' = root_container c →
  root_node c' = root_node c →
  root_instance c' = root_instance c →
  hooks_visited c' = hooks_visited c →
  hooks_componentStack c' = hooks_componentStack c →
  (∃ more, effects_queue c' = effects_queue c ++ more) →
  (∃ more, microtasks c' = microtasks c ++ more) →
  (∀ k, k ∈ Map_keys (hooks_state c') →
        k = path ∨ k ∈ Map_keys (hooks_state c)) →
  reconciler_pass c c'.
Proof.
  intros Hpath Ha Hb Hc Hv Hs Hq Hm Hk. split; [|done].
  split_and!; try done; [by rewrite Hv|].
  intros [Hkeys Hstack]. split.
  - intros k Hin. rewrite Hv. destruct (Hk k Hin) as [->|Hold]; [|by auto].
    destruct Hpath as [Hlast|Hin']; [|by auto].
    apply Hstack. apply last_Some in Hlast as [l ->].
    apply elem_of_app. right. by left.
  - intros k Hin. rewrite Hv. apply Hstack. by rewrite <- Hs.
Qed.

Ltac keys_of_set :=
  let k := fresh "k" in
  let Hk := fresh "Hk" in
  intros k Hk; simpl in Hk;
  repeat (apply Map_keys_set in Hk as [->|Hk]; [by left|]); by right.

Ltac pass_step path :=
  apply (pass_fields _ _ path); simpl;
  [ by auto | done | done | done | done | done
  | first [ by exists []; rewrite app_nil_r | by eexists ]
  | first [ by exists []; rewrite app_nil_r | by eexists ]
  | keys_of_set ].

Lemma pass_set_cursor path n : keeps reconciler_pass (set_cursor path n).
Proof.
  intros c a c' [= <- <-]. split; [|done].
  split_and!; try done; by exists []; rewrite app_nil_r.
Qed.

Lemma pass_useState init : keeps reconciler_pass (useState init).
Proof.
  intros c a c' E. run.
  destruct (last (hooks_componentStack c)) as [path|] eqn:Hlast; [|done].
  cbv beta iota in E. repeat (rewrite Hlast in E; cbv beta iota in E).
  destruct (Map_get path (hooks_state c)) as [hooks|] eqn:Hget;
    simpl in E; set (cursor := default 0 (hooks_cursor c !! path)) in E;
    try (destruct (decide _); simpl in E).
  all: match type of E with
       | context [match ?l !! ?i with _ => _ end] =>
           destruct (l !! i) as [[v|e]|]
       end; try done.
  all: injection E as <- <-; pass_step path.
Qed.

Lemma pass_useEffect e d : keeps reconciler_pass (useEffect e d).
Proof.
  intros c a c' E. run.
  destruct (last (hooks_componentStack c)) as [path|] eqn:Hlast; [|done].
  cbv beta iota in E. repeat (rewrite Hlast in E; cbv beta iota in E).
  destruct (Map_get path (hooks_state c)) as [hooks|] eqn:Hget;
    simpl in E; set (cursor := default 0 (hooks_cursor c !! path)) in E;
    try (destruct (decide _); simpl in E).
  all: try match type of E with
       | context [match ?l !! ?i with _ => _ end] =>
           destruct (l !! i) as [[v|prev]|]; try done;
           destruct (match d with Some _ => _ | None => _ end)
       end; simpl in E.
  all: injection E as <- <-; pass_step path.
Qed.

Lemma pass_setState s arg : keeps reconciler_pass (setState s arg).
Proof.
  intros c a c' E. unfold setState in E.
  destruct (Map_get (setter_path s) (hooks_state c)) as [arr|] eqn:Hget;
    [|done].
  apply Map_get_Some_key in Hget.
  unfold bind, read_state in E.
  destruct (arr !! setter_cursor s) as [[v|e]|]; try done;
    unfold ret in E; cbv beta iota in E;
    (destruct (Object_is _ _); [injection E as <- <-; reflexivity|]);
    unfold modify in E; rewrite enqueueRender_requested in E;
    injection E as <- <-; unfold render_requested; simpl;
    destruct (scheduled c); pass_step (setter_path s).
Qed.

Lemma pass_run_component body : keeps reconciler_pass (run_component body).
Proof.
  induction body as [node|init k IH|e d k IH|s arg k IH]; simpl.
  - k_ret.
  - k_bind; [apply pass_useState|]. intros r. apply IH.
  - k_bind; [apply pass_useEffect|]. intros _. apply IH.
  - k_bind; [apply pass_setState|]. intros _. apply IH.
Qed.

(** *** The reconciler *)

Lemma elem_of_removelast {A} (l : list A) x : x ∈ removelast l → x ∈ l.
Proof.
  induction l as [|y l IH]; [done|]. simpl.
  destruct l as [|z l]; [by intros ?%elem_of_nil|].
  intros [->|Hin]%elem_of_cons; [by left|]. right. by apply IH.
Qed.

(** A component is entered: its path goes on the stack and among the
    visited ones, and its cursor to 0. *)
Lemma component_entered path c :
  engine_kept c
    (with_hooks_cursor (<[path := 0]> (hooks_cursor c))
       (with_hooks_visited ({[path]} ∪ hooks_visited c)
          (with_hooks_componentStack (hooks_componentStack c ++ [path]) c))).
Proof.
  split_and!; simpl; try done; try (by exists []; rewrite app_nil_r).
  - set_solver.
  - intros [Hkeys Hstack]. split; simpl.
    + intros k Hk. apply elem_of_union. right. by apply Hkeys.
    + intros k [Hk|Hk]%elem_of_app.
      * apply elem_of_union. right. by apply Hstack.
      * apply list_elem_of_singleton in Hk as ->.
        apply elem_of_union. left. by apply elem_of_singleton.
Qed.

(** A component is left: its path comes off the stack. *)
Lemma component_left l i c :
  engine_kept c
    (with_heap (alter (set_children l) i (heap c))
       (with_hooks_componentStack (removelast (hooks_componentStack c)) c)).
Proof.
  split_and!; simpl; try done; try (by exists []; rewrite app_nil_r).
  intros [Hkeys Hstack]. split; simpl; [done|].
  intros k Hk. by apply Hstack, elem_of_removelast.
Qed.

Lemma reconciler_passes `{Registry} (fuel : nat) :
  (∀ parentDom instance node path,
     keeps reconciler_pass (reconcile fuel parentDom instance node path))
  ∧ (∀ parentDom node path,
       keeps reconciler_pass (mount fuel parentDom node path))
  ∧ (∀ parentDom instance node path,
       keeps reconciler_pass (update fuel parentDom instance node path))
  ∧ (∀ parentDom instance children' parentPath,
       keeps reconciler_pass
         (reconcileChildren fuel parentDom instance children' parentPath)).
Proof.
  induction fuel as [|fuel (IHrec & IHmount & IHupdate & IHchildren)].
  { split_and!; intros; apply keeps_halt. }
  split_and!.
  - (* reconcile *)
    intros parentDom instance node path. cbn [reconcile].
    destruct node as [node|]; cycle 1.
    { k_bind; [|intros _; k_ret]. destruct instance; pass_prim. }
    destruct instance as [i|]; cycle 1.
    { k_bind; [apply IHmount|intros m; k_ret]. }
    k_bind; [pass_prim|intros inst].
    destruct (negb _ || negb _).
    + k_bind; [pass_prim|intros _].
      k_bind; [apply IHmount|intros m; k_ret].
    + k_bind; [apply IHupdate|intros u; k_ret].
  - (* mount *)
    intros parentDom node path. cbn [mount].
    k_bind.
    { destruct (type node).
      - k_bind; [pass_prim|intros dom; k_ret].
      - k_ret.
      - k_bind; [pass_prim|intros dom].
        k_bind; [pass_prim|intros _; k_ret].
      - k_ret. }
    intros kd. k_bind; [pass_prim|intros instance].
    k_bind; [apply IHchildren|intros _; k_ret].
  - (* update *)
    intros parentDom instance node path. cbn [update].
    k_bind; [pass_prim|intros inst].
    k_bind; [pass_prim|intros _].
    k_bind; [pass_prim|intros _].
    k_bind.
    { destruct (inst_kind inst), (inst_dom inst); try k_ret.
      - pass_prim.
      - k_bind; [pass_prim|intros t]. destruct (bool_decide _); [k_ret|].
        k_bind; [pass_prim|intros _]. pass_prim. }
    intros _. k_bind; [apply IHchildren|intros _; k_ret].
  - (* reconcileChildren *)
    intros parentDom instance children' parentPath. cbn [reconcileChildren].
    k_bind; [pass_prim|intros inst].
    destruct (bool_decide (inst_kind inst = COMPONENT)).
    + intros c a c' E.
      apply bind_Ok in E as ([] & c1 & [= <-] & E).
      apply bind_Ok in E as ([] & c2 & [= <-] & E).
      apply bind_Ok in E as ([] & c3 & [= <-] & E).
      apply bind_Ok in E as (componentNode & c4 & Hcomp & E).
      apply bind_Ok in E as (childInstance & c5 & Hchild & E).
      apply bind_Ok in E as (newChildren' & c6 & Hins & E).
      apply bind_Ok in E as ([] & c7 & [= <-] & [= <- <-]).
      pose proof (component_entered parentPath c) as Hin.
      assert (reconciler_pass
                (with_hooks_cursor (<[parentPath := 0]> (hooks_cursor c))
                   (with_hooks_visited ({[parentPath]} ∪ hooks_visited c)
                      (with_hooks_componentStack
                         (hooks_componentStack c ++ [parentPath]) c)))
                c6) as [Hmid Hstack].
      { etrans; [|etrans].
        - match type of Hcomp with ?m _ = _ =>
            assert (keeps reconciler_pass m) as Hk end.
          { destruct (type (inst_node inst)); try apply keeps_throw.
            apply pass_run_component. }
          exact (Hk _ _ _ Hcomp).
        - exact (IHrec _ _ _ _ _ _ _ Hchild).
        - match type of Hins with ?m _ = _ =>
            assert (keeps reconciler_pass m) as Hk end.
          { destruct childInstance; [|k_ret].
            k_bind; [|intros _; k_ret].
            destruct (ref_differs _ _); pass_prim. }
          exact (Hk _ _ _ Hins). }
      pose proof (component_left newChildren' instance c6) as Hout.
      split; [etrans; [exact Hin|]; etrans; [exact Hmid|exact Hout]|].
      simpl. rewrite Hstack. simpl. by rewrite removelast_last.
    + k_bind.
      { destruct (bool_decide _); [destruct (inst_dom inst)|]; pass_prim. }
      intros parentDomForChildren.
      k_bind; [pass_prim|intros byKey].
      k_bind.
      { k_fold. intros st [i [child|]]; unfold reconcile_child; [|k_ret].
        destruct (select_oldChild _ _ _ _ _) as [[oldChild byKey'] used'].
        k_bind; [apply IHrec|intros newChild].
        destruct newChild as [nc|]; [|k_ret].
        k_bind; [|intros _; k_ret].
        destruct (_ || _); [|k_ret].
        k_bind; [pass_prim|intros anchor]. pass_prim. }
      intros final.
      k_bind; [|intros _; pass_prim].
      k_for. intros oldChild. destruct (bool_decide _); pass_prim.
Qed.

(** [reconcile] leaves the root of the engine and the component stack as
    they were; it only adds to the visited paths, and only appends to the
    effect queue and to the microtask queue.  When all hook state belonged
    to visited paths before, it does so afterwards. *)
Theorem reconcile_leaves_engine `{Registry} (fuel : nat) (parentDom : nat)
    (instance : option nat) (node : option VNode) (path : string)
    (c c' : Context) (r : option nat) :
  reconcile fuel parentDom instance node path c = Ok r c' →
  root_container c' = root_container c
  ∧ root_node c' = root_node c
  ∧ root_instance c' = root_instance c
  ∧ hooks_componentStack c' = hooks_componentStack c
  ∧ hooks_visited c ⊆ hooks_visited c'
  ∧ (∃ more, effects_queue c' = effects_queue c ++ more)
  ∧ (∃ more, microtasks c' = microtasks c ++ more)
  ∧ (hook_paths_visited c → hook_paths_visited c').
Proof.
  intros E. destruct (reconciler_passes fuel) as (Hrec & _).
  destruct (Hrec _ _ _ _ _ _ _ E)
    as ((Ha & Hb & Hc & Hv & Hq & Hm & Hi) & Hs).
  by split_and!.
Qed.

(** ** The root ([core/setup.ts]) *)

Lemma general_removeChildren fuel container :
  keeps general (removeChildren fuel container).
Proof.
  induction fuel as [|fuel IH]; cbn [removeChildren].
  - apply keeps_halt.
  - k_bind; [apply keeps_dom_get; apply _|intros n].
    destruct (dom_childNodes n) as [|firstChild rest]; [k_ret|].
    k_bind; [|intros _; apply IH].
    unfold removeChild_of. k_bind; [apply keeps_dom_get; apply _|intros m].
    destruct (decide _); [|apply keeps_throw].
    k_bind; [apply keeps_detach; apply _|intros _].
    apply keeps_emit; [apply _|]. by apply Forall_singleton.
Qed.

Lemma store_attach_root fuel container :
  keeps store_only (attach_root fuel container).
Proof.
  unfold attach_root. k_bind; [k_gets|intros instance].
  destruct instance as [i|]; [|k_ret].
  k_bind; [apply store_getFirstDom|intros firstDom].
  destruct firstDom as [d|]; [|k_ret].
  k_bind; [store_prim|intros node].
  destruct (dom_parentNode node); [k_ret|apply store_insertInstance].
Qed.

(** With all hook state at visited paths, [cleanupUnusedHooks] has nothing
    to do. *)
Lemma cleanupUnusedHooks_nothing c :
  (∀ path, path ∈ Map_keys (hooks_state c) → path ∈ hooks_visited c) →
  cleanupUnusedHooks c = c.
Proof.
  intros Hkeys. unfold cleanupUnusedHooks, pathsToDelete.
  assert (filter (λ path, path ∉ hooks_visited c) (Map_keys (hooks_state c))
          = []) as ->; [|done].
  induction (Map_keys (hooks_state c)) as [|k keys IH]; [done|].
  rewrite filter_cons, decide_False.
  - apply IH. intros path Hin. apply Hkeys. by right.
  - intros Hnot. apply Hnot, Hkeys. by left.
Qed.

(** A render pass of an engine without hook state. *)
Lemma render_without_hooks `{Registry} fuel container node c c' :
  root_container c = Some container → root_node c = Some node →
  hooks_state c = [] → hooks_componentStack c = [] →
  render fuel c = Ok tt c' →
  root_container c' = Some container
  ∧ root_node c' = Some node
  ∧ hooks_componentStack c' = []
  ∧ effects_queue c' = []
  ∧ (∀ path, path ∈ Map_keys (hooks_state c') → path ∈ hooks_visited c')
  ∧ (∃ more, microtasks c' = microtasks c ++ more)
  ∧ trace_grows dom_event c c'.
Proof.
  intros Hcont Hnode Hstate Hstack E. unfold render in E.
  rewrite Hcont, Hnode in E.
  apply bind_Ok in E as ([] & c1 & [= <-] & E).
  apply bind_Ok in E as (previous & c2 & [= <- <-] & E).
  apply bind_Ok in E as (instance & c3 & Hrec & E).
  apply bind_Ok in E as ([] & c4 & [= <-] & E).
  apply bind_Ok in E as ([] & c5 & Hatt & E).
  apply bind_Ok in E as ([] & c6 & [= <-] & E).
  rewrite schedule_effects_deferred in E. injection E as <-.
  destruct (reconciler_passes fuel) as (Hpass & _).
  destruct (Hpass _ _ _ _ _ _ _ Hrec)
    as ((Ha & Hb & _ & _ & _ & [m3 Hm3] & Hinv) & Hs).
  destruct (reconciler_keeps_identity fuel) as (Hgen & _).
  destruct (Hgen _ _ _ _ _ _ _ Hrec) as [_ (evs3 & Ht3 & Hev3)].
  destruct (store_attach_root _ _ _ _ _ Hatt) as (h5 & doc5 & tr5 & ->).
  destruct (attach_root_keeps _ _ _ _ _ Hatt) as [_ (evs5 & Ht5 & Hev5)].
  simpl in *.
  destruct Hinv as [Hkeys _].
  { split; simpl; [rewrite Hstate|rewrite Hstack];
      intros path Hin; by apply elem_of_nil in Hin. }
  rewrite cleanupUnusedHooks_nothing by done.
  unfold effects_deferred. simpl.
  split; [congruence|]. split; [congruence|]. split; [congruence|].
  split; [done|]. split; [done|]. split.
  - rewrite Hm3. destruct (effects_queue c3).
    + exists m3. by rewrite app_nil_r.
    + eexists. by rewrite <- (assoc_L (++)).
  - exists (evs3 ++ evs5). split.
    + simpl. by rewrite Ht5, Ht3, (assoc_L (++)).
    + apply Forall_app. split; [done|].
      eapply Forall_impl; [exact Hev5|]. apply structural_dom_event.
Qed.

(** [setup] throws when the container is missing and, the container being
    there, when the root node is null.  When it returns, the root is
    [rootNode] in [container], no component is being rendered, the effect
    queue is empty, only paths visited in this pass have hook state, the
    microtasks that waited still wait, and no effect and no cleanup
    function has been called: the hook state of the root that was there
    before is dropped with its cleanups uncalled. *)
Theorem setup_starts_over `{Registry} (fuel : nat) (rootNode : VNode)
    (container : nat) (c c' : Context) :
  (∀ node, setup fuel node None c = inl ContainerRequired)
  ∧ setup fuel None (Some container) c = inl RootCannotBeNull
  ∧ (setup fuel (Some rootNode) (Some container) c = inr (Ok tt c') →
     root_container c' = Some container
     ∧ root_node c' = Some rootNode
     ∧ hooks_componentStack c' = []
     ∧ effects_queue c' = []
     ∧ (∀ path, path ∈ Map_keys (hooks_state c') → path ∈ hooks_visited c')
     ∧ (∃ more, microtasks c' = microtasks c ++ more)
     ∧ trace_grows dom_event c c').
Proof.
  split; [done|]. split; [done|]. unfold setup. intros [= E].
  apply bind_Ok in E as (instance & c0 & [= <- <-] & E).
  apply bind_Ok in E as ([] & c1 & Hrm & E).
  apply bind_Ok in E as ([] & c2 & Hrc & E).
  apply bind_Ok in E as ([] & c3 & [= <-] & E).
  apply bind_Ok in E as ([] & c4 & [= <-] & E).
  apply bind_Ok in E as ([] & c5 & [= <-] & E).
  assert (store_only c c1 ∧ general c c1) as [(h1 & d1 & t1 & ->) [_ Ht1]].
  { destruct (root_instance c) as [i|].
    - split.
      + by apply (store_removeInstance _ _ _ _ _ Hrm).
      + assert (keeps general (removeInstance fuel (Some i))) as Hk.
        { apply keeps_removeInstance; [apply _|]. apply structural_dom_event. }
        by apply (Hk _ _ _ Hrm).
    - injection Hrm as <-. split; reflexivity. }
  destruct (store_removeChildren _ _ _ _ _ Hrc) as (h2 & d2 & t2 & ->).
  destruct (general_removeChildren _ _ _ _ _ Hrc) as [_ Ht2].
  rewrite cleanupUnusedHooks_nothing in E; cycle 1.
  { simpl. intros path Hin. by apply elem_of_nil in Hin. }
  apply (render_without_hooks fuel container rootNode) in E; try done.
  destruct E as (Ha & Hb & Hs & Hq & Hk & Hm & Ht).
  split; [done|]. split; [done|]. split; [done|]. split; [done|].
  split; [done|]. split; [done|].
  destruct Ht1 as (evs1 & Ht1 & Hev1), Ht2 as (evs2 & Ht2 & Hev2),
           Ht as (evs3 & Ht & Hev3).
  simpl in *. exists (evs1 ++ evs2 ++ evs3). split.
  - by rewrite Ht, Ht2, Ht1, !(assoc_L (++)).
  - by repeat (apply Forall_app; split).
Qed.

(** *** The Instances and their DOM nodes *)





(** *** The document *)








(** *** The layout *)






(** *** The steps of a mount *)






(** *** Mount and first render *)





(** *** Setup *)



(* ===================================================================== *)
(** * The properties at sample inputs *)
(* ===================================================================== *)

(** C6 on a later visit with the dependencies it had. *)
Lemma useEffect_visit_witness :
  last (hooks_componentStack effect_revisit_context) = Some "0"
  ∧ ∃ c', useEffect (mkEffectFn 9 None) (Some [VNum (Int 1)])
                    effect_revisit_context = Ok tt c'
          ∧ hooks_state c' = hooks_state effect_revisit_context
          ∧ effects_queue c' = effects_queue effect_revisit_context.
Proof.
  split; [reflexivity|].
  destruct (useEffect_visit (mkEffectFn 9 None) (Some [VNum (Int 1)])
              effect_revisit_context "0" eq_refl) as [_ Hrevisit].
  destruct (Hrevisit _ eq_refl) as [_ [Hsame _]].
  apply Hsame. split; [discriminate|]. split; [reflexivity|].
  intros [|i] x y; simpl; [|by rewrite lookup_nil].
  intros [= <-] [= <-]. reflexivity.
Defined.

(** A [span] with key "a": replaced by a [div] with key "a", and updated
    by a [span] with key "a". *)
Lemma reconcile_replace_or_update_witness :
  heap span_mounted !! 0 = Some span_instance
  ∧ type_or_key_differs (inst_node span_instance) div_a = true
  ∧ reconcile (H := sample_registry) 10 0 (Some 0) (Some div_a) "0"
              span_mounted = Ok (Some 1) div_mounted
  ∧ (∃ new created,
       Some 1 = Some new
       ∧ heap span_mounted !! new = None
       ∧ heap div_mounted !! new = Some created
       ∧ inst_node created = div_a
       ∧ inst_key created = key div_a
       ∧ inst_path created = "0"
       ∧ trace_grows (λ ev, negb (is_patch ev)) span_mounted div_mounted)
  ∧ subtree_ok 1 0 (heap span_mounted) (length (document span_mounted)) 0
  ∧ host_tree (H := sample_registry) 1 div_a
  ∧ (∃ r c', reconcile (H := sample_registry) 10 0 (Some 0) (Some div_a) "0"
                       span_mounted = Ok r c')
  ∧ type_or_key_differs (inst_node span_instance) span_a = false
  ∧ host_tree (H := sample_registry) 1 span_a
  ∧ (∃ r c', reconcile (H := sample_registry) 10 0 (Some 0) (Some span_a) "0"
                       span_mounted = Ok r c').
Proof.
  assert (heap span_mounted !! 0 = Some span_instance) as H1
    by (vm_compute; reflexivity).
  assert (reconcile (H := sample_registry) 10 0 (Some 0) (Some div_a) "0"
                    span_mounted = Ok (Some 1) div_mounted) as H2
    by (vm_compute; reflexivity).
  assert (length (document span_mounted) = 2) as Hdoc
    by (vm_compute; reflexivity).
  assert (subtree_ok 1 0 (heap span_mounted) (length (document span_mounted))
                     0) as Hold.
  { split; [lia|]. exists span_instance. split_and!; [exact H1| |constructor].
    intros x [= <-]. rewrite Hdoc. lia. }
  assert (host_tree (H := sample_registry) 1 div_a) as Hdiv.
  { split_and!; [intros fn; discriminate|by split|constructor]. }
  assert (host_tree (H := sample_registry) 1 span_a) as Hspan.
  { split_and!; [intros fn; discriminate|by split|constructor]. }
  destruct (reconcile_replace_or_update (H := sample_registry) 9 0 0 div_a
              "0" span_mounted span_instance H1) as [Hreplace _].
  destruct (Hreplace eq_refl) as (_ & Hresult & Hreturns).
  destruct (reconcile_replace_or_update (H := sample_registry) 9 0 0 span_a
              "0" span_mounted span_instance H1) as [_ Hupdate].
  destruct (Hupdate eq_refl) as (_ & _ & Hreturns').
  split_and!; [exact H1|reflexivity|exact H2| |exact Hold|exact Hdiv|
               |reflexivity|exact Hspan|].
  - exact (Hresult _ _ H2).
  - apply (Hreturns 1 1 0 Hold Hdiv); lia.
  - apply (Hreturns' 1);
      [reflexivity|discriminate|by eexists| |by intros _|exact Hspan|lia].
    intros x [= <-]. rewrite Hdoc. lia.
Defined.

(** The reuse of the child with key "x", moved from index 0 to index 1. *)
Lemma keyed_child_reused_witness :
  heap xy_mounted !! 0 = Some ul_instance
  ∧ reconcileChildren (H := sample_registry) 10 0 0 (children (props ul_yx))
                      "0" xy_mounted = Ok tt yx_reconciled
  ∧ ∃ inst' oldInst',
      heap yx_reconciled !! 0 = Some inst'
      ∧ inst_children inst'
          !! count_before is_rendered (children (props ul_yx)) 1 = Some 1
      ∧ heap yx_reconciled !! 1 = Some oldInst'
      ∧ inst_kind oldInst' = inst_kind li_x_instance
      ∧ inst_dom oldInst' = inst_dom li_x_instance
      ∧ inst_key oldInst' = inst_key li_x_instance
      ∧ createChildPath (H := sample_registry) "0" (KStr "x") 1
                        (Some (Host "li")) (Some (children (props ul_yx)))
        = "0" +:+ ".k" +:+ key_to_string (H := sample_registry) (KStr "x").
Proof.
  assert (heap xy_mounted !! 0 = Some ul_instance) as H1
    by (vm_compute; reflexivity).
  assert (reconcileChildren (H := sample_registry) 10 0 0
            (children (props ul_yx)) "0" xy_mounted = Ok tt yx_reconciled)
    as H2 by (vm_compute; reflexivity).
  split_and!; [exact H1|exact H2|].
  apply (keyed_child_reused (H := sample_registry) 10 0 0
           (children (props ul_yx)) "0" xy_mounted yx_reconciled ul_instance
           1 (el "li" (KStr "x") []) 1 li_x_instance).
  - exact H1.
  - discriminate.
  - reflexivity.
  - reflexivity.
  - intros j' child' Hlt Hj'. destruct j' as [|j']; [|lia].
    injection Hj' as <-. discriminate.
  - apply elem_of_cons. by left.
  - vm_compute; reflexivity.
  - reflexivity.
  - reflexivity.
  - reflexivity.
  - intros o io Ho Hio Hk. simpl in Ho.
    apply elem_of_cons in Ho as [->|Ho]; [done|].
    apply elem_of_cons in Ho as [->|Ho]; [|by apply elem_of_nil in Ho].
    vm_compute in Hio. injection Hio as <-. discriminate.
  - exact H2.
Defined.

(** C2, at a failing input: the children [0, "a"] of a [ul] are mounted
    and then reconciled against ["a", 0].  The child with key 0, present
    in both lists with the same type, does not keep its Instance: the one
    at address 1 is no longer a child, and a new Instance with a new DOM
    node stands for it. *)
Lemma falsy_key_child_not_reused :
  reconcile (H := sample_registry) 10 0 None (Some ul_0a) "0" empty_context
  = Ok (Some 0) falsy_mounted
  ∧ reconcile (H := sample_registry) 10 0 (Some 0) (Some ul_a0) "0"
              falsy_mounted
    = Ok (Some 0) falsy_reconciled
  ∧ inst_children <$> heap falsy_mounted !! 0 = Some [1; 2]
  ∧ inst_key <$> heap falsy_mounted !! 1 = Some (KNum (Int 0))
  ∧ type <$> (inst_node <$> heap falsy_mounted !! 1) = Some (Host "li")
  ∧ inst_children <$> heap falsy_reconciled !! 0 = Some [2; 3]
  ∧ heap falsy_mounted !! 3 = None
  ∧ inst_key <$> heap falsy_reconciled !! 3 = Some (KNum (Int 0))
  ∧ length (document falsy_reconciled) = S (length (document falsy_mounted)).
Proof. vm_compute. split_and!; reflexivity. Qed.

(** The swap of two keyed [li] under a [ul]: the Instances change places,
    no Instance and no DOM node is created, the hook state is as it
    was. *)
Lemma swap_creates_no_host_node :
  reconcile (H := sample_registry) 10 0 None (Some ul_xy) "0" empty_context
  = Ok (Some 0) xy_mounted
  ∧ reconcile (H := sample_registry) 10 0 (Some 0) (Some ul_yx) "0" xy_mounted
    = Ok (Some 0) yx_swapped
  ∧ inst_children <$> heap xy_mounted !! 0 = Some [1; 2]
  ∧ inst_children <$> heap yx_swapped !! 0 = Some [2; 1]
  ∧ length (heap yx_swapped) = length (heap xy_mounted)
  ∧ length (document yx_swapped) = length (document xy_mounted)
  ∧ inst_dom <$> heap yx_swapped = inst_dom <$> heap xy_mounted
  ∧ hooks_state yx_swapped = hooks_state xy_mounted
  ∧ dom_childNodes <$> document xy_mounted !! 1 = Some [2; 3]
  ∧ dom_childNodes <$> document yx_swapped !! 1 = Some [3; 2].
Proof. vm_compute. split_and!; reflexivity. Qed.

(** C9 on a slot that holds 1: the identity updater, and the value 2. *)
Lemma setState_mounted_witness :
  Map_get "0" (hooks_state state_context) = Some [StateSlot (VNum (Int 1))]
  ∧ [StateSlot (VNum (Int 1))] !! 0 = Some (StateSlot (VNum (Int 1)))
  ∧ setState (mkSetter "0" 0) (Updater (λ v, v)) state_context
    = Ok tt state_context
  ∧ setState (mkSetter "0" 0) (Literal (VNum (Int 2))) state_context
    = enqueueRender
        (with_hooks_state [("0", [StateSlot (VNum (Int 2))])] state_context).
Proof.
  split_and!; [reflexivity|reflexivity|..].
  - apply (setState_mounted (mkSetter "0" 0) (Updater (λ v, v)) state_context
             [StateSlot (VNum (Int 1))] (VNum (Int 1)) eq_refl eq_refl).
    reflexivity.
  - apply (setState_mounted (mkSetter "0" 0) (Literal (VNum (Int 2)))
             state_context [StateSlot (VNum (Int 1))] (VNum (Int 1))
             eq_refl eq_refl).
    discriminate.
Defined.

(** C5 on three calls in a row, storing 2, 3 and 4. *)
Lemma batched_setter_calls_witness :
  latch_agrees state_context
  ∧ ∃ c' stateArray',
      call_setter_each (mkSetter "0" 0)
        [Literal (VNum (Int 2)); Literal (VNum (Int 3));
         Updater (λ _, VNum (Int 4))] state_context = Ok tt c'
      ∧ pending_renders c' = 1
      ∧ scheduled c' = true
      ∧ microtasks c' = microtasks (render_requested state_context)
      ∧ Map_get "0" (hooks_state c') = Some stateArray'
      ∧ stateArray' !! 0 = Some (StateSlot (VNum (Int 4))).
Proof.
  split; [reflexivity|].
  apply (batched_setter_calls (H := sample_registry) (mkSetter "0" 0)
           [Literal (VNum (Int 2)); Literal (VNum (Int 3));
            Updater (λ _, VNum (Int 4))]
           state_context [StateSlot (VNum (Int 1))] (VNum (Int 1))).
  - reflexivity.
  - discriminate.
  - reflexivity.
  - reflexivity.
  - simpl. split_and!; [discriminate..|exact I].
Defined.

(** C10 on the key 0 at index 1. *)
Lemma falsy_key_selects_by_index_witness :
  KNum (Int 0) ≠ KNull
  ∧ key_truthy (KNum (Int 0)) = false
  ∧ (select_oldChild [5; 6] [(KNum (Int 0), 5); (KStr "a", 6)] ∅
                     (KNum (Int 0)) 1).1.1 = Some 6.
Proof.
  split_and!; [discriminate|reflexivity|].
  apply (falsy_key_selects_by_index [5; 6] [(KNum (Int 0), 5); (KStr "a", 6)]
           ∅ (KNum (Int 0)) 1); [discriminate|reflexivity].
Defined.


(** C8 on two stored paths of which one was visited. *)
Lemma cleanupUnusedHooks_unvisited_witness :
  NoDup (Map_keys (hooks_state gc_context))
  ∧ trace (cleanupUnusedHooks gc_context)
    = trace gc_context ++ [EvCleanup 9]
  ∧ Map_get "0.cA_0" (hooks_state (cleanupUnusedHooks gc_context)) = None
  ∧ hooks_cursor (cleanupUnusedHooks gc_context) !! "0.cA_0" = None.
Proof.
  assert (NoDup (Map_keys (hooks_state gc_context))) as Hnd.
  { apply (bool_decide_unpack _). vm_compute. exact I. }
  assert ("0.cA_0" ∉ hooks_visited gc_context) as Hnv.
  { apply (bool_decide_unpack _). vm_compute. exact I. }
  assert ("0.cA_0" ∈ Map_keys (hooks_state gc_context)) as Hin.
  { apply (bool_decide_unpack _). vm_compute. exact I. }
  destruct (cleanupUnusedHooks_unvisited gc_context Hnd)
    as (Ht & Hgone & _).
  split_and!; [exact Hnd|..].
  - rewrite Ht. f_equal.
  - apply (Hgone _ Hnv).
  - apply (Hgone _ Hnv). exact Hin.
Defined.


(** The first DOM node of the mounted fragment. *)
Lemma getFirstDom_head_witness :
  frag_mounted = frag_mounted
  ∧ getFirstDom 10 (Some 0) frag_mounted = Ok (head [1; 2]) frag_mounted.
Proof.
  apply (getFirstDom_head 10 (Some 0) frag_mounted frag_mounted [1; 2]).
  vm_compute; reflexivity.
Defined.

(** The rendered list [x, y], unmounted. *)
Lemma unmount_only_removes_witness :
  (∃ doc evs,
     xy_unmounted
     = with_trace (trace xy_rendered ++ evs) (with_document doc xy_rendered)
     ∧ Forall (λ ev, is_removal ev = true) evs)
  ∧ ∀ p d, not_child_of (document xy_rendered) p d →
           not_child_of (document xy_unmounted) p d.
Proof.
  apply (unmount_only_removes 10 0 xy_rendered xy_unmounted).
  vm_compute; reflexivity.
Defined.

Lemma unmount_detaches_witness :
  ∃ nodes,
    getDomNodes 9 (Some 0) xy_rendered = Ok nodes xy_rendered
    ∧ ∀ d, d ∈ nodes →
        detached (document xy_unmounted) d
        ∧ ∀ n p, document xy_rendered !! d = Some n →
                 dom_parentNode n = Some p →
                 not_child_of (document xy_unmounted) p d.
Proof.
  apply (unmount_detaches 9 0 xy_rendered xy_unmounted).
  vm_compute; reflexivity.
Defined.

(** The DOM nodes of the mounted fragment, inserted once more. *)
Lemma insertInstance_appends_witness :
  (∃ doc evs,
     frag_inserted
     = with_trace (trace frag_mounted ++ evs) (with_document doc frag_mounted)
     ∧ Forall (λ ev, is_append ev = true) evs)
  ∧ (∃ pn', document frag_inserted !! 0 = Some pn'
       ∧ dom_childNodes pn'
         = filter (λ y, y ∉ [1; 2]) (dom_childNodes container_ab) ++ [1; 2])
  ∧ (∀ x, x ∈ [1; 2] →
       ∃ n', document frag_inserted !! x = Some n'
         ∧ dom_parentNode n' = Some 0).
Proof.
  apply (insertInstance_appends 10 0 0 frag_mounted frag_inserted [1; 2]
           container_ab).
  - vm_compute; reflexivity.
  - repeat constructor; set_solver.
  - set_solver.
  - reflexivity.
  - intros x n Hx Hn _.
    apply elem_of_cons in Hx as [->|Hx]; [by injection Hn as <-|].
    apply elem_of_cons in Hx as [->|Hx]; [by injection Hn as <-|].
    by apply elem_of_nil in Hx.
  - vm_compute; reflexivity.
Defined.

(** The state slot of the component at "0", visited again. *)
Lemma useState_visit_witness :
  useState (InitValue (VNum (Int 5))) state_revisit_context
  = Ok (VNum (Int 1), mkSetter "0" 0)
       (with_hooks_cursor (<["0" := 1]> (hooks_cursor state_revisit_context))
                          state_revisit_context).
Proof.
  destruct (useState_visit (InitValue (VNum (Int 5))) state_revisit_context
              "0" eq_refl) as (_ & Hrevisit & _).
  exact (Hrevisit (VNum (Int 1)) eq_refl).
Defined.

(** The setter of that slot stores 2, and the next visit returns 2. *)
Lemma useState_after_setState_witness :
  useState (InitValue (VNum (Int 5)))
           (with_hooks_componentStack ["0"] state_set_context)
  = Ok (VNum (Int 2), mkSetter "0" 0)
       (with_hooks_cursor
          (<["0" := 1]>
             (hooks_cursor (with_hooks_componentStack ["0"] state_set_context)))
          (with_hooks_componentStack ["0"] state_set_context)).
Proof.
  apply (useState_after_setState (mkSetter "0" 0) (Literal (VNum (Int 2)))
           (InitValue (VNum (Int 5))) state_context state_set_context
           (with_hooks_componentStack ["0"] state_set_context)
           [StateSlot (VNum (Int 1))] (VNum (Int 1)));
    reflexivity.
Defined.

(** An effect with the cleanup 8, from its first visit to the GC of its
    path. *)
Lemma effect_lifecycle_witness :
  ∃ c1 c2,
    useEffect (mkEffectFn 7 (Some 8)) (Some []) first_visit_context = Ok tt c1
    ∧ effects_queue c1 = effects_queue first_visit_context ++ [("0", 0)]
    ∧ run_effect ("0", 0) c1 = Ok tt c2
    ∧ trace c2 = trace first_visit_context ++ [EvEffect 7]
    ∧ Map_get "0" (hooks_state c2)
      = Some [EffectSlot {| deps := Some []; cleanup := Some 8;
                            effect := mkEffectFn 7 (Some 8) |}]
    ∧ trace (cleanup_path "0" c2) = trace c2 ++ [EvCleanup 8]
    ∧ Map_get "0" (hooks_state (cleanup_path "0" c2)) = None.
Proof.
  apply (effect_lifecycle (mkEffectFn 7 (Some 8)) (Some [])
           first_visit_context "0"); reflexivity.
Defined.

(** The mounted [span] replaced by a [div]. *)
Lemma reconcile_keeps_instances_witness :
  (∀ i inst, heap span_mounted !! i = Some inst →
     ∃ inst', heap div_mounted !! i = Some inst'
       ∧ inst_kind inst' = inst_kind inst
       ∧ inst_dom inst' = inst_dom inst
       ∧ inst_key inst' = inst_key inst
       ∧ type (inst_node inst') = type (inst_node inst)
       ∧ key (inst_node inst') = key (inst_node inst))
  ∧ ∃ evs, trace div_mounted = trace span_mounted ++ evs
           ∧ Forall (λ ev, is_hook_call ev = false) evs.
Proof.
  apply (reconcile_keeps_instances (H := sample_registry) 10 0 (Some 0)
           (Some div_a) "0" span_mounted div_mounted (Some 1)).
  vm_compute; reflexivity.
Defined.

(** The sample [Toggle], mounted from the empty engine. *)
Lemma reconcile_leaves_engine_witness :
  root_container toggle_mounted = root_container empty_context
  ∧ root_node toggle_mounted = root_node empty_context
  ∧ root_instance toggle_mounted = root_instance empty_context
  ∧ hooks_componentStack toggle_mounted = hooks_componentStack empty_context
  ∧ hooks_visited empty_context ⊆ hooks_visited toggle_mounted
  ∧ (∃ more, effects_queue toggle_mounted = effects_queue empty_context ++ more)
  ∧ (∃ more, microtasks toggle_mounted = microtasks empty_context ++ more)
  ∧ (hook_paths_visited empty_context → hook_paths_visited toggle_mounted).
Proof.
  apply (reconcile_leaves_engine (H := sample_registry) 20 0 None
           (Some toggle_root) "0" empty_context toggle_mounted (Some 0)).
  vm_compute; reflexivity.
Defined.

(** A second [setup] of the container in which [Toggle] is rendered. *)
Lemma setup_starts_over_witness :
  root_container setup_again = Some 0
  ∧ root_node setup_again = Some ul_xy
  ∧ hooks_componentStack setup_again = []
  ∧ effects_queue setup_again = []
  ∧ (∀ path, path ∈ Map_keys (hooks_state setup_again) →
             path ∈ hooks_visited setup_again)
  ∧ (∃ more, microtasks setup_again = microtasks toggle_rendered ++ more)
  ∧ trace_grows dom_event toggle_rendered setup_again.
Proof.
  apply (setup_starts_over (H := sample_registry) 20 ul_xy 0 toggle_rendered
           setup_again).
  vm_compute; reflexivity.
Defined.

(** Two objects with the same properties in another order. *)
Lemma equals_symmetric_witness :
  Equals.deepEquals point_a point_c = Equals.deepEquals point_c point_a
  ∧ Equals.shallowEquals point_a point_c = Equals.shallowEquals point_c point_a.
Proof.
  apply (equals_symmetric point_a point_c); simpl;
    repeat split; repeat constructor; set_solver.
Defined.

(** Two objects of the same shape at different addresses. *)
Lemma deepEquals_same_shape_witness :
  Equals.deepEquals point_a point_b = true.
Proof.
  apply (deepEquals_same_shape point_a point_b); [|reflexivity].
  simpl; repeat split; repeat constructor; set_solver.
Defined.

(** An element updated with its own props, without and with a NaN. *)
Lemma updateDomProps_same_witness :
  updateDomProps_calls (H := sample_registry) props_before props_before = []
  ∧ SetAttribute "width" "NaN"
    ∈ updateDomProps_calls (H := sample_registry) props_nan props_nan.
Proof.
  split.
  - apply (updateDomProps_same (H := sample_registry) props_before).
    + simpl. repeat constructor; set_solver.
    + intros key _ Hin.
      repeat (apply elem_of_cons in Hin as [Hin|Hin]; [discriminate Hin|]).
      by apply elem_of_nil in Hin.
  - apply (updateDomProps_same (H := sample_registry) props_nan).
    + simpl. repeat constructor; set_solver.
    + apply elem_of_cons. right. apply elem_of_cons. by left.
    + discriminate.
    + reflexivity.
    + discriminate.
    + discriminate.
Defined.

(** An element with the attributes of [props_before], updated to
    [props_after]. *)
Lemma updateDomProps_attributes_witness :
  ∃ after,
    attributes_after (H := sample_registry)
      (updateDomProps_calls (H := sample_registry) props_before props_after)
      attributes_before = Some after
    ∧ same_attributes after attributes_expected.
Proof.
  apply (updateDomProps_attributes (H := sample_registry)
           props_before props_after attributes_before attributes_before
           attributes_expected).
  - unfold one_key_per_attribute. vm_compute. repeat constructor; set_solver.
  - unfold one_key_per_attribute. vm_compute. repeat constructor; set_solver.
  - intros key Hin. simpl in Hin.
    repeat (apply elem_of_cons in Hin as [->|Hin]; [reflexivity|]).
    by apply elem_of_nil in Hin.
  - intros key Hin. simpl in Hin.
    repeat (apply elem_of_cons in Hin as [->|Hin]; [reflexivity|]).
    by apply elem_of_nil in Hin.
  - intros key value Hin Hon.
    repeat (apply elem_of_cons in Hin as [Hin|Hin];
            [injection Hin as -> ->;
             first [discriminate Hon|left; by eexists]|]).
    by apply elem_of_nil in Hin.
  - intros key value Hin Hon.
    repeat (apply elem_of_cons in Hin as [Hin|Hin];
            [injection Hin as -> ->;
             first [discriminate Hon|left; by eexists]|]).
    by apply elem_of_nil in Hin.
  - intros Hin.
    repeat (apply elem_of_cons in Hin as [Hin|Hin]; [discriminate Hin|]).
    by apply elem_of_nil in Hin.
  - vm_compute; reflexivity.
  - vm_compute; reflexivity.
  - done.
Defined.

(** C1, at a failing input: the list [a, b] under a [ul] is mounted, and
    the [ul] Instance is reconciled with a [ul] whose children are a [div]
    with the key "b" and the [li] with the key "a".  The old Instance and
    the node are both there, with the same type and the same key, so that
    the call is the update of the Instance; it does not return the
    Instance, it throws a NotFoundError.  The child with the key "b" is
    replaced: its [li] is removed from the [ul], and the new [div] is to
    be inserted before the first DOM node of the old children after index
    0, which is that [li].  In the state that is left the [li] is removed
    and the [div] is not inserted, and the [ul] Instance holds the new
    node with the old children. *)
Theorem reconcile_update_throws :
  reconcile (H := sample_registry) 10 0 None (Some ul_ab) "0" empty_context
  = Ok (Some 0) ab_mounted
  ∧ inst_node <$> heap ab_mounted !! 0 = Some ul_ab
  ∧ type_or_key_differs ul_ab ul_div_b_a = false
  ∧ ∃ c',
      reconcile (H := sample_registry) 10 0 (Some 0) (Some ul_div_b_a) "0"
                ab_mounted
      = Throw NotFoundError c'
      ∧ dom_childNodes <$> document ab_mounted !! 1 = Some [2; 3]
      ∧ dom_childNodes <$> document c' !! 1 = Some [2]
      ∧ dom_parentNode <$> document c' !! 3 = Some None
      ∧ dom_parentNode <$> document c' !! 4 = Some None
      ∧ inst_node <$> heap c' !! 0 = Some ul_div_b_a
      ∧ inst_children <$> heap c' !! 0 = Some [1; 2].
Proof. vm_compute. split_and!; try reflexivity. eexists. split_and!; reflexivity. Qed.



